(** * mapel.elections.distances_ : dispatch and scheduling of election distances

    A shallow embedding of [distances_.py]: the identifier parser
    [_extract_distance_id], the two metric registries, the dispatchers
    [get_distance], [get_approval_distance] and [get_ordinal_distance], and
    the two schedulers [run_single_process] and [run_multiple_processes].

    Python objects live in a store addressed by references, so that a metric
    mutating the election it was handed is visible to everybody holding the
    same reference, and [copy.deepcopy] allocates a fresh object.  Exceptions
    are explicit outcomes, and they leave the store and the matrices as they
    were when they were raised.

    The three matrices are dictionaries of rows, one row dictionary of its
    own per instance; an instance identifier is a string.  The floats are the
    values of an unspecified type, compared by equality.  [tqdm] only shows
    the progress of the loop and is left out. *)

From stdpp Require Import gmap strings list fin_maps sorting.
From Stdlib Require Import ZArith Ascii.

Open Scope string_scope.
#[local] Set Warnings "-clear-no-such-hyp".

(** ** Outcomes of Python code *)

Inductive exn : Type :=
  | TypeError (msg : string)
  | ValueError (msg : string)
  | KeyError (key : string)
  | SystemError (msg : string)
  | MetricError (msg : string).

Inductive res (A : Type) : Type :=
  | Ok (a : A)
  | Raise (e : exn).
Arguments Ok {A} a.
Arguments Raise {A} e.

#[global] Instance res_ret : MRet res := λ A a, Ok a.
#[global] Instance res_bind : MBind res := λ A B f r,
  match r with
  | Ok a => f a
  | Raise e => Raise e
  end.

(** ** Classes of the instances

    [type(x) is C] compares classes by identity.  [Subclass name base] is a
    class declared as [class name(base)]; [OtherClass] is any class outside
    the two election hierarchies. *)

Inductive PyClass : Type :=
  | ApprovalElection
  | OrdinalElection
  | Subclass (name : string) (base : PyClass)
  | OtherClass (name : string).

#[global] Instance PyClass_eq_dec : EqDecision PyClass.
Proof. solve_decision. Defined.

Inductive Family : Type := Approval | Ordinal.

#[global] Instance Family_eq_dec : EqDecision Family.
Proof. solve_decision. Defined.

(** The family an instance belongs to by inheritance, as [isinstance] sees
    it. *)
Fixpoint family_of (c : PyClass) : option Family :=
  match c with
  | ApprovalElection => Some Approval
  | OrdinalElection => Some Ordinal
  | Subclass _ base => family_of base
  | OtherClass _ => None
  end.

Definition family_class (f : Family) : PyClass :=
  match f with
  | Approval => ApprovalElection
  | Ordinal => OrdinalElection
  end.

(** A strict subclass of one of the two election classes. *)
Definition strict_subclass (c : PyClass) : Prop :=
  match c with
  | Subclass _ base => is_Some (family_of base)
  | _ => False
  end.

(** ** Strings: [sep in s] and [s.split(sep)] for a one-character [sep] *)

Fixpoint str_contains (sep : ascii) (s : string) : bool :=
  match s with
  | EmptyString => false
  | String c s' => if Ascii.eqb c sep then true else str_contains sep s'
  end.

Fixpoint str_split (sep : ascii) (s : string) : list string :=
  match s with
  | EmptyString => [EmptyString]
  | String c s' =>
      if Ascii.eqb c sep then EmptyString :: str_split sep s'
      else match str_split sep s' with
           | [] => [String c EmptyString]
           | part :: parts => String c part :: parts
           end
  end.

(** Number of occurrences of [sep] in [s]. *)
Fixpoint str_count (sep : ascii) (s : string) : nat :=
  match s with
  | EmptyString => 0
  | String c s' => (if Ascii.eqb c sep then 1 else 0) + str_count sep s'
  end.

(** [s.partition(sep)]: what stands before, and what stands after, the first
    [sep]. *)
Fixpoint str_before (sep : ascii) (s : string) : string :=
  match s with
  | EmptyString => EmptyString
  | String c s' =>
      if Ascii.eqb c sep then EmptyString else String c (str_before sep s')
  end.

Fixpoint str_after (sep : ascii) (s : string) : string :=
  match s with
  | EmptyString => EmptyString
  | String c s' => if Ascii.eqb c sep then s' else str_after sep s'
  end.

(** ** Dictionaries *)

(** [d[k]] *)
Definition getitem {V} (d : gmap string V) (k : string) : res V :=
  match d !! k with
  | Some v => Ok v
  | None => Raise (KeyError k)
  end.

(** [d[i][j]] *)
Definition getitem2 {V} (d : gmap string (gmap string V)) (i j : string) : res V :=
  row ← getitem d i; getitem row j.

(** [d[i][j] = v]: the row [d[i]] is looked up, and updated in place. *)
Definition setitem2 {V} (d : gmap string (gmap string V)) (i j : string) (v : V)
  : res (gmap string (gmap string V)) :=
  row ← getitem d i; Ok (<[i := <[j := v]> row]> d).

(** ** numpy *)

(** [np.array(matching)] *)
Definition np_array (matching : list Z) : list Z := matching.

(** [np.argsort(a)]: the indices that sort [a].  Ties are broken as the merge
    sort breaks them; an array of distinct values has one answer. *)
Definition by_value (x y : Z * nat) : Prop := (x.1 ≤ y.1)%Z.

#[global] Instance by_value_dec : RelDecision by_value.
Proof. intros x y. unfold by_value. apply _. Defined.

Definition argsort (a : list Z) : list Z :=
  (λ p : Z * nat, Z.of_nat p.2)
    <$> merge_sort by_value (zip a (seq 0 (length a))).

(** [a[i]] on a one-dimensional array: a negative index counts from the
    end, an index out of range is an error. *)
Definition np_getitem (a : list Z) (i : Z) : option Z :=
  if (0 <=? i)%Z then a !! Z.to_nat i
  else if (- Z.of_nat (length a) <=? i)%Z
       then a !! Z.to_nat (Z.of_nat (length a) + i)
       else None.

(** ** Collaborators that are imported, not defined, by the module

    The floats returned by metrics and by [time()], the content of an
    election, the element-level distance functions, the keyword arguments
    handed through to a metric, and [map_str_to_func] of
    [mapel.core.inner_distances], which resolves the inner distance name and
    whose result is a Python value ([None] or a function) or an exception. *)

Class Collaborators : Type := {
  scalar : Type;
  fsub : scalar → scalar → scalar;
  payload : Type;
  inner_fn : Type;
  kwargs : Type;
  no_kwargs : kwargs;
  map_str_to_func : string → res (option inner_fn)
}.

(** References to Python objects. *)
Abbreviation loc := positive.

Section Model.
Context `{Collaborators}.

(** [_extract_distance_id]: the inner distance (a function, or [None]) and
    the name of the main distance.  [distance_id] is [None] when the caller
    left the default; [inner, main = s.split('-')] needs exactly two
    parts. *)
Definition _extract_distance_id (distance_id : option string)
  : res (option inner_fn * string) :=
  match distance_id with
  | None => Raise (TypeError "argument of type 'NoneType' is not iterable")
  | Some distance_id =>
      if str_contains "-" distance_id then
        match str_split "-" distance_id with
        | [inner_distance; main_distance] =>
            inner_distance ← map_str_to_func inner_distance;
            Ok (inner_distance, main_distance)
        | [] | [_] =>
            Raise (ValueError "not enough values to unpack (expected 2)")
        | _ =>
            Raise (ValueError "too many values to unpack (expected 2)")
        end
      else Ok (None, distance_id)
  end.

(** ** The object store *)

(** An election object: its class and its content (votes and caches). *)
Record Election : Type := { ob_type : PyClass; ob_data : payload }.

(** What a metric returns: nothing, a float, or [(float, matching)]. *)
Inductive pyresult : Type :=
  | RNone
  | RScalar (distance : scalar)
  | RTuple (distance : scalar) (matching : list Z).

(** The third argument of a metric: the inner distance, positionally, or the
    keyword arguments. *)
Inductive metric_arg : Type :=
  | Positional (inner_distance : inner_fn)
  | Keywords (kw : kwargs).

(** A registered metric is Python code: it is handed two references, reads
    and possibly writes the store, and returns or raises. *)
Definition Metric : Type :=
  loc → loc → metric_arg → gmap loc Election → res pyresult * gmap loc Election.

(** A cell of the distance matrix: [None] or a float. *)
Inductive pyvalue : Type :=
  | PyNone
  | PyFloat (x : scalar).

(** One invocation of a registered metric: the registry, the name, the two
    arguments and their classes when the call was made. *)
Record call_event : Type := {
  ev_family : Family;
  ev_name : string;
  ev_args : loc * loc;
  ev_types : option PyClass * option PyClass
}.

(** [Experiment]: the three attributes the module reads. *)
Record Experiment : Type := {
  instances : gmap string loc;
  distance_id : option string;
  is_exported : bool
}.

(** Everything the module reads or writes: the objects, the two module-level
    registries, the three matrices handed to the schedulers, the warnings
    logged, the metric calls made, the clock behind [time()], and the
    partitions handed to the export collaborator. *)
Record World : Type := {
  heap : gmap loc Election;
  registered_approval_distances : gmap string Metric;
  registered_ordinal_distances : gmap string Metric;
  distances : gmap string (gmap string pyvalue);
  times : gmap string (gmap string scalar);
  matchings : gmap string (gmap string (list Z));
  warnings : list string;
  calls : list call_event;
  clock : nat → scalar;
  ticks : nat;
  exported : list (nat * list (string * string))
}.

Definition set_heap (h : gmap loc Election) (w : World) : World :=
  {| heap := h;
     registered_approval_distances := registered_approval_distances w;
     registered_ordinal_distances := registered_ordinal_distances w;
     distances := distances w; times := times w; matchings := matchings w;
     warnings := warnings w; calls := calls w; clock := clock w;
     ticks := ticks w; exported := exported w |}.

Definition set_registered_approval_distances (r : gmap string Metric) (w : World)
  : World :=
  {| heap := heap w;
     registered_approval_distances := r;
     registered_ordinal_distances := registered_ordinal_distances w;
     distances := distances w; times := times w; matchings := matchings w;
     warnings := warnings w; calls := calls w; clock := clock w;
     ticks := ticks w; exported := exported w |}.

Definition set_registered_ordinal_distances (r : gmap string Metric) (w : World)
  : World :=
  {| heap := heap w;
     registered_approval_distances := registered_approval_distances w;
     registered_ordinal_distances := r;
     distances := distances w; times := times w; matchings := matchings w;
     warnings := warnings w; calls := calls w; clock := clock w;
     ticks := ticks w; exported := exported w |}.

Definition set_distances (d : gmap string (gmap string pyvalue)) (w : World)
  : World :=
  {| heap := heap w;
     registered_approval_distances := registered_approval_distances w;
     registered_ordinal_distances := registered_ordinal_distances w;
     distances := d; times := times w; matchings := matchings w;
     warnings := warnings w; calls := calls w; clock := clock w;
     ticks := ticks w; exported := exported w |}.

Definition set_times (t : gmap string (gmap string scalar)) (w : World) : World :=
  {| heap := heap w;
     registered_approval_distances := registered_approval_distances w;
     registered_ordinal_distances := registered_ordinal_distances w;
     distances := distances w; times := t; matchings := matchings w;
     warnings := warnings w; calls := calls w; clock := clock w;
     ticks := ticks w; exported := exported w |}.

Definition set_matchings (m : gmap string (gmap string (list Z))) (w : World)
  : World :=
  {| heap := heap w;
     registered_approval_distances := registered_approval_distances w;
     registered_ordinal_distances := registered_ordinal_distances w;
     distances := distances w; times := times w; matchings := m;
     warnings := warnings w; calls := calls w; clock := clock w;
     ticks := ticks w; exported := exported w |}.

Definition add_warning (msg : string) (w : World) : World :=
  {| heap := heap w;
     registered_approval_distances := registered_approval_distances w;
     registered_ordinal_distances := registered_ordinal_distances w;
     distances := distances w; times := times w; matchings := matchings w;
     warnings := warnings w ++ [msg]; calls := calls w; clock := clock w;
     ticks := ticks w; exported := exported w |}.

Definition add_call (ev : call_event) (w : World) : World :=
  {| heap := heap w;
     registered_approval_distances := registered_approval_distances w;
     registered_ordinal_distances := registered_ordinal_distances w;
     distances := distances w; times := times w; matchings := matchings w;
     warnings := warnings w; calls := calls w ++ [ev]; clock := clock w;
     ticks := ticks w; exported := exported w |}.

Definition tick (w : World) : World :=
  {| heap := heap w;
     registered_approval_distances := registered_approval_distances w;
     registered_ordinal_distances := registered_ordinal_distances w;
     distances := distances w; times := times w; matchings := matchings w;
     warnings := warnings w; calls := calls w; clock := clock w;
     ticks := S (ticks w); exported := exported w |}.

Definition add_export (e : nat * list (string * string)) (w : World) : World :=
  {| heap := heap w;
     registered_approval_distances := registered_approval_distances w;
     registered_ordinal_distances := registered_ordinal_distances w;
     distances := distances w; times := times w; matchings := matchings w;
     warnings := warnings w; calls := calls w; clock := clock w;
     ticks := ticks w; exported := e :: exported w |}.

(** ** Statements: state and exceptions *)

Definition M (A : Type) : Type := World → res A * World.

#[global] Instance M_ret : MRet M := λ A a w, (Ok a, w).
#[global] Instance M_bind : MBind M := λ A B f m w,
  match m w with
  | (Ok a, w') => f a w'
  | (Raise e, w') => (Raise e, w')
  end.

Definition lift {A} (r : res A) : M A := λ w, (r, w).
Definition gets {A} (f : World → A) : M A := λ w, (Ok (f w), w).
Definition modify (f : World → World) : M unit := λ w, (Ok tt, f w).

(** [for x in l: body] *)
Fixpoint for_each {A} (body : A → M unit) (l : list A) : M unit :=
  match l with
  | [] => mret tt
  | x :: l' => body x;; for_each body l'
  end.

(** ** Matrices of the world *)

(** The statement [d[i][j] = v] on one of the matrices of the world. *)
Definition store2 {V} (get : World → gmap string (gmap string V))
    (set : gmap string (gmap string V) → World → World)
    (i j : string) (v : V) : M unit := λ w,
  match setitem2 (get w) i j v with
  | Ok d => (Ok tt, set d w)
  | Raise e => (Raise e, w)
  end.

(** The expression [d[i][j]] on one of the matrices of the world. *)
Definition load2 {V} (get : World → gmap string (gmap string V))
    (i j : string) : M V := λ w, (getitem2 (get w) i j, w).

(** ** Library calls *)

(** [time()] *)
Definition py_time : M scalar := λ w, (Ok (clock w (ticks w)), tick w).

(** [logging.warning(msg)] *)
Definition logging_warning (msg : string) : M unit := modify (add_warning msg).

(** [type(x)] *)
Definition py_type (x : loc) : M PyClass := λ w,
  match heap w !! x with
  | Some o => (Ok (ob_type o), w)
  | None => (Raise (SystemError "dangling reference"), w)
  end.

(** [copy.deepcopy(x)] of an election: a fresh object with the same
    content. *)
Definition deepcopy (x : loc) : M loc := λ w,
  match heap w !! x with
  | Some o =>
      let x' := fresh (dom (heap w)) in
      (Ok x', set_heap (<[x' := o]> (heap w)) w)
  | None => (Raise (SystemError "dangling reference"), w)
  end.

(** [copy.deepcopy(s)] of a string or of [None]: the value itself. *)
Definition deepcopy_str (s : option string) : M (option string) := mret s.

(** ** The registries *)

Definition add_approval_distance (name : string) (function : Metric) : M unit :=
  modify (λ w, set_registered_approval_distances
                 (<[name := function]> (registered_approval_distances w)) w).

Definition add_ordinal_distance (name : string) (function : Metric) : M unit :=
  modify (λ w, set_registered_ordinal_distances
                 (<[name := function]> (registered_ordinal_distances w)) w).

(** The call [registry.get(main_distance)(election_1, election_2, arg)]: the
    call is recorded, the metric runs on the store. *)
Definition call_metric (family : Family) (name : string) (function : Metric)
    (election_1 election_2 : loc) (arg : metric_arg) : M pyresult := λ w,
  let ev := {| ev_family := family; ev_name := name;
               ev_args := (election_1, election_2);
               ev_types := (ob_type <$> heap w !! election_1,
                            ob_type <$> heap w !! election_2) |} in
  let '(r, h) := function election_1 election_2 arg (heap w) in
  (r, set_heap h (add_call ev w)).

(** ** The dispatchers *)

Definition get_approval_distance (election_1 election_2 : loc)
    (distance_id : option string) (kw : kwargs) : M pyresult :=
  '(inner_distance, main_distance) ← lift (_extract_distance_id distance_id);
  registry ← gets registered_approval_distances;
  match registry !! main_distance with
  | Some function =>
      match inner_distance with
      | Some inner_distance =>
          call_metric Approval main_distance function election_1 election_2
            (Positional inner_distance)
      | None =>
          call_metric Approval main_distance function election_1 election_2
            (Keywords kw)
      end
  | None =>
      logging_warning ("No such distance as: " ++ main_distance ++ "!");;
      mret RNone
  end.

Definition get_ordinal_distance (election_1 election_2 : loc)
    (distance_id : option string) (kw : kwargs) : M pyresult :=
  '(inner_distance, main_distance) ← lift (_extract_distance_id distance_id);
  registry ← gets registered_ordinal_distances;
  match registry !! main_distance with
  | Some function =>
      match inner_distance with
      | Some inner_distance =>
          call_metric Ordinal main_distance function election_1 election_2
            (Positional inner_distance)
      | None =>
          call_metric Ordinal main_distance function election_1 election_2
            (Keywords kw)
      end
  | None =>
      logging_warning ("No such distance as: " ++ main_distance ++ "!");;
      mret RNone
  end.

Definition get_distance (election_1 election_2 : loc)
    (distance_id : option string) : M pyresult :=
  type_1 ← py_type election_1;
  type_2 ← py_type election_2;
  if bool_decide (type_1 = ApprovalElection)
     && bool_decide (type_2 = ApprovalElection) then
    get_approval_distance election_1 election_2 distance_id no_kwargs
  else if bool_decide (type_1 = OrdinalElection)
          && bool_decide (type_2 = OrdinalElection) then
    get_ordinal_distance election_1 election_2 distance_id no_kwargs
  else
    logging_warning "No such instance!";;
    mret RNone.

(** ** The schedulers *)

(** The two statements [d[i][j] = v] and [d[j][i] = d[i][j]] on one of the
    matrices. *)
Definition store_mirrored {V} (get : World → gmap string (gmap string V))
    (set : gmap string (gmap string V) → World → World)
    (i j : string) (v : V) : M unit :=
  store2 get set i j v;;
  mirrored ← load2 get i j;
  store2 get set j i mirrored.

(** Lines 173-181 of [run_single_process], which lines 198-206 of
    [run_multiple_processes] repeat word for word: unpack a tuple and store
    the matching and its [argsort]; store the distance and the elapsed time,
    each mirrored. *)
Definition store_result (instance_id_1 instance_id_2 : string)
    (start_time : scalar) (distance : pyresult) : M unit :=
  distance ←
    match distance with
    | RTuple distance matching =>
        let matching := np_array matching in
        store2 matchings set_matchings instance_id_1 instance_id_2 matching;;
        store2 matchings set_matchings instance_id_2 instance_id_1
          (argsort matching);;
        mret (PyFloat distance)
    | RScalar distance => mret (PyFloat distance)
    | RNone => mret PyNone
    end;
  store_mirrored distances set_distances instance_id_1 instance_id_2 distance;;
  now ← py_time;
  store_mirrored times set_times instance_id_1 instance_id_2
    (fsub now start_time).

(** Lines 165-172: the call of [get_distance], on copies in safe mode and on
    the stored instances otherwise.  Arguments are evaluated left to
    right. *)
Definition single_process_dispatch (exp : Experiment) (safe_mode : bool)
    (instance_id_1 instance_id_2 : string) : M pyresult :=
  if safe_mode then
    election_1 ← lift (getitem (instances exp) instance_id_1);
    election_1 ← deepcopy election_1;
    election_2 ← lift (getitem (instances exp) instance_id_2);
    election_2 ← deepcopy election_2;
    distance_id ← deepcopy_str (distance_id exp);
    get_distance election_1 election_2 distance_id
  else
    election_1 ← lift (getitem (instances exp) instance_id_1);
    election_2 ← lift (getitem (instances exp) instance_id_2);
    get_distance election_1 election_2 (distance_id exp).

(** The body of the loop of [run_single_process]. *)
Definition single_process_step (exp : Experiment) (safe_mode : bool)
    (pair : string * string) : M unit :=
  start_time ← py_time;
  distance ← single_process_dispatch exp safe_mode pair.1 pair.2;
  store_result pair.1 pair.2 start_time distance.

Definition run_single_process (exp : Experiment)
    (instances_ids : list (string * string)) (safe_mode : bool) : M unit :=
  for_each (single_process_step exp safe_mode) instances_ids.

(** Lines 195-197: the call of [get_distance], always on copies. *)
Definition multiple_processes_dispatch (experiment : Experiment)
    (instance_id_1 instance_id_2 : string) : M pyresult :=
  election_1 ← lift (getitem (instances experiment) instance_id_1);
  election_1 ← deepcopy election_1;
  election_2 ← lift (getitem (instances experiment) instance_id_2);
  election_2 ← deepcopy election_2;
  distance_id ← deepcopy_str (distance_id experiment);
  get_distance election_1 election_2 distance_id.

(** The body of the loop of [run_multiple_processes]. *)
Definition multiple_processes_step (experiment : Experiment)
    (pair : string * string) : M unit :=
  start_time ← py_time;
  distance ← multiple_processes_dispatch experiment pair.1 pair.2;
  store_result pair.1 pair.2 start_time distance.

(** Modelled from the spec: [exports.export_distances_multiple_processes] of
    [mapel.core.persistence] is not part of this module; it is handed the
    experiment, the worker's pairs, the distances, the times and the worker's
    number, writes them out and returns nothing.  The world records which
    worker exported which pairs. *)
Definition export_distances_multiple_processes
    (instances_ids : list (string * string)) (process_id : nat) : M unit :=
  modify (add_export (process_id, instances_ids)).

Definition run_multiple_processes (experiment : Experiment)
    (instances_ids : list (string * string)) (process_id : nat) : M unit :=
  for_each (multiple_processes_step experiment) instances_ids;;
  if is_exported experiment then
    export_distances_multiple_processes instances_ids process_id
  else mret tt.

(** Modelled from the spec: the caller that splits the pair list and starts
    the workers is not part of this module.  Each worker runs
    [run_multiple_processes] on its partition, with its number, and
    independently of the other workers: it starts from the world as it is
    when the workers are started and writes into matrices of its own; a
    worker that raises stops there, and the other workers are unaffected.
    The outcome and the world of each worker, in the order of the
    partitions. *)
Definition run_workers (experiment : Experiment)
    (partitions : list (list (string * string))) (w : World)
  : list (res unit * World) :=
  imap (λ process_id instances_ids,
          run_multiple_processes experiment instances_ids process_id w)
    partitions.

(** ** Vocabulary of the statements *)

(** The cell [(i, j)] of a matrix, when it has one. *)
Definition cell {V} (d : gmap string (gmap string V)) (i j : string)
  : option V :=
  d !! i ≫= (.!! j).

(** The cells [(i, j)] and [(j, i)] of a matrix are there and hold the same
    value. *)
Definition mirrored_at {V} (d : gmap string (gmap string V)) (i j : string)
  : Prop :=
  ∃ v, cell d i j = Some v ∧ cell d j i = Some v.

(** [p] is a permutation of [0 .. len(p) - 1]. *)
Definition is_permutation (p : list Z) : Prop :=
  p ≡ₚ Z.of_nat <$> seq 0 (length p).

(** [q] is the inverse of [p]: [q[p[k]] == k] for every valid [k]. *)
Definition inverse_of (p q : list Z) : Prop :=
  ∀ k v, p !! k = Some v → np_getitem q v = Some (Z.of_nat k).

(** A metric that writes to the store only through its two arguments:
    objects that exist and are not an argument keep their content. *)
Definition mutates_arguments_only (function : Metric) : Prop :=
  ∀ election_1 election_2 arg h x o,
    h !! x = Some o → x ≠ election_1 → x ≠ election_2 →
    (function election_1 election_2 arg h).2 !! x = Some o.

Definition registered (w : World) (function : Metric) : Prop :=
  ∃ name, registered_approval_distances w !! name = Some function
          ∨ registered_ordinal_distances w !! name = Some function.

(** What a dispatcher for one family adds to the record of calls: at most
    one call, to a metric of that family, with the two elections it was
    given. *)
Definition one_call_at_most (family : Family) (election_1 election_2 : loc)
    (w w' : World) : Prop :=
  calls w' = calls w
  ∨ ∃ name,
      calls w' = (calls w ++
        [{| ev_family := family; ev_name := name;
            ev_args := (election_1, election_2);
            ev_types := (ob_type <$> heap w !! election_1,
                         ob_type <$> heap w !! election_2) |}])%list.

(** A statement that maintains a property of the world, whatever its
    outcome. *)
Definition keeps {A} (I : World → Prop) (m : M A) : Prop :=
  ∀ w, I w → I (m w).2.

(** A statement that leaves a component of the world as it was, whatever its
    outcome. *)
Definition unchanged {A X} (proj : World → X) (m : M A) : Prop :=
  ∀ w, proj (m w).2 = proj w.

(** A component of the world that is none of the store, the warnings, the
    record of calls and the clock. *)
Definition beside_dispatch {X} (proj : World → X) : Prop :=
  (∀ h w, proj (set_heap h w) = proj w)
  ∧ (∀ msg w, proj (add_warning msg w) = proj w)
  ∧ (∀ ev w, proj (add_call ev w) = proj w)
  ∧ (∀ w, proj (tick w) = proj w).

(** The distance that [store_result] keeps of what the dispatcher
    returned. *)
Definition distance_of (distance : pyresult) : pyvalue :=
  match distance with
  | RTuple distance _ | RScalar distance => PyFloat distance
  | RNone => PyNone
  end.

(** The two schedulers side by side: which one runs, the call of
    [get_distance] it makes for a pair, the body of its loop, its loop, and
    whether it hands copies to [get_distance]. *)
Inductive scheduler : Type :=
  | SingleProcess (safe_mode : bool)
  | MultipleProcesses (process_id : nat).

Definition run (s : scheduler) (exp : Experiment)
    (instances_ids : list (string * string)) : M unit :=
  match s with
  | SingleProcess safe_mode => run_single_process exp instances_ids safe_mode
  | MultipleProcesses process_id =>
      run_multiple_processes exp instances_ids process_id
  end.

Definition dispatch (s : scheduler) (exp : Experiment)
    (instance_id_1 instance_id_2 : string) : M pyresult :=
  match s with
  | SingleProcess safe_mode =>
      single_process_dispatch exp safe_mode instance_id_1 instance_id_2
  | MultipleProcesses _ =>
      multiple_processes_dispatch exp instance_id_1 instance_id_2
  end.

Definition step (s : scheduler) (exp : Experiment) (pair : string * string)
  : M unit :=
  match s with
  | SingleProcess safe_mode => single_process_step exp safe_mode pair
  | MultipleProcesses _ => multiple_processes_step exp pair
  end.

Definition loop (s : scheduler) (exp : Experiment)
    (instances_ids : list (string * string)) : M unit :=
  for_each (step s exp) instances_ids.

Definition copies (s : scheduler) : bool :=
  match s with
  | SingleProcess safe_mode => safe_mode
  | MultipleProcesses _ => true
  end.

(** The registry of a family. *)
Definition registry_of (family : Family) (w : World) : gmap string Metric :=
  match family with
  | Approval => registered_approval_distances w
  | Ordinal => registered_ordinal_distances w
  end.

(** The two ways in which [get_distance] gives up on a pair of elections of
    classes [type_1] and [type_2]: the classes are not both the class of one
    family, or they are and the main distance of the identifier is not a key
    of the registry of that family. *)
Definition family_mismatch (type_1 type_2 : PyClass) : Prop :=
  ¬ (type_1 = ApprovalElection ∧ type_2 = ApprovalElection)
  ∧ ¬ (type_1 = OrdinalElection ∧ type_2 = OrdinalElection).

Definition unknown_distance (w : World) (distance_id : option string)
    (type_1 type_2 : PyClass) : Prop :=
  ∃ family inner_distance main_distance,
    type_1 = family_class family ∧ type_2 = family_class family
    ∧ _extract_distance_id distance_id = Ok (inner_distance, main_distance)
    ∧ registry_of family w !! main_distance = None.

(** A metric that leaves the store as it is. *)
Definition reads_only (function : Metric) : Prop :=
  ∀ election_1 election_2 arg h, (function election_1 election_2 arg h).2 = h.

(** A metric whose outcome is decided by the content of its two arguments:
    not by which objects they are, nor by the rest of the store. *)
Definition content_determined (function : Metric) : Prop :=
  ∀ election_1 election_2 election_1' election_2' arg h h',
    h !! election_1 = h' !! election_1' →
    h !! election_2 = h' !! election_2' →
    (function election_1 election_2 arg h).1
    = (function election_1' election_2' arg h').1.

(** The instances of the experiment are objects of the store. *)
Definition instances_stored (exp : Experiment) (w : World) : Prop :=
  ∀ id x, instances exp !! id = Some x → is_Some (heap w !! x).

(** [w] has the registries of [w0] and, unchanged, the objects of [w0]. *)
Definition extends (w0 w : World) : Prop :=
  registered_approval_distances w = registered_approval_distances w0
  ∧ registered_ordinal_distances w = registered_ordinal_distances w0
  ∧ ∀ x o, heap w0 !! x = Some o → heap w !! x = Some o.

(** Two worlds with the same distances, the same matchings and the same
    rows of times. *)
Definition same_results (w1 w2 : World) : Prop :=
  distances w1 = distances w2
  ∧ matchings w1 = matchings w2
  ∧ ∀ i, is_Some (times w1 !! i) ↔ is_Some (times w2 !! i).

(** The registered metrics cannot change the stored instances under a
    scheduler: it hands them copies and they write through their arguments
    only, or they do not write at all. *)
Definition isolated (s : scheduler) (w : World) : Prop :=
  ∀ function, registered w function →
    if copies s then mutates_arguments_only function
    else reads_only function.

(** Two pairs that address the same two cells of a matrix. *)
Definition same_cells (p q : string * string) : Prop :=
  q = p ∨ q = (p.2, p.1).

(** A pair list no two pairs of which address the same cells. *)
Fixpoint distinct_cells (l : list (string * string)) : Prop :=
  match l with
  | [] => True
  | p :: l' => Forall (λ q, ¬ same_cells p q) l' ∧ distinct_cells l'
  end.

(** The cell [(a, b)] is one of the two cells of the pair. *)
Definition hits (p : string * string) (a b : string) : Prop :=
  (a = p.1 ∧ b = p.2) ∨ (a = p.2 ∧ b = p.1).

(** The rows that [store_result] needs for a pair and a result. *)
Definition rows_there (p : string * string) (distance : pyresult) (w : World)
  : Prop :=
  (is_Some (distances w !! p.1) ∧ is_Some (distances w !! p.2))
  ∧ (is_Some (times w !! p.1) ∧ is_Some (times w !! p.2))
  ∧ match distance with
    | RTuple _ _ =>
        is_Some (matchings w !! p.1) ∧ is_Some (matchings w !! p.2)
    | _ => True
    end.

(** The cell [(a, b)] of the matchings once [store_result] is done with a
    pair and a result, from what it was. *)
Definition matching_cell (p : string * string) (distance : pyresult)
    (a b : string) (old : option (list Z)) : option (list Z) :=
  match distance with
  | RTuple _ matching =>
      if decide (a = p.2 ∧ b = p.1) then Some (argsort matching)
      else if decide (a = p.1 ∧ b = p.2) then Some matching
      else old
  | _ => old
  end.

(** What [store_result] has done to the matrices of [w] when it is done
    with a pair and a result: no row has appeared or disappeared, the two
    cells of the pair hold the distance, and the matching if there is
    one. *)
Definition written (p : string * string) (distance : pyresult) (w w' : World)
  : Prop :=
  (∀ k, is_Some (distances w' !! k) ↔ is_Some (distances w !! k))
  ∧ (∀ k, is_Some (matchings w' !! k) ↔ is_Some (matchings w !! k))
  ∧ (∀ k, is_Some (times w' !! k) ↔ is_Some (times w !! k))
  ∧ (∀ a b, cell (distances w') a b
            = if decide (hits p a b) then Some (distance_of distance)
              else cell (distances w) a b)
  ∧ (∀ a b, cell (matchings w') a b
            = matching_cell p distance a b (cell (matchings w) a b)).

(** ** The merge of the workers' matrices *)

(** Modelled from the spec: the merge of the workers' matrices, which is not
    part of this module, is a sequential copy after all the workers are
    done.  One cell is copied from the matrix of a worker into the matrix
    of the caller; a cell that the worker does not have is not copied. *)
Definition copy_cell {V} (source : gmap string (gmap string V))
    (i j : string) (target : gmap string (gmap string V))
  : gmap string (gmap string V) :=
  match cell source i j, target !! i with
  | Some v, Some row => <[i := <[j := v]> row]> target
  | _, _ => target
  end.

(** Modelled from the spec: the two cells of every pair of a worker's
    partition are copied, pair after pair. *)
Definition copy_pairs {V} (source : gmap string (gmap string V))
    (instances_ids : list (string * string))
    (target : gmap string (gmap string V)) : gmap string (gmap string V) :=
  foldl (λ target pair,
           copy_cell source pair.2 pair.1
             (copy_cell source pair.1 pair.2 target))
    target instances_ids.

(** Modelled from the spec: the matrix of the caller after the merge, worker
    after worker; [get] is the matrix that is merged, [target] the matrix of
    the caller as it was when the workers were started. *)
Definition merge_workers {V} (get : World → gmap string (gmap string V))
    (partitions : list (list (string * string)))
    (workers : list (res unit * World))
    (target : gmap string (gmap string V)) : gmap string (gmap string V) :=
  foldl (λ target job, copy_pairs (get job.2.2) job.1 target)
    target (zip partitions workers).

(** ** Vocabulary of the further statements *)

(** A matrix on the way from [before] to [after]: it has the rows of
    [after], and in every cell what [after] has there or what [before]
    has. *)
Definition between {V} (before after d : gmap string (gmap string V)) : Prop :=
  (∀ k, is_Some (d !! k) ↔ is_Some (after !! k))
  ∧ ∀ a b, cell d a b = cell after a b ∨ cell d a b = cell before a b.

(** The worker has, in the two cells of the pair, what [after] has. *)
Definition copied_right {V} (source after : gmap string (gmap string V))
    (pair : string * string) : Prop :=
  cell source pair.1 pair.2 = cell after pair.1 pair.2
  ∧ cell source pair.2 pair.1 = cell after pair.2 pair.1.

(** The dispatcher and the registration function of a family, the third
    argument that a dispatcher hands to the metric, and the record of the
    call it makes. *)
Definition get_family_distance (family : Family)
  : loc → loc → option string → kwargs → M pyresult :=
  match family with
  | Approval => get_approval_distance
  | Ordinal => get_ordinal_distance
  end.

Definition add_family_distance (family : Family) : string → Metric → M unit :=
  match family with
  | Approval => add_approval_distance
  | Ordinal => add_ordinal_distance
  end.

Definition metric_argument (inner_distance : option inner_fn) (kw : kwargs)
  : metric_arg :=
  match inner_distance with
  | Some inner_distance => Positional inner_distance
  | None => Keywords kw
  end.

Definition call_of (family : Family) (name : string)
    (election_1 election_2 : loc) (w : World) : call_event :=
  {| ev_family := family; ev_name := name;
     ev_args := (election_1, election_2);
     ev_types := (ob_type <$> heap w !! election_1,
                  ob_type <$> heap w !! election_2) |}.

(** A component of the world that is none of the store, the warnings and
    the record of calls: the clock may be one. *)
Definition beside_metrics {X} (proj : World → X) : Prop :=
  (∀ h w, proj (set_heap h w) = proj w)
  ∧ (∀ msg w, proj (add_warning msg w) = proj w)
  ∧ (∀ ev w, proj (add_call ev w) = proj w).

(** The pair is one of the list, and the call was made on the two stored
    instances that the pair names. *)
Definition on_stored_instances (exp : Experiment)
    (instances_ids : list (string * string)) (ev : call_event) : Prop :=
  ∃ instance_id_1 instance_id_2,
    (instance_id_1, instance_id_2) ∈ instances_ids
    ∧ instances exp !! instance_id_1 = Some (ev_args ev).1
    ∧ instances exp !! instance_id_2 = Some (ev_args ev).2.

End Model.

(** * A small experiment

    Five instances: one approval election, three ordinal elections and an
    instance of a subclass of [OrdinalElection]; a metric that only reads
    its arguments and returns a matching, and a metric that counts its uses
    in its first argument, as a cache would, and returns the count. *)

Definition demo : Collaborators :=
  {| scalar := Z; fsub := Z.sub; payload := Z; inner_fn := string;
     kwargs := list (string * Z); no_kwargs := [];
     map_str_to_func := λ name,
       Ok (if bool_decide (name ∈ ["l1"; "l2"; "emd"]) then Some name
           else None) |}.

Section Demo.
#[local] Existing Instance demo.

Definition election (c : PyClass) (n : Z) : Election :=
  {| ob_type := c; ob_data := n |}.

Definition reading_metric : Metric := λ election_1 election_2 _ h,
  match h !! election_1, h !! election_2 with
  | Some o1, Some o2 =>
      (Ok (RTuple (ob_data o1 - ob_data o2)%Z [2; 0; 1]%Z), h)
  | _, _ => (Raise (SystemError "dangling reference"), h)
  end.

Definition counting_metric : Metric := λ election_1 election_2 _ h,
  match h !! election_1 with
  | Some o1 =>
      (Ok (RScalar (ob_data o1)),
       <[election_1 := election (ob_type o1) (ob_data o1 + 1)%Z]> h)
  | None => (Raise (SystemError "dangling reference"), h)
  end.

Definition empty_rows {V} : gmap string (gmap string V) :=
  <["a" := ∅]> (<["b" := ∅]> (<["c" := ∅]> (<["d" := ∅]> (<["e" := ∅]> ∅)))).

Definition demo_world : World :=
  {| heap :=
       <[1%positive := election ApprovalElection 10]>
       (<[2%positive := election OrdinalElection 20]>
       (<[3%positive := election OrdinalElection 30]>
       (<[4%positive :=
            election (Subclass "CulturalElection" OrdinalElection) 40]>
       (<[5%positive := election OrdinalElection 50]> ∅))));
     registered_approval_distances := <["hamming" := reading_metric]> ∅;
     registered_ordinal_distances :=
       <["swap" := reading_metric]> (<["counting" := counting_metric]> ∅);
     distances := empty_rows; times := empty_rows; matchings := empty_rows;
     warnings := []; calls := []; clock := λ n, Z.of_nat n; ticks := 0;
     exported := [] |}.

Definition demo_instances : gmap string loc :=
  <["a" := 1%positive]> (<["b" := 2%positive]> (<["c" := 3%positive]>
  (<["d" := 4%positive]> (<["e" := 5%positive]> ∅)))).

Definition exp_swap : Experiment :=
  {| instances := demo_instances; distance_id := Some "swap";
     is_exported := true |}.

Definition exp_counting : Experiment :=
  {| instances := demo_instances; distance_id := Some "counting";
     is_exported := false |}.

(** The same world with the reading metric alone. *)
Definition reading_world : World :=
  set_registered_ordinal_distances (<["swap" := reading_metric]> ∅) demo_world.

(** A metric that keeps a tally of its uses in an object that is none of its
    arguments, as a module-level cache or a random state would, and returns
    the tally. *)
Definition tallying_metric : Metric := λ _ _ _ h,
  match h !! 5%positive with
  | Some o =>
      (Ok (RScalar (ob_data o)),
       <[5%positive := election (ob_type o) (ob_data o + 1)%Z]> h)
  | None => (Raise (SystemError "dangling reference"), h)
  end.

Definition tallying_world : World :=
  set_registered_ordinal_distances (<["tally" := tallying_metric]> ∅)
    demo_world.

Definition exp_tally : Experiment :=
  {| instances := demo_instances; distance_id := Some "tally";
     is_exported := false |}.

(** The experiment of the reading metric, without export. *)
Definition exp_reading : Experiment :=
  {| instances := demo_instances; distance_id := Some "swap";
     is_exported := false |}.

End Demo.

(** * Properties *)

(** ** Strings *)

Lemma str_split_length sep s :
  length (str_split sep s) = S (str_count sep s).
Proof.
  induction s as [|c s IH]; simpl; [done|].
  destruct (Ascii.eqb c sep); simpl; [by rewrite IH|].
  destruct (str_split sep s) as [|part parts] eqn:E; simpl in *; lia.
Qed.

Lemma str_contains_count sep s :
  str_contains sep s = bool_decide (0 < str_count sep s).
Proof.
  induction s as [|c s IH]; simpl; [done|].
  by destruct (Ascii.eqb c sep).
Qed.

Lemma str_split_no_sep sep s : str_count sep s = 0 → str_split sep s = [s].
Proof.
  induction s as [|c s IH]; simpl; [done|].
  destruct (Ascii.eqb c sep); simpl; [lia|].
  intros E. by rewrite IH.
Qed.

Lemma str_split_partition sep s :
  0 < str_count sep s →
  str_split sep s = str_before sep s :: str_split sep (str_after sep s).
Proof.
  induction s as [|c s IH]; simpl; [lia|].
  destruct (Ascii.eqb c sep); simpl; [done|].
  intros Hc. by rewrite IH.
Qed.

Lemma str_count_partition sep s :
  0 < str_count sep s →
  str_count sep s = S (str_count sep (str_after sep s)).
Proof.
  induction s as [|c s IH]; simpl; [lia|].
  destruct (Ascii.eqb c sep); simpl; [done|]. exact IH.
Qed.

(** ** The identifier parser *)

Section ParserFacts.
Context `{Collaborators}.

(** C7. [_extract_distance_id] is decided by the number of separators of the
    identifier: with none, the inner distance is [None] and the main distance
    is the identifier unchanged; with one, the main distance is what follows
    the separator and the inner distance is what [map_str_to_func] makes of
    what precedes it; with two or more, the unpacking of the split raises
    [ValueError].  So ["swap"] gives [(None, "swap")], ["l1-positionwise"]
    gives ["positionwise"] with the inner distance resolved from ["l1"], and
    ["a-b-c"] fails. *)
Theorem extract_distance_id_by_separators :
  (∀ s : string,
     _extract_distance_id (Some s) =
     match str_count "-" s with
     | 0 => Ok (None, s)
     | 1 => inner_distance ← map_str_to_func (str_before "-" s);
            Ok (inner_distance, str_after "-" s)
     | _ => Raise (ValueError "too many values to unpack (expected 2)")
     end)
  ∧ _extract_distance_id (Some "swap") = Ok (None, "swap")
  ∧ _extract_distance_id (Some "l1-positionwise") =
      (inner_distance ← map_str_to_func "l1";
       Ok (inner_distance, "positionwise"))
  ∧ _extract_distance_id (Some "a-b-c") =
      Raise (ValueError "too many values to unpack (expected 2)").
Proof.
  split; [|by repeat split].
  intros s. unfold _extract_distance_id.
  rewrite str_contains_count.
  destruct (str_count "-" s) as [|[|n]] eqn:Hn.
  - by rewrite bool_decide_eq_false_2 by lia.
  - rewrite bool_decide_eq_true_2 by lia.
    rewrite str_split_partition by lia.
    rewrite (str_split_no_sep _ (str_after "-" s)); [done|].
    pose proof (str_count_partition "-" s). lia.
  - rewrite bool_decide_eq_true_2 by lia.
    pose proof (str_split_length "-" s) as Hlen. rewrite Hn in Hlen.
    by destruct (str_split "-" s) as [|a [|b [|c parts]]].
Qed.

End ParserFacts.

(** ** Statements and their outcomes *)

Section Statements.
Context `{Collaborators}.

Lemma bind_unfold {A B} (m : M A) (f : A → M B) w :
  (m ≫= f) w =
  match m w with
  | (Ok a, w') => f a w'
  | (Raise e, w') => (Raise e, w')
  end.
Proof. reflexivity. Qed.

Lemma bind_ok {A B} (m : M A) (f : A → M B) w a w' :
  m w = (Ok a, w') → (m ≫= f) w = f a w'.
Proof. intros E. by rewrite bind_unfold, E. Qed.

Lemma bind_ok_inv {A B} (m : M A) (f : A → M B) w b w' :
  (m ≫= f) w = (Ok b, w') → ∃ a w1, m w = (Ok a, w1) ∧ f a w1 = (Ok b, w').
Proof.
  rewrite bind_unfold. destruct (m w) as [[a|e] w1]; [eauto|done].
Qed.

Lemma for_each_app {A} (body : A → M unit) l1 l2 w :
  for_each body (l1 ++ l2) w =
  match for_each body l1 w with
  | (Ok _, w') => for_each body l2 w'
  | (Raise e, w') => (Raise e, w')
  end.
Proof.
  revert w. induction l1 as [|x l1 IH]; intros w; simpl; [done|].
  rewrite !bind_unfold. destruct (body x w) as [[[]|e] w1]; [apply IH|done].
Qed.

Lemma for_each_ext {A} (body1 body2 : A → M unit) l w :
  (∀ x w, body1 x w = body2 x w) → for_each body1 l w = for_each body2 l w.
Proof.
  intros Hb. revert w. induction l as [|x l IH]; intros w; simpl; [done|].
  rewrite !bind_unfold, Hb. by destruct (body2 x w) as [[[]|e] w1].
Qed.

Lemma py_type_run x o w :
  heap w !! x = Some o → py_type x w = (Ok (ob_type o), w).
Proof. intros E. unfold py_type. by rewrite E. Qed.

End Statements.

(** ** The dispatchers *)

Section Dispatchers.
Context `{Collaborators}.

(** A registration inserts or overwrites the name, in its own registry. *)
Lemma add_approval_distance_registers name function w :
  let w' := (add_approval_distance name function w).2 in
  registered_approval_distances w' !! name = Some function
  ∧ (∀ other, other ≠ name →
       registered_approval_distances w' !! other
       = registered_approval_distances w !! other)
  ∧ registered_ordinal_distances w' = registered_ordinal_distances w.
Proof.
  simpl. split; [apply lookup_insert_eq|]. split; [|done].
  intros other Hne. by apply lookup_insert_ne.
Qed.

Lemma add_ordinal_distance_registers name function w :
  let w' := (add_ordinal_distance name function w).2 in
  registered_ordinal_distances w' !! name = Some function
  ∧ (∀ other, other ≠ name →
       registered_ordinal_distances w' !! other
       = registered_ordinal_distances w !! other)
  ∧ registered_approval_distances w' = registered_approval_distances w.
Proof.
  simpl. split; [apply lookup_insert_eq|]. split; [|done].
  intros other Hne. by apply lookup_insert_ne.
Qed.

Lemma get_distance_else w election_1 election_2 o1 o2 distance_id :
  heap w !! election_1 = Some o1 → heap w !! election_2 = Some o2 →
  ¬ (ob_type o1 = ApprovalElection ∧ ob_type o2 = ApprovalElection) →
  ¬ (ob_type o1 = OrdinalElection ∧ ob_type o2 = OrdinalElection) →
  get_distance election_1 election_2 distance_id w
  = (Ok RNone, add_warning "No such instance!" w).
Proof.
  intros H1 H2 Ha Ho. unfold get_distance.
  rewrite (bind_ok _ _ _ _ _ (py_type_run _ _ _ H1)).
  rewrite (bind_ok _ _ _ _ _ (py_type_run _ _ _ H2)).
  rewrite <- !bool_decide_and.
  by rewrite !bool_decide_eq_false_2.
Qed.

Lemma get_distance_approval w election_1 election_2 o1 o2 distance_id :
  heap w !! election_1 = Some o1 → heap w !! election_2 = Some o2 →
  ob_type o1 = ApprovalElection → ob_type o2 = ApprovalElection →
  get_distance election_1 election_2 distance_id w
  = get_approval_distance election_1 election_2 distance_id no_kwargs w.
Proof.
  intros H1 H2 E1 E2. unfold get_distance.
  rewrite (bind_ok _ _ _ _ _ (py_type_run _ _ _ H1)).
  rewrite (bind_ok _ _ _ _ _ (py_type_run _ _ _ H2)).
  by rewrite E1, E2.
Qed.

Lemma get_distance_ordinal w election_1 election_2 o1 o2 distance_id :
  heap w !! election_1 = Some o1 → heap w !! election_2 = Some o2 →
  ob_type o1 = OrdinalElection → ob_type o2 = OrdinalElection →
  get_distance election_1 election_2 distance_id w
  = get_ordinal_distance election_1 election_2 distance_id no_kwargs w.
Proof.
  intros H1 H2 E1 E2. unfold get_distance.
  rewrite (bind_ok _ _ _ _ _ (py_type_run _ _ _ H1)).
  rewrite (bind_ok _ _ _ _ _ (py_type_run _ _ _ H2)).
  by rewrite E1, E2.
Qed.

Lemma call_metric_calls family name function election_1 election_2 arg w :
  one_call_at_most family election_1 election_2 w
    (call_metric family name function election_1 election_2 arg w).2.
Proof.
  right. exists name. unfold call_metric.
  by destruct (function election_1 election_2 arg (heap w)).
Qed.

Lemma get_approval_distance_calls election_1 election_2 distance_id kw w :
  one_call_at_most Approval election_1 election_2 w
    (get_approval_distance election_1 election_2 distance_id kw w).2.
Proof.
  unfold get_approval_distance. rewrite bind_unfold. unfold lift.
  destruct (_extract_distance_id distance_id) as [[inner main]|e];
    [|by left].
  rewrite bind_unfold. unfold gets.
  destruct (registered_approval_distances w !! main) as [function|];
    [|by left].
  destruct inner; apply call_metric_calls.
Qed.

Lemma get_ordinal_distance_calls election_1 election_2 distance_id kw w :
  one_call_at_most Ordinal election_1 election_2 w
    (get_ordinal_distance election_1 election_2 distance_id kw w).2.
Proof.
  unfold get_ordinal_distance. rewrite bind_unfold. unfold lift.
  destruct (_extract_distance_id distance_id) as [[inner main]|e];
    [|by left].
  rewrite bind_unfold. unfold gets.
  destruct (registered_ordinal_distances w !! main) as [function|];
    [|by left].
  destruct inner; apply call_metric_calls.
Qed.

(** C4. When the classes of the two elections differ, as for one
    [ApprovalElection] and one [OrdinalElection], [get_distance] invokes no
    metric: it logs ['No such instance!'], returns [None] and changes nothing
    else.  In general every call that [get_distance] adds to the record of
    calls is a call of a metric of one family with two elections whose class
    is that family's class. *)
Theorem get_distance_same_family_only w election_1 election_2 o1 o2 distance_id :
  heap w !! election_1 = Some o1 →
  heap w !! election_2 = Some o2 →
  (ob_type o1 ≠ ob_type o2 →
   get_distance election_1 election_2 distance_id w
   = (Ok RNone, add_warning "No such instance!" w))
  ∧ (∃ new,
       calls (get_distance election_1 election_2 distance_id w).2
       = (calls w ++ new)%list
       ∧ ∀ ev, ev ∈ new →
           ev_args ev = (election_1, election_2)
           ∧ ob_type o1 = family_class (ev_family ev)
           ∧ ob_type o2 = family_class (ev_family ev)
           ∧ ev_types ev = (Some (ob_type o1), Some (ob_type o2))).
Proof.
  intros H1 H2. split.
  - intros Hne. eapply get_distance_else; eauto; intros [E1 E2]; congruence.
  - destruct (decide (ob_type o1 = ApprovalElection
                      ∧ ob_type o2 = ApprovalElection)) as [[E1 E2]|Ha].
    { rewrite (get_distance_approval _ _ _ _ _ _ H1 H2 E1 E2).
      destruct (get_approval_distance_calls election_1 election_2
                  distance_id no_kwargs w) as [->|[name ->]].
      - exists []. rewrite app_nil_r. split; [done|]. by intros ev ?%elem_of_nil.
      - eexists [_]. split; [done|]. intros ev ->%list_elem_of_singleton.
        rewrite H1, H2. simpl. by rewrite E1, E2. }
    destruct (decide (ob_type o1 = OrdinalElection
                      ∧ ob_type o2 = OrdinalElection)) as [[E1 E2]|Ho].
    { rewrite (get_distance_ordinal _ _ _ _ _ _ H1 H2 E1 E2).
      destruct (get_ordinal_distance_calls election_1 election_2
                  distance_id no_kwargs w) as [->|[name ->]].
      - exists []. rewrite app_nil_r. split; [done|]. by intros ev ?%elem_of_nil.
      - eexists [_]. split; [done|]. intros ev ->%list_elem_of_singleton.
        rewrite H1, H2. simpl. by rewrite E1, E2. }
    rewrite (get_distance_else _ _ _ _ _ _ H1 H2 Ha Ho). simpl.
    exists []. rewrite app_nil_r. split; [done|]. by intros ev ?%elem_of_nil.
Qed.

Lemma get_approval_distance_unknown w election_1 election_2 distance_id kw
    inner_distance main_distance :
  _extract_distance_id distance_id = Ok (inner_distance, main_distance) →
  registered_approval_distances w !! main_distance = None →
  get_approval_distance election_1 election_2 distance_id kw w
  = (Ok RNone, add_warning ("No such distance as: " ++ main_distance ++ "!") w).
Proof.
  intros Hparse Hreg. unfold get_approval_distance, lift, gets.
  rewrite bind_unfold, Hparse, bind_unfold. simpl. by rewrite Hreg.
Qed.

Lemma get_ordinal_distance_unknown w election_1 election_2 distance_id kw
    inner_distance main_distance :
  _extract_distance_id distance_id = Ok (inner_distance, main_distance) →
  registered_ordinal_distances w !! main_distance = None →
  get_ordinal_distance election_1 election_2 distance_id kw w
  = (Ok RNone, add_warning ("No such distance as: " ++ main_distance ++ "!") w).
Proof.
  intros Hparse Hreg. unfold get_ordinal_distance, lift, gets.
  rewrite bind_unfold, Hparse, bind_unfold. simpl. by rewrite Hreg.
Qed.

(** C5. When the main distance that [_extract_distance_id] returns is not a
    key of the registry, [get_approval_distance] and [get_ordinal_distance]
    invoke no metric and use no other metric in its place: they log
    ['No such distance as: ...!'], return [None] and change nothing else. *)
Theorem unknown_distance_is_reported w election_1 election_2 distance_id kw
    inner_distance main_distance :
  _extract_distance_id distance_id = Ok (inner_distance, main_distance) →
  (registered_approval_distances w !! main_distance = None →
   get_approval_distance election_1 election_2 distance_id kw w
   = (Ok RNone,
      add_warning ("No such distance as: " ++ main_distance ++ "!") w))
  ∧ (registered_ordinal_distances w !! main_distance = None →
     get_ordinal_distance election_1 election_2 distance_id kw w
     = (Ok RNone,
        add_warning ("No such distance as: " ++ main_distance ++ "!") w)).
Proof.
  intros Hparse. split; intros Hreg.
  - by eapply get_approval_distance_unknown.
  - by eapply get_ordinal_distance_unknown.
Qed.

(** C9. With the default [distance_id = None] the membership test of
    [_extract_distance_id] raises [TypeError]: [get_approval_distance] and
    [get_ordinal_distance] raise it for any two elections, and [get_distance]
    raises it for any two elections of the class of one family, instead of
    returning a result. *)
Theorem default_distance_id_raises w election_1 election_2 o1 o2 family kw :
  heap w !! election_1 = Some o1 →
  heap w !! election_2 = Some o2 →
  ob_type o1 = family_class family →
  ob_type o2 = family_class family →
  let error := TypeError "argument of type 'NoneType' is not iterable" in
  _extract_distance_id None = Raise error
  ∧ get_distance election_1 election_2 None w = (Raise error, w)
  ∧ get_approval_distance election_1 election_2 None kw w = (Raise error, w)
  ∧ get_ordinal_distance election_1 election_2 None kw w = (Raise error, w).
Proof.
  intros H1 H2 E1 E2 error. repeat split.
  destruct family.
  - by rewrite (get_distance_approval _ _ _ _ _ _ H1 H2 E1 E2).
  - by rewrite (get_distance_ordinal _ _ _ _ _ _ H1 H2 E1 E2).
Qed.

(** C10. [get_distance] compares classes by identity: when at least one of
    the two elections is an instance of a strict subclass of
    [ApprovalElection] or of [OrdinalElection], the pair is treated as a
    mismatch (['No such instance!'] is logged, [None] is returned, no metric
    is invoked), also when both elections belong to the same family by
    inheritance. *)
Theorem subclass_instances_are_rejected w election_1 election_2 o1 o2
    distance_id :
  heap w !! election_1 = Some o1 →
  heap w !! election_2 = Some o2 →
  strict_subclass (ob_type o1) ∨ strict_subclass (ob_type o2) →
  get_distance election_1 election_2 distance_id w
  = (Ok RNone, add_warning "No such instance!" w).
Proof.
  intros H1 H2 Hsub.
  eapply get_distance_else; eauto; intros [E1 E2];
    destruct Hsub as [Hs|Hs]; by rewrite ?E1, ?E2 in Hs.
Qed.

End Dispatchers.

(** ** What a statement leaves alone *)

Section Frames.
Context `{Collaborators}.

Lemma keeps_ret {A} I (a : A) : keeps I (mret a).
Proof. by intros w. Qed.

Lemma keeps_bind {A B} I (m : M A) (f : A → M B) :
  keeps I m → (∀ a, keeps I (f a)) → keeps I (m ≫= f).
Proof.
  intros Hm Hf w HI. rewrite bind_unfold. specialize (Hm w HI).
  destruct (m w) as [[a|e] w1]; simpl in *; [by apply Hf|done].
Qed.

Lemma keeps_for_each {A} I (body : A → M unit) l :
  (∀ x, keeps I (body x)) → keeps I (for_each body l).
Proof.
  intros Hb. induction l as [|x l IH]; simpl.
  - apply keeps_ret.
  - apply keeps_bind; [apply Hb|by intros _].
Qed.

Lemma unchanged_keeps {A X} (proj : World → X) (Q : X → Prop) (m : M A) :
  unchanged proj m → keeps (λ w, Q (proj w)) m.
Proof. intros Hm w HQ. by rewrite Hm. Qed.

Lemma unchanged_ret {A X} (proj : World → X) (a : A) : unchanged proj (mret a).
Proof. by intros w. Qed.

Lemma unchanged_bind {A B X} (proj : World → X) (m : M A) (f : A → M B) :
  unchanged proj m → (∀ a, unchanged proj (f a)) → unchanged proj (m ≫= f).
Proof.
  intros Hm Hf w. rewrite bind_unfold. specialize (Hm w).
  destruct (m w) as [[a|e] w1]; simpl in *; [by rewrite Hf|done].
Qed.

Lemma unchanged_for_each {A X} (proj : World → X) (body : A → M unit) l :
  (∀ x, unchanged proj (body x)) → unchanged proj (for_each body l).
Proof.
  intros Hb. induction l as [|x l IH]; simpl.
  - apply unchanged_ret.
  - apply unchanged_bind; [apply Hb|by intros _].
Qed.

Lemma unchanged_lift {A X} (proj : World → X) (r : res A) :
  unchanged proj (lift r).
Proof. by intros w. Qed.

Lemma unchanged_gets {A X} (proj : World → X) (f : World → A) :
  unchanged proj (gets f).
Proof. by intros w. Qed.

Lemma unchanged_load2 {V X} (proj : World → X)
    (get : World → gmap string (gmap string V)) i j :
  unchanged proj (load2 get i j).
Proof. by intros w. Qed.

Lemma unchanged_store2 {V X} (proj : World → X)
    (get : World → gmap string (gmap string V)) set i j v :
  (∀ d w, proj (set d w) = proj w) → unchanged proj (store2 get set i j v).
Proof.
  intros Hset w. unfold store2.
  destruct (setitem2 (get w) i j v); simpl; [apply Hset|done].
Qed.

Lemma unchanged_store_mirrored {V X} (proj : World → X)
    (get : World → gmap string (gmap string V)) set i j v :
  (∀ d w, proj (set d w) = proj w) →
  unchanged proj (store_mirrored get set i j v).
Proof.
  intros Hset. unfold store_mirrored.
  apply unchanged_bind; [by apply unchanged_store2|intros _].
  apply unchanged_bind; [apply unchanged_load2|intros mirrored].
  by apply unchanged_store2.
Qed.

Lemma unchanged_py_time {X} (proj : World → X) :
  beside_dispatch proj → unchanged proj py_time.
Proof. intros (_ & _ & _ & Ht) w. apply Ht. Qed.

Lemma unchanged_logging_warning {X} (proj : World → X) msg :
  beside_dispatch proj → unchanged proj (logging_warning msg).
Proof. intros (_ & Hw & _) w. apply Hw. Qed.

Lemma unchanged_py_type {X} (proj : World → X) x : unchanged proj (py_type x).
Proof. intros w. unfold py_type. by destruct (heap w !! x). Qed.

Lemma unchanged_deepcopy {X} (proj : World → X) x :
  beside_dispatch proj → unchanged proj (deepcopy x).
Proof.
  intros (Hh & _) w. unfold deepcopy.
  destruct (heap w !! x); simpl; [apply Hh|done].
Qed.

Lemma unchanged_call_metric {X} (proj : World → X) family name function
    election_1 election_2 arg :
  beside_dispatch proj →
  unchanged proj (call_metric family name function election_1 election_2 arg).
Proof.
  intros (Hh & _ & Hc & _) w. unfold call_metric.
  destruct (function election_1 election_2 arg (heap w)) as [r h]. simpl.
  by rewrite Hh, Hc.
Qed.

Lemma unchanged_get_approval_distance {X} (proj : World → X)
    election_1 election_2 distance_id kw :
  beside_dispatch proj →
  unchanged proj (get_approval_distance election_1 election_2 distance_id kw).
Proof.
  intros Hp. unfold get_approval_distance.
  apply unchanged_bind; [apply unchanged_lift|intros [inner main]].
  apply unchanged_bind; [apply unchanged_gets|intros registry].
  destruct (registry !! main) as [function|].
  - destruct inner; by apply unchanged_call_metric.
  - apply unchanged_bind; [by apply unchanged_logging_warning|intros _].
    apply unchanged_ret.
Qed.

Lemma unchanged_get_ordinal_distance {X} (proj : World → X)
    election_1 election_2 distance_id kw :
  beside_dispatch proj →
  unchanged proj (get_ordinal_distance election_1 election_2 distance_id kw).
Proof.
  intros Hp. unfold get_ordinal_distance.
  apply unchanged_bind; [apply unchanged_lift|intros [inner main]].
  apply unchanged_bind; [apply unchanged_gets|intros registry].
  destruct (registry !! main) as [function|].
  - destruct inner; by apply unchanged_call_metric.
  - apply unchanged_bind; [by apply unchanged_logging_warning|intros _].
    apply unchanged_ret.
Qed.

Lemma unchanged_get_distance {X} (proj : World → X)
    election_1 election_2 distance_id :
  beside_dispatch proj →
  unchanged proj (get_distance election_1 election_2 distance_id).
Proof.
  intros Hp. unfold get_distance.
  apply unchanged_bind; [apply unchanged_py_type|intros type_1].
  apply unchanged_bind; [apply unchanged_py_type|intros type_2].
  destruct (_ && _); [by apply unchanged_get_approval_distance|].
  destruct (_ && _); [by apply unchanged_get_ordinal_distance|].
  apply unchanged_bind; [by apply unchanged_logging_warning|intros _].
  apply unchanged_ret.
Qed.

Lemma unchanged_multiple_processes_dispatch {X} (proj : World → X)
    experiment instance_id_1 instance_id_2 :
  beside_dispatch proj →
  unchanged proj
    (multiple_processes_dispatch experiment instance_id_1 instance_id_2).
Proof.
  intros Hp. unfold multiple_processes_dispatch.
  apply unchanged_bind; [apply unchanged_lift|intros election_1].
  apply unchanged_bind; [by apply unchanged_deepcopy|intros copy_1].
  apply unchanged_bind; [apply unchanged_lift|intros election_2].
  apply unchanged_bind; [by apply unchanged_deepcopy|intros copy_2].
  apply unchanged_bind; [apply unchanged_ret|intros distance_id].
  by apply unchanged_get_distance.
Qed.

Lemma unchanged_single_process_dispatch {X} (proj : World → X)
    exp safe_mode instance_id_1 instance_id_2 :
  beside_dispatch proj →
  unchanged proj
    (single_process_dispatch exp safe_mode instance_id_1 instance_id_2).
Proof.
  intros Hp. destruct safe_mode.
  - by apply unchanged_multiple_processes_dispatch.
  - unfold single_process_dispatch.
    apply unchanged_bind; [apply unchanged_lift|intros election_1].
    apply unchanged_bind; [apply unchanged_lift|intros election_2].
    by apply unchanged_get_distance.
Qed.

Lemma beside_dispatch_distances : beside_dispatch distances.
Proof. by repeat split. Qed.

Lemma beside_dispatch_times : beside_dispatch times.
Proof. by repeat split. Qed.

Lemma beside_dispatch_matchings : beside_dispatch matchings.
Proof. by repeat split. Qed.

Lemma beside_dispatch_registries :
  beside_dispatch (λ w, (registered_approval_distances w,
                         registered_ordinal_distances w)).
Proof. by repeat split. Qed.

End Frames.

(** ** Cells of a matrix *)

Section Cells.
Context {V : Type}.
Implicit Types d : gmap string (gmap string V).

Lemma setitem2_ok d i j v d' :
  setitem2 d i j v = Ok d' ↔
  ∃ row, d !! i = Some row ∧ d' = <[i := <[j := v]> row]> d.
Proof.
  unfold setitem2, getitem. destruct (d !! i) as [row|]; simpl; naive_solver.
Qed.

Lemma setitem2_raise d i j v e :
  setitem2 d i j v = Raise e ↔ d !! i = None ∧ e = KeyError i.
Proof.
  unfold setitem2, getitem. destruct (d !! i) as [row|]; simpl; naive_solver.
Qed.

Lemma getitem2_cell d i j v : getitem2 d i j = Ok v ↔ cell d i j = Some v.
Proof.
  unfold getitem2, cell, getitem. destruct (d !! i) as [row|]; simpl; [|done].
  destruct (row !! j); naive_solver.
Qed.

Lemma cell_setitem2 d i j v d' a b :
  setitem2 d i j v = Ok d' →
  cell d' a b = if decide (a = i ∧ b = j) then Some v else cell d a b.
Proof.
  intros (row & Hrow & ->)%setitem2_ok. unfold cell.
  destruct (decide (a = i)) as [->|Hai].
  - rewrite lookup_insert_eq, Hrow. simpl.
    destruct (decide (b = j)) as [->|Hbj].
    + rewrite lookup_insert_eq. by rewrite decide_True.
    + rewrite lookup_insert_ne by done. rewrite decide_False; naive_solver.
  - rewrite lookup_insert_ne by done. rewrite decide_False; naive_solver.
Qed.

Lemma setitem2_rows d i j v d' a :
  setitem2 d i j v = Ok d' → is_Some (d' !! a) ↔ is_Some (d !! a).
Proof.
  intros (row & Hrow & ->)%setitem2_ok.
  destruct (decide (a = i)) as [->|Hai].
  - rewrite lookup_insert_eq, Hrow. by split; eauto.
  - by rewrite lookup_insert_ne.
Qed.

Lemma cell_is_Some_row d i j : is_Some (cell d i j) → is_Some (d !! i).
Proof. unfold cell. destruct (d !! i); [eauto|by intros [? ?]]. Qed.

End Cells.

(** ** Mirrored stores *)

Section Mirrored.
Context `{Collaborators} {V : Type}.
Variable get : World → gmap string (gmap string V).
Variable set : gmap string (gmap string V) → World → World.
Hypothesis get_set : ∀ d w, get (set d w) = d.

Lemma store_mirrored_unfold i j v w :
  store_mirrored get set i j v w =
  match setitem2 (get w) i j v with
  | Ok d1 =>
      match setitem2 d1 j i v with
      | Ok d2 => (Ok tt, set d2 (set d1 w))
      | Raise e => (Raise e, set d1 w)
      end
  | Raise e => (Raise e, w)
  end.
Proof.
  unfold store_mirrored. rewrite bind_unfold. unfold store2 at 1.
  destruct (setitem2 (get w) i j v) as [d1|e] eqn:E1; [|done].
  rewrite bind_unfold. unfold load2. rewrite get_set.
  assert (getitem2 d1 i j = Ok v) as ->.
  { apply getitem2_cell. rewrite (cell_setitem2 _ _ _ _ _ _ _ E1).
    by rewrite decide_True. }
  unfold store2. rewrite get_set.
  by destruct (setitem2 d1 j i v).
Qed.

(** The two cells of the pair hold the value once the stores are done. *)
Lemma store_mirrored_ok i j v w w' :
  store_mirrored get set i j v w = (Ok tt, w') →
  cell (get w') i j = Some v ∧ cell (get w') j i = Some v.
Proof.
  rewrite store_mirrored_unfold.
  destruct (setitem2 (get w) i j v) as [d1|e] eqn:E1; [|done].
  destruct (setitem2 d1 j i v) as [d2|e] eqn:E2; [|done].
  intros [= <-]. rewrite get_set.
  rewrite !(cell_setitem2 _ _ _ _ _ _ _ E2), (cell_setitem2 _ _ _ _ _ _ _ E1).
  split; [|by rewrite decide_True].
  destruct (decide (i = j ∧ j = i)); [done|]. by rewrite decide_True.
Qed.

(** The stores are done as soon as both rows are there. *)
Lemma store_mirrored_run i j v w :
  is_Some (get w !! i) → is_Some (get w !! j) →
  ∃ w', store_mirrored get set i j v w = (Ok tt, w').
Proof.
  intros [row Hi] Hj. rewrite store_mirrored_unfold.
  assert (setitem2 (get w) i j v = Ok (<[i := <[j := v]> row]> (get w)))
    as E1 by (apply setitem2_ok; eauto).
  rewrite E1. apply (setitem2_rows _ _ _ _ _ j) in E1 as Hrows.
  apply Hrows in Hj as [row' Hj].
  assert (setitem2 (<[i := <[j := v]> row]> (get w)) j i v
          = Ok (<[j := <[i := v]> row']> (<[i := <[j := v]> row]> (get w))))
    as -> by (apply setitem2_ok; eauto).
  eauto.
Qed.

(** No other cell changes, whatever the outcome. *)
Lemma store_mirrored_other i j v w a b :
  ¬ (a = i ∧ b = j) → ¬ (a = j ∧ b = i) →
  cell (get (store_mirrored get set i j v w).2) a b = cell (get w) a b.
Proof.
  intros Hij Hji. rewrite store_mirrored_unfold.
  destruct (setitem2 (get w) i j v) as [d1|e] eqn:E1; [|done].
  destruct (setitem2 d1 j i v) as [d2|e] eqn:E2; simpl; rewrite get_set.
  - rewrite (cell_setitem2 _ _ _ _ _ _ _ E2), (cell_setitem2 _ _ _ _ _ _ _ E1).
    by rewrite !decide_False.
  - rewrite (cell_setitem2 _ _ _ _ _ _ _ E1). by rewrite decide_False.
Qed.

(** No row appears or disappears, whatever the outcome. *)
Lemma store_mirrored_rows i j v w a :
  is_Some (get (store_mirrored get set i j v w).2 !! a)
  ↔ is_Some (get w !! a).
Proof.
  rewrite store_mirrored_unfold.
  destruct (setitem2 (get w) i j v) as [d1|e] eqn:E1; [|done].
  destruct (setitem2 d1 j i v) as [d2|e] eqn:E2; simpl; rewrite get_set.
  - by rewrite (setitem2_rows _ _ _ _ _ a E2), (setitem2_rows _ _ _ _ _ a E1).
  - by rewrite (setitem2_rows _ _ _ _ _ a E1).
Qed.

(** A pair of cells that is mirrored stays mirrored, whatever the
    outcome. *)
Lemma store_mirrored_keeps_mirrored i j v a b :
  keeps (λ w, mirrored_at (get w) a b) (store_mirrored get set i j v).
Proof.
  intros w (x & Hab & Hba).
  destruct (decide ((a = i ∧ b = j) ∨ (a = j ∧ b = i))) as [Hsame|Hother].
  - assert (is_Some (get w !! i) ∧ is_Some (get w !! j)) as [Hi Hj].
    { destruct Hsame as [[-> ->]|[-> ->]];
        split; eapply cell_is_Some_row; eauto. }
    destruct (store_mirrored_run i j v w Hi Hj) as [w' Hrun].
    rewrite Hrun. apply store_mirrored_ok in Hrun as [Hij Hji].
    exists v. destruct Hsame as [[-> ->]|[-> ->]]; eauto.
  - exists x. rewrite !store_mirrored_other; naive_solver.
Qed.

End Mirrored.

(** ** One pair *)

Section OnePair.
Context `{Collaborators}.

Lemma store2_cell {V} (get : World → gmap string (gmap string V)) set
    i j v w w' a b :
  (∀ d w, get (set d w) = d) →
  store2 get set i j v w = (Ok tt, w') →
  cell (get w') a b = if decide (a = i ∧ b = j) then Some v else cell (get w) a b.
Proof.
  intros get_set. unfold store2.
  destruct (setitem2 (get w) i j v) as [d1|e] eqn:E1; [|done].
  intros [= <-]. rewrite get_set. by apply cell_setitem2.
Qed.

Lemma store2_run {V} (get : World → gmap string (gmap string V)) set
    i j v w :
  is_Some (get w !! i) → ∃ w', store2 get set i j v w = (Ok tt, w').
Proof.
  intros [row Hi]. unfold store2.
  assert (setitem2 (get w) i j v = Ok (<[i := <[j := v]> row]> (get w)))
    as -> by (apply setitem2_ok; eauto).
  eauto.
Qed.

Lemma store2_rows {V} (get : World → gmap string (gmap string V)) set
    i j v w a :
  (∀ d w, get (set d w) = d) →
  is_Some (get (store2 get set i j v w).2 !! a) ↔ is_Some (get w !! a).
Proof.
  intros get_set. unfold store2.
  destruct (setitem2 (get w) i j v) as [d1|e] eqn:E1; [|done].
  simpl. rewrite get_set. by rewrite (setitem2_rows _ _ _ _ _ a E1).
Qed.

(** [store_result] in three steps: the matching if there is one, the
    distance, the time. *)
Lemma store_result_unfold instance_id_1 instance_id_2 start_time distance w :
  store_result instance_id_1 instance_id_2 start_time distance w =
  match
    match distance with
    | RTuple _ matching =>
        (store2 matchings set_matchings instance_id_1 instance_id_2 matching;;
         store2 matchings set_matchings instance_id_2 instance_id_1
           (argsort matching)) w
    | _ => (Ok tt, w)
    end
  with
  | (Ok _, w1) =>
      match store_mirrored distances set_distances instance_id_1 instance_id_2
              (distance_of distance) w1 with
      | (Ok _, w2) =>
          store_mirrored times set_times instance_id_1 instance_id_2
            (fsub (clock w2 (ticks w2)) start_time) (tick w2)
      | (Raise e, w2) => (Raise e, w2)
      end
  | (Raise e, w1) => (Raise e, w1)
  end.
Proof.
  unfold store_result. rewrite bind_unfold.
  destruct distance as [|x|x matching]; simpl.
  - rewrite bind_unfold.
    by destruct (store_mirrored distances set_distances _ _ PyNone w)
      as [[[]|e] w2].
  - rewrite bind_unfold.
    by destruct (store_mirrored distances set_distances _ _ (PyFloat x) w)
      as [[[]|e] w2].
  - unfold np_array. rewrite !bind_unfold.
    destruct (store2 matchings set_matchings instance_id_1 instance_id_2
                matching w) as [[[]|e] w0]; [|done].
    rewrite !bind_unfold.
    destruct (store2 matchings set_matchings instance_id_2 instance_id_1
                (argsort matching) w0) as [[[]|e] w1]; [|done].
    simpl. rewrite bind_unfold.
    by destruct (store_mirrored distances set_distances _ _ (PyFloat x) w1)
      as [[[]|e] w2].
Qed.

Lemma unchanged_store_matching {X} (proj : World → X)
    instance_id_1 instance_id_2 matching :
  (∀ d w, proj (set_matchings d w) = proj w) →
  unchanged proj
    (store2 matchings set_matchings instance_id_1 instance_id_2 matching;;
     store2 matchings set_matchings instance_id_2 instance_id_1
       (argsort matching)).
Proof.
  intros Hset.
  apply unchanged_bind; [by apply unchanged_store2|intros _].
  by apply unchanged_store2.
Qed.

Lemma store_result_keeps_mirrored_distances
    instance_id_1 instance_id_2 start_time distance a b :
  keeps (λ w, mirrored_at (distances w) a b)
    (store_result instance_id_1 instance_id_2 start_time distance).
Proof.
  intros w Hw. rewrite store_result_unfold.
  set (first := match distance with RTuple _ _ => _ | _ => _ end).
  assert (distances first.2 = distances w) as Hfirst.
  { subst first. destruct distance; try done.
    by apply unchanged_store_matching. }
  destruct first as [[[]|e] w1]; simpl in Hfirst |- *; [|by rewrite Hfirst].
  pose proof (store_mirrored_keeps_mirrored distances set_distances
                (λ _ _, eq_refl) instance_id_1 instance_id_2
                (distance_of distance) a b w1) as Hd.
  simpl in Hd. rewrite Hfirst in Hd. specialize (Hd Hw).
  destruct (store_mirrored distances set_distances _ _ _ w1)
    as [[[]|e] w2]; [|done].
  simpl in Hd.
  by rewrite (unchanged_store_mirrored distances times set_times _ _ _
                (λ _ _, eq_refl) (tick w2)).
Qed.

Lemma store_result_keeps_mirrored_times
    instance_id_1 instance_id_2 start_time distance a b :
  keeps (λ w, mirrored_at (times w) a b)
    (store_result instance_id_1 instance_id_2 start_time distance).
Proof.
  intros w Hw. rewrite store_result_unfold.
  set (first := match distance with RTuple _ _ => _ | _ => _ end).
  assert (times first.2 = times w) as Hfirst.
  { subst first. destruct distance; try done.
    by apply unchanged_store_matching. }
  destruct first as [[[]|e] w1]; simpl in Hfirst |- *; [|by rewrite Hfirst].
  pose proof (unchanged_store_mirrored times distances set_distances
                instance_id_1 instance_id_2 (distance_of distance)
                (λ _ _, eq_refl) w1) as Hd.
  destruct (store_mirrored distances set_distances _ _ _ w1)
    as [[[]|e] w2]; simpl in Hd |- *; [|by rewrite Hd, Hfirst].
  apply (store_mirrored_keeps_mirrored times set_times (λ _ _, eq_refl)).
  simpl. by rewrite Hd, Hfirst.
Qed.

(** Once [store_result] is done, the distance and the time of the pair are
    mirrored. *)
Lemma store_result_ok instance_id_1 instance_id_2 start_time distance w w' :
  store_result instance_id_1 instance_id_2 start_time distance w = (Ok tt, w') →
  (cell (distances w') instance_id_1 instance_id_2 = Some (distance_of distance)
   ∧ cell (distances w') instance_id_2 instance_id_1
     = Some (distance_of distance))
  ∧ mirrored_at (times w') instance_id_1 instance_id_2.
Proof.
  rewrite store_result_unfold.
  destruct (match distance with RTuple _ _ => _ | _ => _ end)
    as [[[]|e] w1]; [|done].
  destruct (store_mirrored distances set_distances _ _ _ w1)
    as [[[]|e] w2] eqn:Hd; [|done].
  intros Ht.
  pose proof (unchanged_store_mirrored distances times set_times
                instance_id_1 instance_id_2
                (fsub (clock w2 (ticks w2)) start_time)
                (λ _ _, eq_refl) (tick w2)) as Hsame.
  rewrite Ht in Hsame. simpl in Hsame. rewrite Hsame.
  split.
  - by apply (store_mirrored_ok distances set_distances (λ _ _, eq_refl)) in Hd.
  - apply (store_mirrored_ok times set_times (λ _ _, eq_refl)) in Ht
      as [Hij Hji]. by eexists.
Qed.

Lemma single_process_step_unfold exp safe_mode pair w :
  single_process_step exp safe_mode pair w =
  match single_process_dispatch exp safe_mode pair.1 pair.2 (tick w) with
  | (Ok distance, w1) =>
      store_result pair.1 pair.2 (clock w (ticks w)) distance w1
  | (Raise e, w1) => (Raise e, w1)
  end.
Proof. reflexivity. Qed.

Lemma single_process_step_keeps_mirrored_distances exp safe_mode pair a b :
  keeps (λ w, mirrored_at (distances w) a b)
    (single_process_step exp safe_mode pair).
Proof.
  unfold single_process_step.
  apply keeps_bind; [|intros start_time; apply keeps_bind].
  - apply (unchanged_keeps distances (λ d, mirrored_at d a b)),
      unchanged_py_time, beside_dispatch_distances.
  - apply (unchanged_keeps distances (λ d, mirrored_at d a b)),
      unchanged_single_process_dispatch, beside_dispatch_distances.
  - intros distance. apply store_result_keeps_mirrored_distances.
Qed.

Lemma single_process_step_keeps_mirrored_times exp safe_mode pair a b :
  keeps (λ w, mirrored_at (times w) a b)
    (single_process_step exp safe_mode pair).
Proof.
  unfold single_process_step.
  apply keeps_bind; [|intros start_time; apply keeps_bind].
  - apply (unchanged_keeps times (λ d, mirrored_at d a b)),
      unchanged_py_time, beside_dispatch_times.
  - apply (unchanged_keeps times (λ d, mirrored_at d a b)),
      unchanged_single_process_dispatch, beside_dispatch_times.
  - intros distance. apply store_result_keeps_mirrored_times.
Qed.

Lemma single_process_step_ok exp safe_mode pair w w' :
  single_process_step exp safe_mode pair w = (Ok tt, w') →
  mirrored_at (distances w') pair.1 pair.2
  ∧ mirrored_at (times w') pair.1 pair.2.
Proof.
  rewrite single_process_step_unfold.
  destruct (single_process_dispatch _ _ _ _ _) as [[distance|e] w1]; [|done].
  intros [[Hij Hji] Ht]%store_result_ok. split; [by eexists|done].
Qed.

End OnePair.

(** ** A whole run *)

Section Runs.
Context `{Collaborators}.

Lemma run_multiple_processes_unfold experiment instances_ids process_id w :
  run_multiple_processes experiment instances_ids process_id w =
  match run_single_process experiment instances_ids true w with
  | (Ok _, w1) =>
      (Ok tt,
       if is_exported experiment
       then add_export (process_id, instances_ids) w1 else w1)
  | (Raise e, w1) => (Raise e, w1)
  end.
Proof.
  unfold run_multiple_processes, run_single_process. rewrite bind_unfold.
  change (for_each (multiple_processes_step experiment) instances_ids w)
    with (for_each (single_process_step experiment true) instances_ids w).
  destruct (for_each _ _ w) as [[[]|e] w1]; [|done].
  by destruct (is_exported experiment).
Qed.

Lemma run_single_process_cons exp pair instances_ids safe_mode w :
  run_single_process exp (pair :: instances_ids) safe_mode w =
  match single_process_step exp safe_mode pair w with
  | (Ok _, w1) => run_single_process exp instances_ids safe_mode w1
  | (Raise e, w1) => (Raise e, w1)
  end.
Proof. reflexivity. Qed.

Lemma run_single_process_app exp done rest safe_mode w :
  run_single_process exp (done ++ rest) safe_mode w =
  match run_single_process exp done safe_mode w with
  | (Ok _, w1) => run_single_process exp rest safe_mode w1
  | (Raise e, w1) => (Raise e, w1)
  end.
Proof. apply for_each_app. Qed.

Lemma run_single_process_mirrored exp done rest safe_mode w i j :
  (i, j) ∈ done →
  (run_single_process exp done safe_mode w).1 = Ok tt →
  mirrored_at
    (distances (run_single_process exp (done ++ rest) safe_mode w).2) i j
  ∧ mirrored_at
      (times (run_single_process exp (done ++ rest) safe_mode w).2) i j.
Proof.
  revert w. induction done as [|pair done IH]; intros w Hin Hrun.
  { by apply elem_of_nil in Hin. }
  simpl app. rewrite run_single_process_cons in Hrun |- *.
  destruct (single_process_step exp safe_mode pair w)
    as [[[]|e] w1] eqn:Hstep; [|done].
  apply elem_of_cons in Hin as [<-|Hin]; [|by apply IH].
  apply single_process_step_ok in Hstep as [Hd Ht]. split.
  - by apply (keeps_for_each (λ w, mirrored_at (distances w) i j)
                (single_process_step exp safe_mode) (done ++ rest)
                (λ x, single_process_step_keeps_mirrored_distances
                        exp safe_mode x i j)).
  - by apply (keeps_for_each (λ w, mirrored_at (times w) i j)
                (single_process_step exp safe_mode) (done ++ rest)
                (λ x, single_process_step_keeps_mirrored_times
                        exp safe_mode x i j)).
Qed.

(** C1. Whatever the request list, once the pairs of a prefix [done] of it
    have been processed without an exception, every pair [(i, j)] of [done]
    has, after the run over the whole list, its two cells of the distance
    matrix present and equal, and its two cells of the time matrix present
    and equal; in [run_single_process], with or without safe mode, and in
    [run_multiple_processes]. *)
Theorem matrices_are_symmetric exp done rest safe_mode process_id w i j :
  (i, j) ∈ done →
  ((run_single_process exp done safe_mode w).1 = Ok tt →
   let w' := (run_single_process exp (done ++ rest) safe_mode w).2 in
   mirrored_at (distances w') i j ∧ mirrored_at (times w') i j)
  ∧ ((run_multiple_processes exp done process_id w).1 = Ok tt →
     let w' := (run_multiple_processes exp (done ++ rest) process_id w).2 in
     mirrored_at (distances w') i j ∧ mirrored_at (times w') i j).
Proof.
  intros Hin. split; intros Hrun; [by apply run_single_process_mirrored|].
  rewrite run_multiple_processes_unfold in Hrun |- *.
  destruct (run_single_process_mirrored exp done rest true w i j Hin)
    as [Hd Ht].
  { by destruct (run_single_process exp done true w) as [[[]|e] w1]. }
  destruct (run_single_process exp (done ++ rest) true w) as [[[]|e] w1];
    [|done].
  simpl. by destruct (is_exported exp).
Qed.

End Runs.

(** ** [argsort] of a permutation *)

#[local] Instance by_value_total : Total by_value.
Proof. intros x y. unfold by_value. lia. Qed.

#[local] Instance by_value_trans : Transitive by_value.
Proof. intros x y z. unfold by_value. lia. Qed.

Lemma identity_strongly_sorted start n :
  StronglySorted Z.le (Z.of_nat <$> seq start n).
Proof.
  revert start. induction n as [|n IH]; intros start; simpl.
  - constructor.
  - constructor; [apply IH|].
    apply Forall_forall. intros x (y & -> & Hy)%list_elem_of_fmap.
    apply elem_of_seq in Hy. lia.
Qed.

(** The values of the sorted pairs of a permutation are [0, 1, ...]. *)
Lemma sorted_values_of_permutation p :
  is_permutation p →
  (merge_sort by_value (zip p (seq 0 (length p)))).*1
  = Z.of_nat <$> seq 0 (length p).
Proof.
  unfold is_permutation. intros Hp. apply (StronglySorted_unique Z.le).
  - apply (StronglySorted_fmap fst by_value); [done|].
    apply (StronglySorted_merge_sort by_value); apply _.
  - apply identity_strongly_sorted.
  - rewrite merge_sort_Permutation, fst_zip; [done|].
    by rewrite length_seq.
Qed.

Lemma argsort_lookup p m v k :
  is_permutation p →
  p !! k = Some v → v = Z.of_nat m →
  argsort p !! m = Some (Z.of_nat k).
Proof.
  intros Hp Hk ->.
  pose proof (sorted_values_of_permutation p Hp) as Hvalues.
  unfold is_permutation in Hp.
  set (sorted := merge_sort by_value (zip p (seq 0 (length p)))) in *.
  assert (NoDup p) as Hnodup.
  { rewrite Hp. apply (NoDup_fmap_2 _), NoDup_seq. }
  assert (m < length p) as Hm.
  { apply list_elem_of_lookup_2 in Hk. rewrite Hp in Hk.
    apply list_elem_of_fmap in Hk as (m' & Hmm' & Hin).
    apply elem_of_seq in Hin. lia. }
  assert (sorted.*1 !! m = Some (Z.of_nat m)) as Hfst.
  { rewrite Hvalues, list_lookup_fmap, lookup_seq_lt by done. done. }
  rewrite list_lookup_fmap in Hfst.
  destruct (sorted !! m) as [[x y]|] eqn:Hsorted; [|done].
  simpl in Hfst. injection Hfst as ->.
  assert ((Z.of_nat m, y) ∈ zip p (seq 0 (length p))) as Hin.
  { rewrite <- (merge_sort_Permutation by_value).
    by eapply list_elem_of_lookup_2. }
  apply list_elem_of_lookup_1 in Hin as [k' Hk'].
  apply lookup_zip_Some in Hk' as [Hp' Hseq].
  apply lookup_seq in Hseq as [-> _]. simpl in Hp'.
  assert (k' = k) as -> by (by eapply NoDup_lookup).
  unfold argsort. fold sorted. by rewrite list_lookup_fmap, Hsorted.
Qed.

(** [np.argsort] of a permutation is its inverse. *)
Lemma argsort_inverse p : is_permutation p → inverse_of p (argsort p).
Proof.
  intros Hp k v Hk.
  assert (∃ m, v = Z.of_nat m) as [m ->].
  { apply list_elem_of_lookup_2 in Hk. rewrite (Hp : _ ≡ₚ _) in Hk.
    apply list_elem_of_fmap in Hk as (m & -> & _). eauto. }
  unfold np_getitem.
  rewrite (proj2 (Z.leb_le 0 (Z.of_nat m))) by lia.
  rewrite Nat2Z.id. by eapply argsort_lookup.
Qed.

(** ** Matchings *)

Section Matchings.
Context `{Collaborators}.

Lemma keeps_for_each_Forall {A} I (body : A → M unit) l :
  Forall (λ x, keeps I (body x)) l → keeps I (for_each body l).
Proof.
  induction 1 as [|x l Hx Hl IH]; simpl.
  - apply keeps_ret.
  - apply keeps_bind; [done|by intros _].
Qed.

Lemma step_single s exp pair w :
  step s exp pair w = single_process_step exp (copies s) pair w.
Proof. by destruct s. Qed.

Lemma dispatch_single s exp instance_id_1 instance_id_2 w :
  dispatch s exp instance_id_1 instance_id_2 w
  = single_process_dispatch exp (copies s) instance_id_1 instance_id_2 w.
Proof. by destruct s. Qed.

Lemma loop_single s exp instances_ids w :
  loop s exp instances_ids w
  = run_single_process exp instances_ids (copies s) w.
Proof. apply for_each_ext. intros. apply step_single. Qed.

Lemma run_loop s exp instances_ids w :
  (run s exp instances_ids w).1 = (loop s exp instances_ids w).1
  ∧ ∀ X (proj : World → X),
      (∀ e w, proj (add_export e w) = proj w) →
      proj (run s exp instances_ids w).2 = proj (loop s exp instances_ids w).2.
Proof.
  destruct s as [safe_mode|process_id]; [done|].
  rewrite loop_single. simpl. rewrite run_multiple_processes_unfold.
  destruct (run_single_process exp instances_ids true w) as [[[]|e] w1];
    [|done].
  split; [done|]. intros X proj Hproj. simpl.
  by destruct (is_exported exp).
Qed.

Lemma store_matching_other instance_id_1 instance_id_2 matching w a b :
  ¬ (a = instance_id_1 ∧ b = instance_id_2) →
  ¬ (a = instance_id_2 ∧ b = instance_id_1) →
  cell (matchings
          ((store2 matchings set_matchings instance_id_1 instance_id_2
              matching;;
            store2 matchings set_matchings instance_id_2 instance_id_1
              (argsort matching)) w).2) a b
  = cell (matchings w) a b.
Proof.
  intros H12 H21. rewrite bind_unfold.
  destruct (store2 matchings set_matchings instance_id_1 instance_id_2
              matching w) as [[[]|e] w1] eqn:E1.
  - destruct (store2 matchings set_matchings instance_id_2 instance_id_1
                (argsort matching) w1) as [[[]|e] w2] eqn:E2; simpl.
    + rewrite (store2_cell matchings set_matchings _ _ _ _ _ a b
                 (λ _ _, eq_refl) E2).
      rewrite (store2_cell matchings set_matchings _ _ _ _ _ a b
                 (λ _ _, eq_refl) E1).
      by rewrite !decide_False.
    + unfold store2 in E2.
      destruct (setitem2 (matchings w1) _ _ _); [done|].
      injection E2 as _ <-.
      rewrite (store2_cell matchings set_matchings _ _ _ _ _ a b
                 (λ _ _, eq_refl) E1).
      by rewrite decide_False.
  - unfold store2 in E1.
    destruct (setitem2 (matchings w) _ _ _); [done|]. by injection E1 as _ <-.
Qed.

Lemma store_matching_ok instance_id_1 instance_id_2 matching w w' :
  instance_id_1 ≠ instance_id_2 →
  (store2 matchings set_matchings instance_id_1 instance_id_2 matching;;
   store2 matchings set_matchings instance_id_2 instance_id_1
     (argsort matching)) w = (Ok tt, w') →
  cell (matchings w') instance_id_1 instance_id_2 = Some matching
  ∧ cell (matchings w') instance_id_2 instance_id_1 = Some (argsort matching).
Proof.
  intros Hne (u & w1 & E1 & E2)%bind_ok_inv. destruct u.
  rewrite !(store2_cell matchings set_matchings _ _ _ _ _ _ _
              (λ _ _, eq_refl) E2).
  rewrite !(store2_cell matchings set_matchings _ _ _ _ _ _ _
              (λ _ _, eq_refl) E1).
  rewrite decide_False by naive_solver. rewrite !decide_True by done. done.
Qed.

(** [store_result] changes the matchings only where it stores a matching. *)
Lemma store_result_matchings instance_id_1 instance_id_2 start_time distance w :
  matchings (store_result instance_id_1 instance_id_2 start_time distance w).2
  = matchings
      (match distance with
       | RTuple _ matching =>
           (store2 matchings set_matchings instance_id_1 instance_id_2
              matching;;
            store2 matchings set_matchings instance_id_2 instance_id_1
              (argsort matching)) w
       | _ => (Ok tt, w)
       end).2.
Proof.
  rewrite store_result_unfold.
  destruct (match distance with RTuple _ _ => _ | _ => _ end)
    as [[[]|e] w1]; [|done].
  pose proof (unchanged_store_mirrored matchings distances set_distances
                instance_id_1 instance_id_2 (distance_of distance)
                (λ _ _, eq_refl) w1) as Hd.
  destruct (store_mirrored distances set_distances _ _ _ w1)
    as [[[]|e] w2]; simpl in Hd |- *; [|done].
  by rewrite (unchanged_store_mirrored matchings times set_times _ _ _
                (λ _ _, eq_refl) (tick w2)).
Qed.

Lemma single_process_step_matchings_other exp safe_mode pair a b c :
  pair ≠ (a, b) → pair ≠ (b, a) →
  keeps (λ w, cell (matchings w) a b = c)
    (single_process_step exp safe_mode pair).
Proof.
  intros Hab Hba w Hw. rewrite single_process_step_unfold.
  pose proof (unchanged_single_process_dispatch matchings exp safe_mode
                pair.1 pair.2 beside_dispatch_matchings (tick w)) as Hd.
  destruct (single_process_dispatch _ _ _ _ _) as [[distance|e] w1];
    simpl in Hd |- *; [|by rewrite Hd].
  rewrite store_result_matchings.
  destruct distance as [| |x matching]; simpl; try by rewrite Hd.
  rewrite store_matching_other, Hd; [done| |];
    intros [-> ->]; by destruct pair.
Qed.

End Matchings.

Section MatchingInversion.
Context `{Collaborators}.

Lemma store_result_tuple_ok instance_id_1 instance_id_2 start_time x matching
    w w' :
  instance_id_1 ≠ instance_id_2 →
  store_result instance_id_1 instance_id_2 start_time (RTuple x matching) w
  = (Ok tt, w') →
  cell (matchings w') instance_id_1 instance_id_2 = Some matching
  ∧ cell (matchings w') instance_id_2 instance_id_1 = Some (argsort matching).
Proof.
  intros Hne Hrun.
  pose proof (store_result_matchings instance_id_1 instance_id_2 start_time
                (RTuple x matching) w) as Hm.
  rewrite Hrun in Hm. simpl in Hm. rewrite Hm.
  rewrite store_result_unfold in Hrun.
  destruct ((store2 matchings set_matchings instance_id_1 instance_id_2
               matching;;
             store2 matchings set_matchings instance_id_2 instance_id_1
               (argsort matching)) w) as [[[]|e] w1] eqn:Hfirst; [|done].
  by apply store_matching_ok in Hfirst.
Qed.

Lemma later_pairs_keep_matching exp safe_mode rest a b c :
  Forall (λ pair, pair ≠ (a, b) ∧ pair ≠ (b, a)) rest →
  keeps (λ w, cell (matchings w) a b = c)
    (run_single_process exp rest safe_mode).
Proof.
  intros Hrest. apply keeps_for_each_Forall.
  eapply Forall_impl; [exact Hrest|]. intros pair [Hab Hba].
  by apply single_process_step_matchings_other.
Qed.

(** C2. Let the pairs of [done] be processed, and let the dispatcher then
    return the tuple [(x, p)] for the pair [(i, j)], [i ≠ j], whose
    processing completes; let no later pair of the list be [(i, j)] or
    [(j, i)].  After the run, of either scheduler, [matchings[i][j]] is [p]
    and [matchings[j][i]] is [np.argsort(p)], which for a permutation [p] of
    [0 .. len(p) - 1] is its inverse: [matchings[j][i][p[k]] == k] for every
    valid [k]. *)
Theorem matching_is_stored_with_its_inverse
    s exp done rest w w1 w2 i j x p :
  i ≠ j →
  is_permutation p →
  loop s exp done w = (Ok tt, w1) →
  dispatch s exp i j (tick w1) = (Ok (RTuple x p), w2) →
  (step s exp (i, j) w1).1 = Ok tt →
  Forall (λ pair, pair ≠ (i, j) ∧ pair ≠ (j, i)) rest →
  let w' := (run s exp (done ++ (i, j) :: rest) w).2 in
  cell (matchings w') i j = Some p
  ∧ ∃ q, cell (matchings w') j i = Some q ∧ q = argsort p ∧ inverse_of p q.
Proof.
  intros Hne Hp Hdone Hdispatch Hstep Hrest w'. subst w'.
  destruct (run_loop s exp (done ++ (i, j) :: rest) w) as [_ ->]; [|done].
  rewrite loop_single, run_single_process_app.
  rewrite loop_single in Hdone. rewrite Hdone.
  rewrite run_single_process_cons.
  rewrite step_single in Hstep. rewrite dispatch_single in Hdispatch.
  destruct (single_process_step exp (copies s) (i, j) w1)
    as [[[]|e] w3] eqn:Hpair; [|done].
  rewrite single_process_step_unfold in Hpair. simpl in Hpair.
  rewrite Hdispatch in Hpair.
  apply store_result_tuple_ok in Hpair as [Hij Hji]; [|done].
  split.
  - apply (later_pairs_keep_matching exp (copies s) rest i j (Some p));
      [|done].
    eapply Forall_impl; [exact Hrest|]. naive_solver.
  - exists (argsort p). split; [|split; [done|by apply argsort_inverse]].
    apply (later_pairs_keep_matching exp (copies s) rest j i
             (Some (argsort p))); [|done].
    eapply Forall_impl; [exact Hrest|]. naive_solver.
Qed.

End MatchingInversion.

(** ** Copies *)

Section Copies.
Context `{Collaborators}.

Lemma fresh_is_new (h : gmap loc Election) : h !! fresh (dom h) = None.
Proof. apply not_elem_of_dom, is_fresh. Qed.

Lemma deepcopy_run x o w :
  heap w !! x = Some o →
  deepcopy x w
  = (Ok (fresh (dom (heap w))),
     set_heap (<[fresh (dom (heap w)) := o]> (heap w)) w).
Proof. intros E. unfold deepcopy. by rewrite E. Qed.

(** A copy leaves every object that exists as it is. *)
Lemma deepcopy_heap x w y o :
  heap w !! y = Some o → heap (deepcopy x w).2 !! y = Some o.
Proof.
  intros Hy. unfold deepcopy. destruct (heap w !! x) as [ox|]; [|done].
  simpl. rewrite lookup_insert_ne; [done|].
  intros <-. by rewrite fresh_is_new in Hy.
Qed.

(** The copy is an object that did not exist. *)
Lemma deepcopy_new x w x' w' :
  deepcopy x w = (Ok x', w') → heap w !! x' = None ∧ is_Some (heap w' !! x').
Proof.
  unfold deepcopy. destruct (heap w !! x) as [ox|]; [|done].
  intros [= <- <-]. split; [apply fresh_is_new|].
  simpl. rewrite lookup_insert_eq. eauto.
Qed.

(** [dispatch] comes down to a call of [get_distance] on two objects with
    the content of the two instances: the instances themselves, or two
    objects that did not exist. *)
Lemma dispatch_prepares s exp i j w election_1 election_2 o1 o2 :
  instances exp !! i = Some election_1 →
  instances exp !! j = Some election_2 →
  heap w !! election_1 = Some o1 → heap w !! election_2 = Some o2 →
  ∃ a1 a2 h,
    dispatch s exp i j w
    = get_distance a1 a2 (distance_id exp) (set_heap h w)
    ∧ h !! a1 = Some o1 ∧ h !! a2 = Some o2
    ∧ (∀ x o, heap w !! x = Some o → h !! x = Some o)
    ∧ if copies s then heap w !! a1 = None ∧ heap w !! a2 = None
      else a1 = election_1 ∧ a2 = election_2 ∧ h = heap w.
Proof.
  intros Hi Hj H1 H2. rewrite dispatch_single.
  unfold single_process_dispatch, getitem, lift.
  destruct (copies s).
  - rewrite bind_unfold, Hi. simpl.
    rewrite (bind_ok _ _ _ _ _ (deepcopy_run _ _ _ H1)).
    rewrite bind_unfold, Hj. simpl.
    set (copy_1 := fresh (dom (heap w))).
    set (w1 := set_heap (<[copy_1 := o1]> (heap w)) w).
    assert (heap w !! copy_1 = None) as Hnew1 by apply fresh_is_new.
    assert (heap w1 !! election_2 = Some o2) as H2'.
    { simpl. rewrite lookup_insert_ne; [done|]. congruence. }
    rewrite (bind_ok _ _ _ _ _ (deepcopy_run _ _ _ H2')).
    set (copy_2 := fresh (dom (heap w1))).
    assert (heap w1 !! copy_2 = None) as Hnew2 by apply fresh_is_new.
    simpl in Hnew2.
    assert (copy_2 ≠ copy_1) as Hne.
    { intros E. rewrite E, lookup_insert_eq in Hnew2. done. }
    rewrite lookup_insert_ne in Hnew2 by done.
    rewrite bind_unfold. simpl.
    exists copy_1, copy_2, (<[copy_2 := o2]> (<[copy_1 := o1]> (heap w))).
    split; [done|].
    split; [by rewrite lookup_insert_ne, lookup_insert_eq|].
    split; [by rewrite lookup_insert_eq|].
    split; [|done].
    intros x o Hx. rewrite !lookup_insert_ne; [done| |]; congruence.
  - rewrite bind_unfold, Hi. simpl. rewrite bind_unfold, Hj. simpl.
    exists election_1, election_2, (heap w). by destruct w.
Qed.

Lemma unchanged_store_result {X} (proj : World → X)
    instance_id_1 instance_id_2 start_time distance :
  (∀ d w, proj (set_matchings d w) = proj w) →
  (∀ d w, proj (set_distances d w) = proj w) →
  (∀ d w, proj (set_times d w) = proj w) →
  (∀ w, proj (tick w) = proj w) →
  unchanged proj
    (store_result instance_id_1 instance_id_2 start_time distance).
Proof.
  intros Hm Hd Ht Htick. unfold store_result.
  apply unchanged_bind.
  - destruct distance; try apply unchanged_ret.
    apply unchanged_bind; [by apply unchanged_store2|intros _].
    apply unchanged_bind; [by apply unchanged_store2|intros _].
    apply unchanged_ret.
  - intros v. apply unchanged_bind; [by apply unchanged_store_mirrored|].
    intros _. apply unchanged_bind; [by intros w; apply Htick|].
    intros now. by apply unchanged_store_mirrored.
Qed.

Lemma unchanged_single_process_step {X} (proj : World → X)
    exp safe_mode pair :
  beside_dispatch proj →
  (∀ d w, proj (set_matchings d w) = proj w) →
  (∀ d w, proj (set_distances d w) = proj w) →
  (∀ d w, proj (set_times d w) = proj w) →
  unchanged proj (single_process_step exp safe_mode pair).
Proof.
  intros Hp Hm Hd Ht. unfold single_process_step.
  apply unchanged_bind; [by apply unchanged_py_time|intros start_time].
  apply unchanged_bind; [by apply unchanged_single_process_dispatch|].
  intros distance. apply unchanged_store_result; try done. apply Hp.
Qed.

Lemma registered_unchanged w w' function :
  (registered_approval_distances w', registered_ordinal_distances w')
  = (registered_approval_distances w, registered_ordinal_distances w) →
  registered w' function ↔ registered w function.
Proof. intros [= Ha Ho]. unfold registered. by rewrite Ha, Ho. Qed.

(** A metric that writes only through its arguments leaves the other
    objects alone, and so does the dispatcher that calls it. *)
Lemma call_metric_heap family name function election_1 election_2 arg w x o :
  mutates_arguments_only function →
  heap w !! x = Some o → x ≠ election_1 → x ≠ election_2 →
  heap (call_metric family name function election_1 election_2 arg w).2 !! x
  = Some o.
Proof.
  intros Hf Hx H1 H2. unfold call_metric.
  specialize (Hf election_1 election_2 arg (heap w) x o Hx H1 H2).
  by destruct (function election_1 election_2 arg (heap w)) as [r h].
Qed.

Lemma get_distance_heap election_1 election_2 distance_id w x o :
  (∀ function, registered w function → mutates_arguments_only function) →
  heap w !! x = Some o → x ≠ election_1 → x ≠ election_2 →
  heap (get_distance election_1 election_2 distance_id w).2 !! x = Some o.
Proof.
  intros Hreg Hx H1 H2. unfold get_distance.
  rewrite bind_unfold. unfold py_type at 1.
  destruct (heap w !! election_1) as [o1|]; [|done].
  rewrite bind_unfold. unfold py_type at 1.
  destruct (heap w !! election_2) as [o2|]; [|done].
  destruct (_ && _).
  { unfold get_approval_distance, lift, gets. rewrite bind_unfold.
    destruct (_extract_distance_id distance_id) as [[inner main]|e]; [|done].
    rewrite bind_unfold.
    destruct (registered_approval_distances w !! main) as [function|] eqn:E;
      [|done].
    assert (mutates_arguments_only function)
      by (apply Hreg; exists main; by left).
    destruct inner; by apply call_metric_heap. }
  destruct (_ && _); [|done].
  unfold get_ordinal_distance, lift, gets. rewrite bind_unfold.
  destruct (_extract_distance_id distance_id) as [[inner main]|e]; [|done].
  rewrite bind_unfold.
  destruct (registered_ordinal_distances w !! main) as [function|] eqn:E;
    [|done].
  assert (mutates_arguments_only function)
    by (apply Hreg; exists main; by right).
  destruct inner; by apply call_metric_heap.
Qed.

Lemma multiple_processes_dispatch_heap experiment instance_id_1 instance_id_2
    w x o :
  (∀ function, registered w function → mutates_arguments_only function) →
  heap w !! x = Some o →
  heap (multiple_processes_dispatch experiment instance_id_1 instance_id_2
          w).2 !! x = Some o.
Proof.
  intros Hreg Hx. unfold multiple_processes_dispatch.
  rewrite bind_unfold. unfold lift at 1.
  destruct (getitem (instances experiment) instance_id_1) as [election_1|];
    [|done].
  rewrite bind_unfold.
  pose proof (deepcopy_heap election_1 w x o Hx) as Hx1.
  pose proof (unchanged_deepcopy _ election_1 beside_dispatch_registries w)
    as Hr1.
  destruct (deepcopy election_1 w) as [[copy_1|e] w1] eqn:E1; [|done].
  apply deepcopy_new in E1 as [Hnew1 _]. simpl in Hx1, Hr1.
  rewrite bind_unfold. unfold lift at 1.
  destruct (getitem (instances experiment) instance_id_2) as [election_2|];
    [|done].
  rewrite bind_unfold.
  pose proof (deepcopy_heap election_2 w1 x o Hx1) as Hx2.
  pose proof (unchanged_deepcopy _ election_2 beside_dispatch_registries w1)
    as Hr2.
  destruct (deepcopy election_2 w1) as [[copy_2|e] w2] eqn:E2; [|done].
  apply deepcopy_new in E2 as [Hnew2 _]. simpl in Hx2, Hr2.
  rewrite bind_unfold. unfold deepcopy_str at 1. simpl.
  apply get_distance_heap; [|done|congruence|congruence].
  intros function Hf. apply Hreg.
  apply (registered_unchanged w1 w); [done|].
  by apply (registered_unchanged w2 w1).
Qed.

(** What a run on copies maintains: the registries, and the content of every
    object that existed when the run began. *)
Lemma copying_step_isolates experiment pair w0 :
  (∀ function, registered w0 function → mutates_arguments_only function) →
  keeps (λ w,
           (registered_approval_distances w, registered_ordinal_distances w)
           = (registered_approval_distances w0,
              registered_ordinal_distances w0)
           ∧ ∀ x o, heap w0 !! x = Some o → heap w !! x = Some o)
    (single_process_step experiment true pair).
Proof.
  intros Hreg0 w [Hreg Hheap].
  split.
  { by rewrite (unchanged_single_process_step _ experiment true pair
                  beside_dispatch_registries (λ _ _, eq_refl)
                  (λ _ _, eq_refl) (λ _ _, eq_refl) w). }
  intros x o Hx%Hheap. rewrite single_process_step_unfold.
  change (single_process_dispatch experiment true pair.1 pair.2)
    with (multiple_processes_dispatch experiment pair.1 pair.2).
  pose proof (multiple_processes_dispatch_heap experiment pair.1 pair.2
                (tick w) x o) as Hd.
  destruct (multiple_processes_dispatch experiment pair.1 pair.2 (tick w))
    as [[distance|e] w1]; simpl in Hd |- *.
  - rewrite (unchanged_store_result heap _ _ _ _ (λ _ _, eq_refl)
               (λ _ _, eq_refl) (λ _ _, eq_refl) (λ _, eq_refl) w1).
    apply Hd; [|done]. intros function Hf. apply Hreg0.
    by apply (registered_unchanged w w0).
  - apply Hd; [|done]. intros function Hf. apply Hreg0.
    by apply (registered_unchanged w w0).
Qed.

Lemma get_distance_calls election_1 election_2 distance_id w :
  ∃ family,
    one_call_at_most family election_1 election_2 w
      (get_distance election_1 election_2 distance_id w).2.
Proof.
  unfold get_distance. rewrite bind_unfold. unfold py_type at 1.
  destruct (heap w !! election_1) as [o1|]; [|by exists Approval; left].
  rewrite bind_unfold. unfold py_type at 1.
  destruct (heap w !! election_2) as [o2|]; [|by exists Approval; left].
  destruct (_ && _).
  { exists Approval. apply get_approval_distance_calls. }
  destruct (_ && _).
  { exists Ordinal. apply get_ordinal_distance_calls. }
  exists Approval. by left.
Qed.

(** What a dispatch on copies adds to the record of calls: at most one call,
    on two objects that did not exist. *)
Lemma multiple_processes_dispatch_calls experiment instance_id_1 instance_id_2
    w :
  let w' :=
    (multiple_processes_dispatch experiment instance_id_1 instance_id_2 w).2 in
  calls w' = calls w
  ∨ ∃ ev, calls w' = (calls w ++ [ev])%list
          ∧ heap w !! (ev_args ev).1 = None
          ∧ heap w !! (ev_args ev).2 = None.
Proof.
  intros w'. subst w'.
  set (P := λ w' : World,
         calls w' = calls w
         ∨ ∃ ev, calls w' = (calls w ++ [ev])%list
                 ∧ heap w !! (ev_args ev).1 = None
                 ∧ heap w !! (ev_args ev).2 = None).
  change (P (multiple_processes_dispatch experiment instance_id_1
               instance_id_2 w).2).
  unfold multiple_processes_dispatch. rewrite bind_unfold. unfold lift at 1.
  destruct (getitem (instances experiment) instance_id_1) as [election_1|];
    [|by left].
  rewrite bind_unfold. unfold deepcopy at 1.
  destruct (heap w !! election_1) as [o1|] eqn:H1; [|by left].
  set (copy_1 := fresh (dom (heap w))).
  set (w1 := set_heap (<[copy_1 := o1]> (heap w)) w).
  assert (heap w !! copy_1 = None) as Hnew1 by apply fresh_is_new.
  rewrite bind_unfold. unfold lift at 1.
  destruct (getitem (instances experiment) instance_id_2) as [election_2|];
    [|by left].
  rewrite bind_unfold. unfold deepcopy at 1.
  destruct (heap w1 !! election_2) as [o2|] eqn:H2; [|by left].
  set (copy_2 := fresh (dom (heap w1))).
  set (w2 := set_heap (<[copy_2 := o2]> (heap w1)) w1).
  assert (heap w !! copy_2 = None) as Hnew2.
  { pose proof (fresh_is_new (heap w1)) as Hnew. fold copy_2 in Hnew.
    simpl in Hnew. by apply lookup_insert_None in Hnew as [? _]. }
  rewrite bind_unfold. unfold deepcopy_str, mret, M_ret. cbv beta iota.
  destruct (get_distance_calls copy_1 copy_2 (distance_id experiment) w2)
    as [family [Hcalls|[name Hcalls]]].
  - left. by rewrite Hcalls.
  - right. eexists. split; [by rewrite Hcalls|]. done.
Qed.

(** What a run on copies maintains: the registries, the content of every
    object that existed when the run began, and that every call of a metric
    it has made was on two objects that did not exist then. *)
Lemma copying_step_isolates_calls experiment pair w0 :
  (∀ function, registered w0 function → mutates_arguments_only function) →
  keeps (λ w,
           ((registered_approval_distances w, registered_ordinal_distances w)
            = (registered_approval_distances w0,
               registered_ordinal_distances w0)
            ∧ ∀ x o, heap w0 !! x = Some o → heap w !! x = Some o)
           ∧ ∃ new, calls w = (calls w0 ++ new)%list
                    ∧ Forall (λ ev, heap w0 !! (ev_args ev).1 = None
                                    ∧ heap w0 !! (ev_args ev).2 = None) new)
    (single_process_step experiment true pair).
Proof.
  intros Hframe w [Hiso (new & Hcalls & Hnew)].
  split; [by apply copying_step_isolates|].
  destruct Hiso as [_ Hheap].
  assert (∀ x, heap w !! x = None → heap w0 !! x = None) as Hfresh.
  { intros x Hx. destruct (heap w0 !! x) as [o|] eqn:E; [|done].
    apply Hheap in E. congruence. }
  rewrite single_process_step_unfold.
  change (single_process_dispatch experiment true pair.1 pair.2)
    with (multiple_processes_dispatch experiment pair.1 pair.2).
  pose proof (multiple_processes_dispatch_calls experiment pair.1 pair.2
                (tick w)) as Hd.
  assert (calls
            (match multiple_processes_dispatch experiment pair.1 pair.2
                     (tick w) with
             | (Ok distance, w1) =>
                 store_result pair.1 pair.2 (clock w (ticks w)) distance w1
             | (Raise e, w1) => (Raise e, w1)
             end).2
          = calls (multiple_processes_dispatch experiment pair.1 pair.2
                     (tick w)).2) as ->.
  { destruct (multiple_processes_dispatch experiment pair.1 pair.2 (tick w))
      as [[distance|e] w1]; [|done].
    apply (unchanged_store_result calls); done. }
  simpl in Hd. destruct Hd as [->|(ev & -> & Hev1 & Hev2)].
  - by exists new.
  - exists (new ++ [ev])%list. simpl. rewrite Hcalls, (assoc_L (++)).
    split; [done|]. apply Forall_app. split; [done|].
    constructor; [|constructor]. split; by apply Hfresh.
Qed.

(** C8. With safe mode enabled in [run_single_process], and always in
    [run_multiple_processes], the instances are copied before each call of
    [get_distance]: every metric call of the run is made on two objects that
    did not exist before the run.  So, when the registered metrics write to
    the store only through their arguments, every object that existed before
    the run, and so every instance stored in [exp.instances], has the same
    content after the run, whatever the metrics did to their arguments and
    however the run ended. *)
Theorem copies_isolate_the_instances s exp instances_ids w :
  copies s = true →
  (∀ function, registered w function → mutates_arguments_only function) →
  let w' := (run s exp instances_ids w).2 in
  (∀ x o, heap w !! x = Some o → heap w' !! x = Some o)
  ∧ ∃ new, calls w' = (calls w ++ new)%list
           ∧ Forall (λ ev, heap w !! (ev_args ev).1 = None
                           ∧ heap w !! (ev_args ev).2 = None) new.
Proof.
  intros Hcopies Hreg w'. subst w'.
  destruct (run_loop s exp instances_ids w) as [_ Hrun].
  rewrite (Hrun _ heap), (Hrun _ calls) by done.
  rewrite loop_single, Hcopies.
  destruct (keeps_for_each _ (single_process_step exp true) instances_ids
              (λ pair, copying_step_isolates_calls exp pair w Hreg) w)
    as [[_ Hheap] Hcalls]; [|done].
  split; [done|]. exists []. by rewrite app_nil_r.
Qed.

End Copies.

(** ** A pair that the dispatcher gives up on *)

Section GivenUp.
Context `{Collaborators}.

Lemma get_distance_gives_up w election_1 election_2 o1 o2 distance_id :
  heap w !! election_1 = Some o1 → heap w !! election_2 = Some o2 →
  family_mismatch (ob_type o1) (ob_type o2)
  ∨ unknown_distance w distance_id (ob_type o1) (ob_type o2) →
  ∃ msg, get_distance election_1 election_2 distance_id w
         = (Ok RNone, add_warning msg w).
Proof.
  intros H1 H2 [[Ha Ho]|(family & inner & main & E1 & E2 & Hparse & Hreg)].
  - eexists. by eapply get_distance_else.
  - destruct family; simpl in *.
    + rewrite (get_distance_approval _ _ _ _ _ _ H1 H2 E1 E2).
      eexists. by eapply get_approval_distance_unknown.
    + rewrite (get_distance_ordinal _ _ _ _ _ _ H1 H2 E1 E2).
      eexists. by eapply get_ordinal_distance_unknown.
Qed.

Lemma dispatch_gives_up s exp i j election_1 election_2 o1 o2 w :
  instances exp !! i = Some election_1 →
  instances exp !! j = Some election_2 →
  heap w !! election_1 = Some o1 → heap w !! election_2 = Some o2 →
  family_mismatch (ob_type o1) (ob_type o2)
  ∨ unknown_distance w (distance_id exp) (ob_type o1) (ob_type o2) →
  ∃ msg h, dispatch s exp i j w = (Ok RNone, add_warning msg (set_heap h w)).
Proof.
  intros Hi Hj H1 H2 Hgive.
  destruct (dispatch_prepares s exp i j w election_1 election_2 o1 o2)
    as (a1 & a2 & h & -> & Ha1 & Ha2 & _); [done..|].
  destruct (get_distance_gives_up (set_heap h w) a1 a2 o1 o2
              (distance_id exp) Ha1 Ha2 Hgive) as [msg ->].
  by exists msg, h.
Qed.

Lemma store_result_none_run i j start_time w :
  is_Some (distances w !! i) → is_Some (distances w !! j) →
  is_Some (times w !! i) → is_Some (times w !! j) →
  ∃ w', store_result i j start_time RNone w = (Ok tt, w').
Proof.
  intros Hdi Hdj Hti Htj. rewrite store_result_unfold.
  cbv beta iota delta [distance_of].
  destruct (store_mirrored_run distances set_distances (λ _ _, eq_refl)
              i j PyNone w Hdi Hdj) as [w2 E2].
  rewrite E2.
  pose proof (unchanged_store_mirrored times distances set_distances
                i j PyNone (λ _ _, eq_refl) w) as Ht.
  rewrite E2 in Ht. simpl in Ht.
  apply (store_mirrored_run times set_times (λ _ _, eq_refl));
    simpl; by rewrite Ht.
Qed.

End GivenUp.

(** ** Runs that agree *)

Section Agreement.
Context `{Collaborators}.

Lemma dispatch_missing s exp i j w :
  instances exp !! i = None
  ∨ (∃ election_1, instances exp !! i = Some election_1
                   ∧ is_Some (heap w !! election_1))
    ∧ instances exp !! j = None →
  ∃ key, (dispatch s exp i j w).1 = Raise (KeyError key)
         ∧ (instances exp !! i = None → key = i)
         ∧ (is_Some (instances exp !! i) → key = j).
Proof.
  rewrite dispatch_single. unfold single_process_dispatch, getitem, lift.
  intros [Hi|[(election_1 & Hi & [o1 H1]) Hj]].
  - exists i. split; [|split; [done|by intros [? ?]; congruence]].
    destruct (copies s); by rewrite bind_unfold, Hi.
  - exists j. split; [|split; [congruence|done]].
    destruct (copies s).
    + rewrite bind_unfold, Hi. simpl.
      rewrite (bind_ok _ _ _ _ _ (deepcopy_run _ _ _ H1)).
      by rewrite bind_unfold, Hj.
    + rewrite bind_unfold, Hi. simpl. by rewrite bind_unfold, Hj.
Qed.

Lemma call_metric_content family name function a1 a2 a1' a2' arg w w' :
  content_determined function →
  heap w !! a1 = heap w' !! a1' → heap w !! a2 = heap w' !! a2' →
  (call_metric family name function a1 a2 arg w).1
  = (call_metric family name function a1' a2' arg w').1.
Proof.
  intros Hf H1 H2. unfold call_metric.
  specialize (Hf a1 a2 a1' a2' arg (heap w) (heap w') H1 H2).
  by destruct (function a1 a2 arg (heap w)),
       (function a1' a2' arg (heap w')).
Qed.

(** The outcome of [get_distance] is decided by the registries and by the
    content of the two elections. *)
Lemma get_distance_content a1 a2 a1' a2' distance_id w w' :
  registered_approval_distances w = registered_approval_distances w' →
  registered_ordinal_distances w = registered_ordinal_distances w' →
  (∀ function, registered w function → content_determined function) →
  heap w !! a1 = heap w' !! a1' → heap w !! a2 = heap w' !! a2' →
  (get_distance a1 a2 distance_id w).1
  = (get_distance a1' a2' distance_id w').1.
Proof.
  intros Ha Ho Hc H1 H2. unfold get_distance.
  rewrite !bind_unfold. unfold py_type. rewrite <- H1.
  destruct (heap w !! a1) as [o1|] eqn:E1; [|done].
  rewrite !bind_unfold. rewrite <- H2.
  destruct (heap w !! a2) as [o2|] eqn:E2; [|done].
  destruct (_ && _).
  { unfold get_approval_distance, lift, gets. rewrite !bind_unfold.
    destruct (_extract_distance_id distance_id) as [[inner main]|e]; [|done].
    rewrite !bind_unfold. rewrite <- Ha.
    destruct (registered_approval_distances w !! main) as [function|] eqn:E;
      [|done].
    assert (content_determined function)
      by (apply Hc; exists main; by left).
    destruct inner; apply call_metric_content; (done || congruence). }
  destruct (_ && _); [|done].
  unfold get_ordinal_distance, lift, gets. rewrite !bind_unfold.
  destruct (_extract_distance_id distance_id) as [[inner main]|e]; [|done].
  rewrite !bind_unfold. rewrite <- Ho.
  destruct (registered_ordinal_distances w !! main) as [function|] eqn:E;
    [|done].
  assert (content_determined function)
    by (apply Hc; exists main; by right).
  destruct inner; apply call_metric_content; (done || congruence).
Qed.

Lemma extends_registered w0 w function :
  extends w0 w → registered w function ↔ registered w0 function.
Proof. intros (Ha & Ho & _). unfold registered. by rewrite Ha, Ho. Qed.

(** Two schedulers that see the same stored instances get the same outcome
    from the dispatcher. *)
Lemma dispatch_agree s1 s2 exp i j w0 w1 w2 :
  instances_stored exp w0 →
  (∀ function, registered w0 function → content_determined function) →
  extends w0 w1 → extends w0 w2 →
  (dispatch s1 exp i j w1).1 = (dispatch s2 exp i j w2).1.
Proof.
  intros Hstored Hc Hw1 Hw2.
  destruct (instances exp !! i) as [election_1|] eqn:Hi.
  2:{ destruct (dispatch_missing s1 exp i j w1) as (k1 & -> & Hk1 & _);
        [by left|].
      destruct (dispatch_missing s2 exp i j w2) as (k2 & -> & Hk2 & _);
        [by left|].
      by rewrite Hk1, Hk2. }
  destruct (Hstored _ _ Hi) as [o1 H1].
  destruct Hw1 as (Ha1 & Ho1 & Hh1), Hw2 as (Ha2 & Ho2 & Hh2).
  destruct (instances exp !! j) as [election_2|] eqn:Hj.
  2:{ destruct (dispatch_missing s1 exp i j w1) as (k1 & -> & _ & Hk1).
      { right. split; [|done]. exists election_1. split; [done|].
        exists o1. by apply Hh1. }
      destruct (dispatch_missing s2 exp i j w2) as (k2 & -> & _ & Hk2).
      { right. split; [|done]. exists election_1. split; [done|].
        exists o1. by apply Hh2. }
      rewrite Hk1, Hk2; eauto. }
  destruct (Hstored _ _ Hj) as [o2 H2].
  destruct (dispatch_prepares s1 exp i j w1 election_1 election_2 o1 o2)
    as (a1 & a2 & h & -> & Ha & Hb & _); auto.
  destruct (dispatch_prepares s2 exp i j w2 election_1 election_2 o1 o2)
    as (a1' & a2' & h' & -> & Ha' & Hb' & _); auto.
  apply get_distance_content; simpl; try congruence.
  intros function Hf. apply Hc. unfold registered in *. simpl in Hf.
  by rewrite Ha1, Ho1 in Hf.
Qed.

Lemma store2_agree {V} (get : World → gmap string (gmap string V)) set
    i j v w1 w2 :
  (∀ d w, get (set d w) = d) →
  get w1 = get w2 →
  (store2 get set i j v w1).1 = (store2 get set i j v w2).1
  ∧ get (store2 get set i j v w1).2 = get (store2 get set i j v w2).2.
Proof.
  intros get_set E. unfold store2. rewrite E.
  destruct (setitem2 (get w2) i j v); simpl; [by rewrite !get_set|done].
Qed.

Lemma store_mirrored_agree {V} (get : World → gmap string (gmap string V)) set
    i j v w1 w2 :
  (∀ d w, get (set d w) = d) →
  get w1 = get w2 →
  (store_mirrored get set i j v w1).1 = (store_mirrored get set i j v w2).1
  ∧ get (store_mirrored get set i j v w1).2
    = get (store_mirrored get set i j v w2).2.
Proof.
  intros get_set E. rewrite !store_mirrored_unfold by done. rewrite E.
  destruct (setitem2 (get w2) i j v) as [d1|e]; [|done].
  destruct (setitem2 d1 j i v); simpl; by rewrite !get_set.
Qed.

(** Whether a mirrored store is done depends on the rows only. *)
Lemma store_mirrored_outcome {V} (get : World → gmap string (gmap string V))
    set i j v1 v2 w1 w2 :
  (∀ d w, get (set d w) = d) →
  (∀ k, is_Some (get w1 !! k) ↔ is_Some (get w2 !! k)) →
  (store_mirrored get set i j v1 w1).1 = (store_mirrored get set i j v2 w2).1.
Proof.
  intros get_set Hrows. rewrite !store_mirrored_unfold by done.
  destruct (setitem2 (get w1) i j v1) as [d1|e1] eqn:E1,
           (setitem2 (get w2) i j v2) as [d2|e2] eqn:E2.
  - destruct (setitem2 d1 j i v1) as [d1'|e1'] eqn:E1',
             (setitem2 d2 j i v2) as [d2'|e2'] eqn:E2'; try done.
    + apply setitem2_raise in E2' as [E2' ->].
      apply setitem2_ok in E1' as (row & Hrow & _).
      assert (is_Some (d2 !! j)) as [? ?]; [|congruence].
      rewrite (setitem2_rows _ _ _ _ _ j E2), <- Hrows.
      rewrite <- (setitem2_rows _ _ _ _ _ j E1). eauto.
    + apply setitem2_raise in E1' as [E1' ->].
      apply setitem2_ok in E2' as (row & Hrow & _).
      assert (is_Some (d1 !! j)) as [? ?]; [|congruence].
      rewrite (setitem2_rows _ _ _ _ _ j E1), Hrows.
      rewrite <- (setitem2_rows _ _ _ _ _ j E2). eauto.
    + apply setitem2_raise in E1' as [_ ->].
      by apply setitem2_raise in E2' as [_ ->].
  - apply setitem2_raise in E2 as [E2 ->].
    apply setitem2_ok in E1 as (row & Hrow & _).
    assert (is_Some (get w2 !! i)) as [? ?]; [|congruence].
    apply Hrows. eauto.
  - apply setitem2_raise in E1 as [E1 ->].
    apply setitem2_ok in E2 as (row & Hrow & _).
    assert (is_Some (get w1 !! i)) as [? ?]; [|congruence].
    apply Hrows. eauto.
  - apply setitem2_raise in E1 as [_ ->].
    by apply setitem2_raise in E2 as [_ ->].
Qed.

Lemma store_matching_agree i j matching w1 w2 :
  matchings w1 = matchings w2 →
  let m := store2 matchings set_matchings i j matching;;
           store2 matchings set_matchings j i (argsort matching) in
  (m w1).1 = (m w2).1 ∧ matchings (m w1).2 = matchings (m w2).2.
Proof.
  intros E m. subst m. rewrite !bind_unfold.
  destruct (store2_agree matchings set_matchings i j matching w1 w2
              (λ _ _, eq_refl) E) as [E1 E2].
  destruct (store2 matchings set_matchings i j matching w1)
    as [[[]|e1] w1'],
    (store2 matchings set_matchings i j matching w2) as [[[]|e2] w2'];
    simpl in E1, E2; try done.
  by apply store2_agree.
Qed.

Lemma store_result_agree i j start_1 start_2 distance w1 w2 :
  same_results w1 w2 →
  (store_result i j start_1 distance w1).1
  = (store_result i j start_2 distance w2).1
  ∧ same_results (store_result i j start_1 distance w1).2
      (store_result i j start_2 distance w2).2.
Proof.
  intros (Hd & Hm & Ht). rewrite !store_result_unfold.
  set (first := λ w : World,
         match distance with
         | RTuple _ matching =>
             (store2 matchings set_matchings i j matching;;
              store2 matchings set_matchings j i (argsort matching)) w
         | _ => (Ok tt, w)
         end).
  fold (first w1). fold (first w2).
  assert ((first w1).1 = (first w2).1
          ∧ matchings (first w1).2 = matchings (first w2).2
          ∧ distances (first w1).2 = distances w1
          ∧ distances (first w2).2 = distances w2
          ∧ times (first w1).2 = times w1
          ∧ times (first w2).2 = times w2) as (E1 & E2 & D1 & D2 & T1 & T2).
  { subst first. destruct distance as [| |x matching]; simpl; try done.
    destruct (store_matching_agree i j matching w1 w2 Hm) as [? ?].
    repeat split; try done; by apply unchanged_store_matching. }
  destruct (first w1) as [[[]|e1] w1'], (first w2) as [[[]|e2] w2'];
    simpl in *; try done.
  2:{ split; [done|]. split; [congruence|]. split; [done|].
      intros k. rewrite T1, T2. apply Ht. }
  assert (distances w1' = distances w2') as Hd' by congruence.
  destruct (store_mirrored_agree distances set_distances i j
              (distance_of distance) w1' w2' (λ _ _, eq_refl) Hd')
    as [E3 E4].
  pose proof (unchanged_store_mirrored matchings distances set_distances
                i j (distance_of distance) (λ _ _, eq_refl) w1') as M1.
  pose proof (unchanged_store_mirrored matchings distances set_distances
                i j (distance_of distance) (λ _ _, eq_refl) w2') as M2.
  pose proof (unchanged_store_mirrored times distances set_distances
                i j (distance_of distance) (λ _ _, eq_refl) w1') as T1'.
  pose proof (unchanged_store_mirrored times distances set_distances
                i j (distance_of distance) (λ _ _, eq_refl) w2') as T2'.
  destruct (store_mirrored distances set_distances i j _ w1')
    as [[[]|e1] w1''],
    (store_mirrored distances set_distances i j _ w2') as [[[]|e2] w2''];
    simpl in *; try done.
  2:{ split; [done|]. split; [done|]. split; [congruence|].
      intros k. rewrite T1', T2', T1, T2. apply Ht. }
  assert (∀ k, is_Some (times (tick w1'') !! k)
               ↔ is_Some (times (tick w2'') !! k)) as Hrows.
  { intros k. simpl. rewrite T1', T2', T1, T2. apply Ht. }
  split.
  - by apply (store_mirrored_outcome times set_times).
  - split; [|split].
    + rewrite !(unchanged_store_mirrored distances times set_times _ _ _
                  (λ _ _, eq_refl)). done.
    + rewrite !(unchanged_store_mirrored matchings times set_times _ _ _
                  (λ _ _, eq_refl)). simpl. congruence.
    + intros k.
      rewrite !(store_mirrored_rows times set_times (λ _ _, eq_refl)).
      apply Hrows.
Qed.

Lemma step_agree s1 s2 exp pair w0 w1 w2 :
  instances_stored exp w0 →
  (∀ function, registered w0 function → content_determined function) →
  extends w0 w1 → extends w0 w2 → same_results w1 w2 →
  (step s1 exp pair w1).1 = (step s2 exp pair w2).1
  ∧ same_results (step s1 exp pair w1).2 (step s2 exp pair w2).2.
Proof.
  intros Hstored Hc Hw1 Hw2 Hsame.
  rewrite !step_single, !single_process_step_unfold.
  pose proof (dispatch_agree s1 s2 exp pair.1 pair.2 w0 (tick w1) (tick w2)
                Hstored Hc Hw1 Hw2) as Hd.
  rewrite !dispatch_single in Hd.
  pose proof (λ X (proj : World → X) Hp,
              unchanged_single_process_dispatch proj exp (copies s1)
                pair.1 pair.2 Hp (tick w1)) as U1.
  pose proof (λ X (proj : World → X) Hp,
              unchanged_single_process_dispatch proj exp (copies s2)
                pair.1 pair.2 Hp (tick w2)) as U2.
  assert (same_results
            (single_process_dispatch exp (copies s1) pair.1 pair.2
               (tick w1)).2
            (single_process_dispatch exp (copies s2) pair.1 pair.2
               (tick w2)).2) as Hsame'.
  { destruct Hsame as (Hd' & Hm' & Ht'). split; [|split].
    - rewrite (U1 _ distances beside_dispatch_distances),
        (U2 _ distances beside_dispatch_distances). done.
    - rewrite (U1 _ matchings beside_dispatch_matchings),
        (U2 _ matchings beside_dispatch_matchings). done.
    - intros k. rewrite (U1 _ times beside_dispatch_times),
        (U2 _ times beside_dispatch_times). apply Ht'. }
  destruct (single_process_dispatch exp (copies s1) pair.1 pair.2 (tick w1))
    as [[distance|e1] w1'],
    (single_process_dispatch exp (copies s2) pair.1 pair.2 (tick w2))
    as [[distance'|e2] w2']; simpl in Hd, Hsame' |- *; try done.
  - injection Hd as <-. by apply store_result_agree.
  - injection Hd as <-. by split.
Qed.

Lemma extends_refl w : extends w w.
Proof. by repeat split. Qed.

Lemma same_results_refl w : same_results w w.
Proof. by repeat split. Qed.

Lemma reads_only_mutates_arguments_only function :
  reads_only function → mutates_arguments_only function.
Proof. intros Hf election_1 election_2 arg h x o Hx _ _. by rewrite Hf. Qed.

Lemma get_distance_reads_only a1 a2 distance_id w :
  (∀ function, registered w function → reads_only function) →
  heap (get_distance a1 a2 distance_id w).2 = heap w.
Proof.
  intros Hreg. unfold get_distance.
  rewrite bind_unfold. unfold py_type at 1.
  destruct (heap w !! a1) as [o1|]; [|done].
  rewrite bind_unfold. unfold py_type at 1.
  destruct (heap w !! a2) as [o2|]; [|done].
  assert (∀ family name function arg,
            registered w function →
            heap (call_metric family name function a1 a2 arg w).2 = heap w)
    as Hcall.
  { intros family name function arg Hf%Hreg. unfold call_metric.
    specialize (Hf a1 a2 arg (heap w)).
    by destruct (function a1 a2 arg (heap w)). }
  destruct (_ && _).
  { unfold get_approval_distance, lift, gets. rewrite bind_unfold.
    destruct (_extract_distance_id distance_id) as [[inner main]|e]; [|done].
    rewrite bind_unfold.
    destruct (registered_approval_distances w !! main) as [function|] eqn:E;
      [|done].
    destruct inner; apply Hcall; exists main; by left. }
  destruct (_ && _); [|done].
  unfold get_ordinal_distance, lift, gets. rewrite bind_unfold.
  destruct (_extract_distance_id distance_id) as [[inner main]|e]; [|done].
  rewrite bind_unfold.
  destruct (registered_ordinal_distances w !! main) as [function|] eqn:E;
    [|done].
  destruct inner; apply Hcall; exists main; by right.
Qed.

(** Under an isolated scheduler the stored instances stay as they are. *)
Lemma step_extends s exp pair w0 :
  isolated s w0 → keeps (extends w0) (step s exp pair).
Proof.
  intros Hiso w Hw.
  assert (∀ function, registered w function ↔ registered w0 function)
    as Hsame by (intros; by apply extends_registered).
  destruct Hw as (Ha & Ho & Hh).
  rewrite step_single.
  pose proof (unchanged_single_process_step _ exp (copies s) pair
                beside_dispatch_registries (λ _ _, eq_refl)
                (λ _ _, eq_refl) (λ _ _, eq_refl) w) as Hreg.
  injection Hreg as Ha' Ho'.
  split; [congruence|]. split; [congruence|].
  unfold isolated in Hiso. destruct (copies s).
  - assert (∀ function, registered w0 function →
                        mutates_arguments_only function) as Hframe
      by (intros; by apply Hiso).
    apply (copying_step_isolates exp pair w0 Hframe w).
    split; [congruence|done].
  - intros x o Hx%Hh. rewrite single_process_step_unfold.
    unfold single_process_dispatch, lift.
    rewrite bind_unfold.
    destruct (getitem (instances exp) pair.1) as [election_1|]; [|done].
    rewrite bind_unfold.
    destruct (getitem (instances exp) pair.2) as [election_2|]; [|done].
    pose proof (get_distance_reads_only election_1 election_2
                  (distance_id exp) (tick w)) as Hheap.
    destruct (get_distance election_1 election_2 (distance_id exp) (tick w))
      as [[distance|e] w1]; simpl in Hheap |- *.
    + rewrite (unchanged_store_result heap _ _ _ _ (λ _ _, eq_refl)
                 (λ _ _, eq_refl) (λ _ _, eq_refl) (λ _, eq_refl) w1).
      rewrite Hheap; [done|]. intros function Hf. apply Hiso.
      by apply Hsame.
    + rewrite Hheap; [done|]. intros function Hf. apply Hiso.
      by apply Hsame.
Qed.

(** Two isolated schedulers that start from the same results end alike and
    with the same results. *)
Lemma loop_agree s1 s2 exp instances_ids w0 w1 w2 :
  instances_stored exp w0 →
  (∀ function, registered w0 function → content_determined function) →
  isolated s1 w0 → isolated s2 w0 →
  extends w0 w1 → extends w0 w2 → same_results w1 w2 →
  (loop s1 exp instances_ids w1).1 = (loop s2 exp instances_ids w2).1
  ∧ same_results (loop s1 exp instances_ids w1).2
      (loop s2 exp instances_ids w2).2.
Proof.
  intros Hstored Hc Hiso1 Hiso2. revert w1 w2.
  induction instances_ids as [|pair instances_ids IH];
    intros w1 w2 Hw1 Hw2 Hsame; [done|].
  unfold loop. simpl. rewrite !bind_unfold.
  destruct (step_agree s1 s2 exp pair w0 w1 w2 Hstored Hc Hw1 Hw2 Hsame)
    as [Hres Hsame'].
  pose proof (step_extends s1 exp pair w0 Hiso1 w1 Hw1) as Hw1'.
  pose proof (step_extends s2 exp pair w0 Hiso2 w2 Hw2) as Hw2'.
  destruct (step s1 exp pair w1) as [[[]|e1] w1'],
           (step s2 exp pair w2) as [[[]|e2] w2'];
    simpl in Hres, Hsame', Hw1', Hw2'; try done.
  by apply IH.
Qed.

End Agreement.

(** ** The order of the pairs *)

Section Order.
Context `{Collaborators}.

Lemma matrix_ext {V} (d1 d2 : gmap string (gmap string V)) :
  (∀ k, is_Some (d1 !! k) ↔ is_Some (d2 !! k)) →
  (∀ a b, cell d1 a b = cell d2 a b) →
  d1 = d2.
Proof.
  intros Hrows Hcells. apply map_eq. intros a.
  specialize (Hrows a). pose proof (Hcells a) as Hrow. unfold cell in Hrow.
  destruct (d1 !! a) as [row1|], (d2 !! a) as [row2|]; simpl in Hrow.
  - f_equal. apply map_eq. exact Hrow.
  - by destruct (proj1 Hrows) as [? ?]; eauto.
  - by destruct (proj2 Hrows) as [? ?]; eauto.
  - done.
Qed.

Lemma store_mirrored_cells {V} (get : World → gmap string (gmap string V))
    set i j v w w' a b :
  (∀ d w, get (set d w) = d) →
  store_mirrored get set i j v w = (Ok tt, w') →
  cell (get w') a b
  = if decide (hits (i, j) a b) then Some v else cell (get w) a b.
Proof.
  intros get_set Hrun.
  destruct (decide (hits (i, j) a b)) as [[[-> ->]|[-> ->]]|Hother];
    simpl in *.
  - by apply (store_mirrored_ok get set get_set) in Hrun as [? ?].
  - by apply (store_mirrored_ok get set get_set) in Hrun as [? ?].
  - pose proof (store_mirrored_other get set get_set i j v w a b) as Ho.
    rewrite Hrun in Ho. apply Ho; intros [-> ->]; apply Hother.
    + by left.
    + by right.
Qed.

Lemma store_mirrored_ok_rows {V} (get : World → gmap string (gmap string V))
    set i j v w w' :
  (∀ d w, get (set d w) = d) →
  store_mirrored get set i j v w = (Ok tt, w') →
  is_Some (get w !! i) ∧ is_Some (get w !! j).
Proof.
  intros get_set. rewrite store_mirrored_unfold by done.
  destruct (setitem2 (get w) i j v) as [d1|e] eqn:E1; [|done].
  destruct (setitem2 d1 j i v) as [d2|e] eqn:E2; [|done].
  intros _. split.
  - apply setitem2_ok in E1 as (row & Hrow & _). eauto.
  - rewrite <- (setitem2_rows _ _ _ _ _ j E1).
    apply setitem2_ok in E2 as (row & Hrow & _). eauto.
Qed.

(** [store_result], once done, has written the pair. *)
Lemma store_result_written p start_time distance w w' :
  store_result p.1 p.2 start_time distance w = (Ok tt, w') →
  rows_there p distance w ∧ written p distance w w'.
Proof.
  rewrite store_result_unfold.
  set (first := match distance with RTuple _ _ => _ | _ => _ end).
  assert (∀ w1, first = (Ok tt, w1) →
            distances w1 = distances w ∧ times w1 = times w
            ∧ (∀ k, is_Some (matchings w1 !! k) ↔ is_Some (matchings w !! k))
            ∧ (∀ a b, cell (matchings w1) a b
                      = matching_cell p distance a b (cell (matchings w) a b))
            ∧ match distance with
              | RTuple _ _ =>
                  is_Some (matchings w !! p.1) ∧ is_Some (matchings w !! p.2)
              | _ => True
              end) as Hfirst.
  { subst first. intros w1 Hw1.
    destruct distance as [| |x matching]; simpl in *;
      try (injection Hw1 as <-; done).
    pose proof (unchanged_store_matching distances p.1 p.2 matching
                  (λ _ _, eq_refl) w) as Hd.
    pose proof (unchanged_store_matching times p.1 p.2 matching
                  (λ _ _, eq_refl) w) as Ht.
    rewrite Hw1 in Hd, Ht. split; [done|]. split; [done|].
    apply bind_ok_inv in Hw1 as ([] & w0 & E1 & E2).
    pose proof (store2_rows matchings set_matchings p.1 p.2 matching w)
      as R1.
    pose proof (store2_rows matchings set_matchings p.2 p.1
                  (argsort matching) w0) as R2.
    rewrite E1 in R1. rewrite E2 in R2. simpl in R1, R2.
    split; [intros k; by rewrite R2, R1|].
    split.
    - intros a b.
      rewrite (store2_cell matchings set_matchings _ _ _ _ _ a b
                 (λ _ _, eq_refl) E2).
      rewrite (store2_cell matchings set_matchings _ _ _ _ _ a b
                 (λ _ _, eq_refl) E1).
      done.
    - split.
      + unfold store2 in E1.
        destruct (setitem2 (matchings w) p.1 p.2 matching) eqn:E; [|done].
        apply setitem2_ok in E as (row & Hrow & _). eauto.
      + rewrite <- R1 by done. unfold store2 in E2.
        destruct (setitem2 (matchings w0) p.2 p.1 (argsort matching)) eqn:E;
          [|done].
        apply setitem2_ok in E as (row & Hrow & _). eauto. }
  destruct first as [[[]|e] w1]; [|done].
  destruct (Hfirst w1 eq_refl) as (Hd1 & Ht1 & Hmrows & Hmcells & Hmthere).
  destruct (store_mirrored distances set_distances p.1 p.2
              (distance_of distance) w1) as [[[]|e] w2] eqn:Hd; [|done].
  intros Ht.
  pose proof (unchanged_store_mirrored matchings distances set_distances
                p.1 p.2 (distance_of distance) (λ _ _, eq_refl) w1) as M2.
  pose proof (unchanged_store_mirrored times distances set_distances
                p.1 p.2 (distance_of distance) (λ _ _, eq_refl) w1) as T2.
  pose proof (store_mirrored_rows distances set_distances (λ _ _, eq_refl)
                p.1 p.2 (distance_of distance) w1) as R2.
  rewrite Hd in M2, T2, R2. simpl in M2, T2, R2.
  pose proof (unchanged_store_mirrored matchings times set_times
                p.1 p.2 (fsub (clock w2 (ticks w2)) start_time)
                (λ _ _, eq_refl) (tick w2)) as M3.
  pose proof (unchanged_store_mirrored distances times set_times
                p.1 p.2 (fsub (clock w2 (ticks w2)) start_time)
                (λ _ _, eq_refl) (tick w2)) as D3.
  pose proof (store_mirrored_rows times set_times (λ _ _, eq_refl)
                p.1 p.2 (fsub (clock w2 (ticks w2)) start_time) (tick w2))
    as R3.
  rewrite Ht in M3, D3, R3. simpl in M3, D3, R3.
  apply (store_mirrored_ok_rows times set_times) in Ht as Htrows; [|done].
  simpl in Htrows. rewrite T2, Ht1 in Htrows.
  apply (store_mirrored_ok_rows distances set_distances) in Hd as Hdrows;
    [|done].
  rewrite Hd1 in Hdrows.
  split; [done|].
  split; [intros k; by rewrite D3, R2, Hd1|].
  split; [intros k; by rewrite M3, M2|].
  split; [intros k; by rewrite R3, T2, Ht1|].
  split.
  - intros a b. rewrite D3.
    rewrite (store_mirrored_cells distances set_distances _ _ _ _ _ a b
               (λ _ _, eq_refl) Hd).
    rewrite Hd1. by destruct p.
  - intros a b. by rewrite M3, M2.
Qed.

(** [store_result] is done as soon as the rows are there. *)
Lemma store_result_run p start_time distance w :
  rows_there p distance w →
  ∃ w', store_result p.1 p.2 start_time distance w = (Ok tt, w').
Proof.
  intros ([Hd1 Hd2] & [Ht1 Ht2] & Hm). rewrite store_result_unfold.
  set (first := match distance with RTuple _ _ => _ | _ => _ end).
  assert (∃ w1, first = (Ok tt, w1)
                ∧ distances w1 = distances w ∧ times w1 = times w)
    as (w1 & -> & Hdw & Htw).
  { subst first. destruct distance as [| |x matching]; [by eexists..|].
    destruct Hm as [Hm1 Hm2].
    destruct (store2_run matchings set_matchings p.1 p.2 matching w Hm1)
      as [w0 E1].
    pose proof (store2_rows matchings set_matchings p.1 p.2 matching w p.2
                  (λ _ _, eq_refl)) as R1.
    rewrite E1 in R1. simpl in R1. apply R1 in Hm2.
    destruct (store2_run matchings set_matchings p.2 p.1 (argsort matching)
                w0 Hm2) as [w1 E2].
    exists w1.
    pose proof (unchanged_store_matching distances p.1 p.2 matching
                  (λ _ _, eq_refl) w) as Hd.
    pose proof (unchanged_store_matching times p.1 p.2 matching
                  (λ _ _, eq_refl) w) as Ht.
    rewrite bind_unfold, E1, E2 in Hd, Ht |- *. done. }
  rewrite <- Hdw in Hd1, Hd2.
  destruct (store_mirrored_run distances set_distances (λ _ _, eq_refl)
              p.1 p.2 (distance_of distance) w1 Hd1 Hd2) as [w2 E2].
  rewrite E2.
  pose proof (unchanged_store_mirrored times distances set_distances
                p.1 p.2 (distance_of distance) (λ _ _, eq_refl) w1) as T2.
  rewrite E2 in T2. simpl in T2.
  apply (store_mirrored_run times set_times (λ _ _, eq_refl));
    simpl; by rewrite T2, Htw.
Qed.

Lemma dispatch_matrices s exp i j w :
  distances (dispatch s exp i j w).2 = distances w
  ∧ matchings (dispatch s exp i j w).2 = matchings w
  ∧ times (dispatch s exp i j w).2 = times w.
Proof.
  rewrite dispatch_single. repeat split.
  - apply unchanged_single_process_dispatch, beside_dispatch_distances.
  - apply unchanged_single_process_dispatch, beside_dispatch_matchings.
  - apply unchanged_single_process_dispatch, beside_dispatch_times.
Qed.

Lemma step_unfold s exp pair w :
  step s exp pair w =
  match dispatch s exp pair.1 pair.2 (tick w) with
  | (Ok distance, w1) =>
      store_result pair.1 pair.2 (clock w (ticks w)) distance w1
  | (Raise e, w1) => (Raise e, w1)
  end.
Proof. by destruct s. Qed.

(** A pair that has been processed has been written with what the
    dispatcher returned for it. *)
Lemma step_written s exp pair w w' :
  step s exp pair w = (Ok tt, w') →
  ∃ distance,
    (dispatch s exp pair.1 pair.2 (tick w)).1 = Ok distance
    ∧ rows_there pair distance w ∧ written pair distance w w'.
Proof.
  rewrite step_unfold.
  destruct (dispatch_matrices s exp pair.1 pair.2 (tick w))
    as (Hd & Hm & Ht).
  destruct (dispatch s exp pair.1 pair.2 (tick w)) as [[distance|e] w1];
    [|done].
  simpl in Hd, Hm, Ht.
  intros [Hrows Hw]%store_result_written. exists distance.
  split; [done|].
  unfold rows_there, written in *. by rewrite Hd, Hm, Ht in Hrows, Hw.
Qed.

(** A pair is processed as soon as the dispatcher returns and the rows are
    there. *)
Lemma step_run s exp pair w distance :
  (dispatch s exp pair.1 pair.2 (tick w)).1 = Ok distance →
  rows_there pair distance w →
  ∃ w', step s exp pair w = (Ok tt, w').
Proof.
  rewrite step_unfold.
  destruct (dispatch_matrices s exp pair.1 pair.2 (tick w))
    as (Hd & Hm & Ht).
  destruct (dispatch s exp pair.1 pair.2 (tick w)) as [[distance'|e] w1];
    [|done].
  simpl in Hd, Hm, Ht. intros [= ->] Hrows.
  apply store_result_run.
  unfold rows_there in *. by rewrite Hd, Hm, Ht.
Qed.

Lemma rows_there_rows pair distance w w' :
  (∀ k, is_Some (distances w' !! k) ↔ is_Some (distances w !! k)) →
  (∀ k, is_Some (matchings w' !! k) ↔ is_Some (matchings w !! k)) →
  (∀ k, is_Some (times w' !! k) ↔ is_Some (times w !! k)) →
  rows_there pair distance w' ↔ rows_there pair distance w.
Proof.
  intros Hd Hm Ht. unfold rows_there. rewrite !Hd, !Ht.
  destruct distance; by rewrite ?Hm.
Qed.

Lemma same_cells_hits p q a b :
  ¬ same_cells p q → hits p a b → hits q a b → False.
Proof.
  intros Hpq Hp Hq. apply Hpq. unfold same_cells, hits in *.
  destruct p as [i j], q as [k l]. simpl in *.
  destruct Hp as [[E1 E2]|[E1 E2]], Hq as [[E3 E4]|[E3 E4]]; subst; auto.
Qed.

(** Two pairs that address different cells can be processed in either
    order. *)
Lemma steps_swap s1 s2 exp p q w0 w1 w2 wa wb :
  instances_stored exp w0 →
  (∀ function, registered w0 function → content_determined function) →
  isolated s1 w0 → isolated s2 w0 →
  extends w0 w1 → extends w0 w2 → same_results w1 w2 →
  ¬ same_cells p q →
  step s1 exp p w1 = (Ok tt, wa) →
  step s1 exp q wa = (Ok tt, wb) →
  ∃ wc wd,
    step s2 exp q w2 = (Ok tt, wc)
    ∧ step s2 exp p wc = (Ok tt, wd)
    ∧ same_results wb wd.
Proof.
  intros Hstored Hc Hiso1 Hiso2 Hw1 Hw2 (Hd & Hm & Ht) Hpq Hp Hq.
  pose proof (step_extends s1 exp p w0 Hiso1 w1 Hw1) as Hwa.
  rewrite Hp in Hwa. simpl in Hwa.
  destruct (step_written s1 exp p w1 wa Hp)
    as (rp & Hrp & Hrows_p & Hwd_p).
  destruct (step_written s1 exp q wa wb Hq)
    as (rq & Hrq & Hrows_q & Hwd_q).
  destruct Hwd_p as (Rd1 & Rm1 & Rt1 & Cd1 & Cm1).
  destruct Hwd_q as (Rd2 & Rm2 & Rt2 & Cd2 & Cm2).
  (* [q] first, from [w2] *)
  assert ((dispatch s2 exp q.1 q.2 (tick w2)).1 = Ok rq) as Hrq2.
  { rewrite <- Hrq. by apply (dispatch_agree s2 s1 exp q.1 q.2 w0). }
  assert (rows_there q rq w2) as Hrows_q2.
  { apply (rows_there_rows q rq w1 wa Rd1 Rm1 Rt1) in Hrows_q.
    unfold rows_there in *. rewrite <- Hd, <- Hm, <- !Ht. done. }
  destruct (step_run s2 exp q w2 rq Hrq2 Hrows_q2) as [wc Hq2].
  pose proof (step_extends s2 exp q w0 Hiso2 w2 Hw2) as Hwc.
  rewrite Hq2 in Hwc. simpl in Hwc.
  destruct (step_written s2 exp q w2 wc Hq2)
    as (rq' & Hrq' & _ & Rd3 & Rm3 & Rt3 & Cd3 & Cm3).
  assert (rq' = rq) as -> by congruence.
  (* then [p] *)
  assert ((dispatch s2 exp p.1 p.2 (tick wc)).1 = Ok rp) as Hrp2.
  { rewrite <- Hrp. by apply (dispatch_agree s2 s1 exp p.1 p.2 w0). }
  assert (rows_there p rp wc) as Hrows_p2.
  { apply (rows_there_rows p rp w2 wc Rd3 Rm3 Rt3).
    unfold rows_there in *. rewrite <- Hd, <- Hm, <- !Ht. done. }
  destruct (step_run s2 exp p wc rp Hrp2 Hrows_p2) as [wd Hp2].
  destruct (step_written s2 exp p wc wd Hp2)
    as (rp' & Hrp' & _ & Rd4 & Rm4 & Rt4 & Cd4 & Cm4).
  assert (rp' = rp) as -> by congruence.
  exists wc, wd. split; [done|]. split; [done|].
  split; [|split].
  - apply matrix_ext.
    + intros k. by rewrite Rd2, Rd1, Rd4, Rd3, Hd.
    + intros a b. rewrite Cd2, Cd1, Cd4, Cd3, Hd.
      destruct (decide (hits q a b)) as [Hhq|];
        destruct (decide (hits p a b)) as [Hhp|]; try done.
      by destruct (same_cells_hits p q a b).
  - apply matrix_ext.
    + intros k. by rewrite Rm2, Rm1, Rm4, Rm3, Hm.
    + intros a b. rewrite Cm2, Cm1, Cm4, Cm3, Hm.
      unfold matching_cell.
      destruct rq as [| |xq mq], rp as [| |xp mp]; try done.
      destruct (decide (a = q.2 ∧ b = q.1)) as [Hq1|];
        destruct (decide (a = q.1 ∧ b = q.2)) as [Hq2'|];
        destruct (decide (a = p.2 ∧ b = p.1)) as [Hp1|];
        destruct (decide (a = p.1 ∧ b = p.2)) as [Hp2'|]; try done;
        destruct (same_cells_hits p q a b Hpq); unfold hits; auto.
  - intros k. by rewrite Rt2, Rt1, Rt4, Rt3, Ht.
Qed.

Lemma same_cells_sym p q : same_cells p q → same_cells q p.
Proof.
  unfold same_cells. destruct p as [i j], q as [k l]. simpl.
  intros [[= -> ->]|[= -> ->]]; auto.
Qed.

Lemma distinct_cells_Permutation l l' :
  l ≡ₚ l' → distinct_cells l → distinct_cells l'.
Proof.
  induction 1 as [|x l l' Hperm IH|x y l|l l' l'' _ IH1 _ IH2]; simpl.
  - done.
  - intros [Hx Hl]. split; [|by apply IH].
    apply Forall_forall. intros q Hq. rewrite Forall_forall in Hx.
    apply Hx. by rewrite Hperm.
  - intros [Hy [Hx Hl]]. apply Forall_cons in Hy as [Hyx Hy].
    split; [|done]. apply Forall_cons. split; [|done].
    intros Hxy. by apply Hyx, same_cells_sym.
  - auto.
Qed.

Lemma same_results_sym w1 w2 : same_results w1 w2 → same_results w2 w1.
Proof. intros (Hd & Hm & Ht). by repeat split; try apply Ht. Qed.

Lemma same_results_trans w1 w2 w3 :
  same_results w1 w2 → same_results w2 w3 → same_results w1 w3.
Proof.
  intros (Hd & Hm & Ht) (Hd' & Hm' & Ht').
  split; [congruence|]. split; [congruence|].
  intros k. by rewrite Ht.
Qed.

Lemma loop_cons s exp pair instances_ids w :
  loop s exp (pair :: instances_ids) w =
  match step s exp pair w with
  | (Ok _, w') => loop s exp instances_ids w'
  | (Raise e, w') => (Raise e, w')
  end.
Proof. reflexivity. Qed.

(** A run that completes on a pair list of distinct cells completes on any
    rearrangement of the list, under either scheduler, with the same distances
    and the same matchings. *)
Lemma loop_Permutation exp w0 l l' :
  l ≡ₚ l' →
  instances_stored exp w0 →
  (∀ function, registered w0 function → content_determined function) →
  distinct_cells l →
  ∀ s1 s2 w1 w2 w1',
    isolated s1 w0 → isolated s2 w0 →
    extends w0 w1 → extends w0 w2 → same_results w1 w2 →
    loop s1 exp l w1 = (Ok tt, w1') →
    ∃ w2', loop s2 exp l' w2 = (Ok tt, w2') ∧ same_results w1' w2'.
Proof.
  intros Hperm Hstored Hc.
  induction Hperm as [|x l l' Hperm IH|x y l|l l' l'' Hperm1 IH1 Hperm2 IH2];
    intros Hdistinct s1 s2 w1 w2 w1' Hiso1 Hiso2 Hw1 Hw2 Hsame Hrun.
  - injection Hrun as <-. by exists w2.
  - destruct Hdistinct as [_ Hdistinct].
    rewrite loop_cons in Hrun |- *.
    destruct (step_agree s1 s2 exp x w0 w1 w2 Hstored Hc Hw1 Hw2 Hsame)
      as [Hres Hsame'].
    pose proof (step_extends s1 exp x w0 Hiso1 w1 Hw1) as Hw1'.
    pose proof (step_extends s2 exp x w0 Hiso2 w2 Hw2) as Hw2'.
    destruct (step s1 exp x w1) as [[[]|e1] wa]; [|done].
    destruct (step s2 exp x w2) as [[[]|e2] wc]; [|done].
    by apply (IH Hdistinct s1 s2 wa wc).
  - destruct Hdistinct as [Hy [_ Hdistinct]].
    apply Forall_cons in Hy as [Hyx _].
    rewrite loop_cons in Hrun.
    destruct (step s1 exp y w1) as [[[]|e1] wa] eqn:Hstep_y; [|done].
    rewrite loop_cons in Hrun.
    destruct (step s1 exp x wa) as [[[]|e2] wb] eqn:Hstep_x; [|done].
    destruct (steps_swap s1 s2 exp y x w0 w1 w2 wa wb)
      as (wc & wd & Hx2 & Hy2 & Hsame'); try done.
    rewrite loop_cons, Hx2, loop_cons, Hy2.
    pose proof (step_extends s1 exp y w0 Hiso1 w1 Hw1) as Hwa.
    rewrite Hstep_y in Hwa.
    pose proof (step_extends s1 exp x w0 Hiso1 wa Hwa) as Hwb.
    rewrite Hstep_x in Hwb.
    pose proof (step_extends s2 exp x w0 Hiso2 w2 Hw2) as Hwc.
    rewrite Hx2 in Hwc.
    pose proof (step_extends s2 exp y w0 Hiso2 wc Hwc) as Hwd.
    rewrite Hy2 in Hwd.
    destruct (loop_agree s1 s2 exp l w0 wb wd Hstored Hc Hiso1 Hiso2
                Hwb Hwd Hsame') as [Hres Hsame''].
    rewrite Hrun in Hres, Hsame''. simpl in Hres, Hsame''.
    destruct (loop s2 exp l wd) as [[[]|e] w2']; [|done].
    by exists w2'.
  - destruct (IH1 Hdistinct s1 s2 w1 w2 w1' Hiso1 Hiso2 Hw1 Hw2 Hsame Hrun)
      as (wm & Hrun_m & Hsame_m).
    destruct (IH2 (distinct_cells_Permutation _ _ Hperm1 Hdistinct)
                s2 s2 w2 w2 wm Hiso2 Hiso2 Hw2 Hw2 (same_results_refl w2)
                Hrun_m) as (w2' & Hrun' & Hsame').
    exists w2'. split; [done|]. by eapply same_results_trans.
Qed.

End Order.

(** * Further properties of the module *)

(** ** The parser, read backwards *)

Lemma str_partition_join sep s :
  0 < str_count sep s →
  s = str_before sep s +:+ String sep (str_after sep s).
Proof.
  induction s as [|c s IH]; simpl; [lia|].
  destruct (Ascii.eqb_spec c sep) as [->|Hne]; simpl; [done|].
  intros Hc.
  transitivity (String c (str_before sep s +:+ String sep (str_after sep s)));
    [|reflexivity].
  f_equal. by apply IH.
Qed.

Lemma str_before_count sep s : str_count sep (str_before sep s) = 0.
Proof.
  induction s as [|c s IH]; simpl; [done|].
  destruct (Ascii.eqb c sep) eqn:E; simpl; [done|]. by rewrite E.
Qed.

Lemma str_count_join sep a b :
  str_count sep (a +:+ String sep b) = S (str_count sep a + str_count sep b).
Proof.
  induction a as [|c a IH].
  - change (EmptyString +:+ String sep b) with (String sep b). simpl.
    by rewrite Ascii.eqb_refl.
  - change (String c a +:+ String sep b) with (String c (a +:+ String sep b)).
    simpl. rewrite IH. lia.
Qed.

Lemma str_before_join sep a b :
  str_count sep a = 0 → str_before sep (a +:+ String sep b) = a.
Proof.
  induction a as [|c a IH]; intros Ha.
  - change (EmptyString +:+ String sep b) with (String sep b). simpl.
    by rewrite Ascii.eqb_refl.
  - change (String c a +:+ String sep b) with (String c (a +:+ String sep b)).
    simpl in Ha |- *. destruct (Ascii.eqb c sep); [done|].
    f_equal. by apply IH.
Qed.

Lemma str_after_join sep a b :
  str_count sep a = 0 → str_after sep (a +:+ String sep b) = b.
Proof.
  induction a as [|c a IH]; intros Ha.
  - change (EmptyString +:+ String sep b) with (String sep b). simpl.
    by rewrite Ascii.eqb_refl.
  - change (String c a +:+ String sep b) with (String c (a +:+ String sep b)).
    simpl in Ha |- *. destruct (Ascii.eqb c sep); [done|]. by apply IH.
Qed.

Section ParserBackwards.
Context `{Collaborators}.

Lemma extract_distance_id_plain s :
  str_count "-" s = 0 → _extract_distance_id (Some s) = Ok (None, s).
Proof.
  intros Hs. unfold _extract_distance_id. rewrite str_contains_count.
  by rewrite bool_decide_eq_false_2 by lia.
Qed.

Lemma extract_distance_id_joined name main_distance :
  str_count "-" name = 0 → str_count "-" main_distance = 0 →
  _extract_distance_id (Some (name +:+ String "-" main_distance))
  = (inner_distance ← map_str_to_func name; Ok (inner_distance, main_distance)).
Proof.
  intros Hname Hmain. unfold _extract_distance_id.
  rewrite str_contains_count, str_count_join.
  rewrite bool_decide_eq_true_2 by lia.
  rewrite str_split_partition by (rewrite str_count_join; lia).
  rewrite str_before_join, str_after_join by done.
  by rewrite (str_split_no_sep _ _ Hmain).
Qed.

Lemma extract_distance_id_ok_inv s inner_distance main_distance :
  _extract_distance_id (Some s) = Ok (inner_distance, main_distance) →
  str_count "-" main_distance = 0
  ∧ ((s = main_distance ∧ inner_distance = None)
     ∨ ∃ name,
         s = name +:+ String "-" main_distance
         ∧ str_count "-" name = 0
         ∧ map_str_to_func name = Ok inner_distance).
Proof.
  unfold _extract_distance_id. rewrite str_contains_count.
  destruct (str_count "-" s) as [|[|n]] eqn:Hn.
  - rewrite bool_decide_eq_false_2 by lia. intros [= <- <-].
    split; [done|]. by left.
  - rewrite bool_decide_eq_true_2 by lia.
    rewrite str_split_partition by lia.
    pose proof (str_count_partition "-" s) as Hafter.
    assert (str_count "-" (str_after "-" s) = 0) as Hzero by lia.
    rewrite (str_split_no_sep _ _ Hzero).
    destruct (map_str_to_func (str_before "-" s)) as [inner|e] eqn:Hmap;
      simpl; [|done].
    intros [= <- <-]. split; [done|]. right.
    exists (str_before "-" s). split; [apply str_partition_join; lia|].
    split; [apply str_before_count|done].
  - rewrite bool_decide_eq_true_2 by lia.
    pose proof (str_split_length "-" s) as Hlen. rewrite Hn in Hlen.
    by destruct (str_split "-" s) as [|a [|b [|c parts]]].
Qed.

Lemma extract_distance_id_main distance_id inner_distance main_distance :
  _extract_distance_id distance_id = Ok (inner_distance, main_distance) →
  str_count "-" main_distance = 0.
Proof.
  destruct distance_id as [s|]; [|done].
  by intros [? _]%extract_distance_id_ok_inv.
Qed.

(** X1.  What [_extract_distance_id] returns can be put together again, and
    nothing else is returned: the result is [(inner, main)] exactly when
    [main] has no separator and the identifier is [main] alone, with no
    inner distance, or a name without separator, the separator and [main],
    the inner distance being what [map_str_to_func] returns for that
    name. *)
Theorem extract_distance_id_reassembles s inner_distance main_distance :
  _extract_distance_id (Some s) = Ok (inner_distance, main_distance) ↔
  str_count "-" main_distance = 0%nat
  ∧ ((s = main_distance ∧ inner_distance = None)
     ∨ ∃ name,
         s = name +:+ String "-" main_distance
         ∧ str_count "-" name = 0%nat
         ∧ map_str_to_func name = Ok inner_distance).
Proof.
  split; [apply extract_distance_id_ok_inv|].
  intros [Hmain [[-> ->]|(name & -> & Hname & Hmap)]].
  - by apply extract_distance_id_plain.
  - rewrite extract_distance_id_joined by done. by rewrite Hmap.
Qed.

(** X2.  [_extract_distance_id] fails on a string in two ways only: the
    identifier has two separators or more, and the unpacking raises
    [ValueError]; or it has one, and [map_str_to_func] raises on the inner
    name. *)
Theorem extract_distance_id_failures s e :
  _extract_distance_id (Some s) = Raise e ↔
  ((2 ≤ str_count "-" s)%nat
   ∧ e = ValueError "too many values to unpack (expected 2)")
  ∨ (str_count "-" s = 1%nat ∧ map_str_to_func (str_before "-" s) = Raise e).
Proof.
  unfold _extract_distance_id. rewrite str_contains_count.
  destruct (str_count "-" s) as [|[|n]] eqn:Hn.
  - rewrite bool_decide_eq_false_2 by lia. split; [done|].
    intros [[? _]|[? _]]; lia.
  - rewrite bool_decide_eq_true_2 by lia.
    rewrite str_split_partition by lia.
    pose proof (str_count_partition "-" s) as Hafter.
    rewrite (str_split_no_sep _ (str_after "-" s)) by lia.
    destruct (map_str_to_func (str_before "-" s)) as [inner|e'] eqn:Hmap;
      simpl.
    + split; [done|]. intros [[? _]|[_ ?]]; [lia|done].
    + split; [intros [= <-]; by right|].
      intros [[? _]|[_ [= <-]]]; [lia|done].
  - rewrite bool_decide_eq_true_2 by lia.
    pose proof (str_split_length "-" s) as Hlen. rewrite Hn in Hlen.
    destruct (str_split "-" s) as [|a [|b [|c parts]]]; simpl in Hlen;
      try lia.
    split; [intros [= <-]; left; split; [lia|done]|].
    intros [[_ ->]|[? _]]; [done|lia].
Qed.

End ParserBackwards.

(** ** The dispatchers, case by case *)

Section DispatcherCases.
Context `{Collaborators}.

Lemma get_family_distance_unfold family election_1 election_2 distance_id kw w :
  get_family_distance family election_1 election_2 distance_id kw w =
  match _extract_distance_id distance_id with
  | Ok (inner_distance, main_distance) =>
      match registry_of family w !! main_distance with
      | Some function =>
          call_metric family main_distance function election_1 election_2
            (metric_argument inner_distance kw) w
      | None =>
          (Ok RNone,
           add_warning ("No such distance as: " ++ main_distance ++ "!") w)
      end
  | Raise e => (Raise e, w)
  end.
Proof.
  destruct family; simpl.
  - unfold get_approval_distance. rewrite bind_unfold. unfold lift.
    destruct (_extract_distance_id distance_id) as [[inner main]|e]; [|done].
    rewrite bind_unfold. unfold gets.
    destruct (registered_approval_distances w !! main); [|done].
    by destruct inner.
  - unfold get_ordinal_distance. rewrite bind_unfold. unfold lift.
    destruct (_extract_distance_id distance_id) as [[inner main]|e]; [|done].
    rewrite bind_unfold. unfold gets.
    destruct (registered_ordinal_distances w !! main); [|done].
    by destruct inner.
Qed.

Lemma call_metric_unfold family name function election_1 election_2 arg w :
  call_metric family name function election_1 election_2 arg w
  = ((function election_1 election_2 arg (heap w)).1,
     set_heap (function election_1 election_2 arg (heap w)).2
       (add_call (call_of family name election_1 election_2 w) w)).
Proof.
  unfold call_metric, call_of.
  by destruct (function election_1 election_2 arg (heap w)).
Qed.

Lemma get_distance_family family election_1 election_2 o1 o2 distance_id w :
  heap w !! election_1 = Some o1 → heap w !! election_2 = Some o2 →
  ob_type o1 = family_class family → ob_type o2 = family_class family →
  get_distance election_1 election_2 distance_id w
  = get_family_distance family election_1 election_2 distance_id no_kwargs w.
Proof.
  intros H1 H2 T1 T2. destruct family.
  - by apply (get_distance_approval _ _ _ o1 o2).
  - by apply (get_distance_ordinal _ _ _ o1 o2).
Qed.

Lemma get_family_distance_registered family election_1 election_2 distance_id
    kw inner_distance main_distance function w :
  _extract_distance_id distance_id = Ok (inner_distance, main_distance) →
  registry_of family w !! main_distance = Some function →
  get_family_distance family election_1 election_2 distance_id kw w
  = call_metric family main_distance function election_1 election_2
      (metric_argument inner_distance kw) w.
Proof.
  intros Hid Hmain. rewrite get_family_distance_unfold, Hid. simpl.
  by rewrite Hmain.
Qed.

(** The three ways in which [get_distance] ends: an exception raised before
    any metric is looked up, with the world as it was; a warning and
    [None]; the call of a metric that is registered under a name without
    separator. *)
Lemma get_distance_cases election_1 election_2 distance_id w :
  (∃ e, get_distance election_1 election_2 distance_id w = (Raise e, w))
  ∨ (∃ msg, get_distance election_1 election_2 distance_id w
            = (Ok RNone, add_warning msg w))
  ∨ ∃ family name function arg,
      registry_of family w !! name = Some function
      ∧ str_count "-" name = 0
      ∧ get_distance election_1 election_2 distance_id w
        = call_metric family name function election_1 election_2 arg w.
Proof.
  destruct (heap w !! election_1) as [o1|] eqn:H1; last first.
  { left. eexists. unfold get_distance. rewrite bind_unfold.
    unfold py_type. by rewrite H1. }
  destruct (heap w !! election_2) as [o2|] eqn:H2; last first.
  { left. eexists. unfold get_distance. rewrite bind_unfold.
    rewrite (py_type_run _ _ _ H1). rewrite bind_unfold.
    unfold py_type. by rewrite H2. }
  assert (∀ family,
            ob_type o1 = family_class family →
            ob_type o2 = family_class family →
            (∃ e, get_distance election_1 election_2 distance_id w
                  = (Raise e, w))
            ∨ (∃ msg, get_distance election_1 election_2 distance_id w
                      = (Ok RNone, add_warning msg w))
            ∨ ∃ family name function arg,
                registry_of family w !! name = Some function
                ∧ str_count "-" name = 0
                ∧ get_distance election_1 election_2 distance_id w
                  = call_metric family name function election_1 election_2
                      arg w) as Hfamily.
  { intros family T1 T2.
    rewrite (get_distance_family family _ _ o1 o2) by done.
    rewrite get_family_distance_unfold.
    destruct (_extract_distance_id distance_id) as [[inner main]|e] eqn:Hid;
      [|left; by eexists].
    destruct (registry_of family w !! main) as [function|] eqn:Hmain;
      [|right; left; by eexists].
    right. right.
    exists family, main, function, (metric_argument inner no_kwargs).
    split; [done|]. split; [|done].
    by apply extract_distance_id_main in Hid. }
  destruct (decide (ob_type o1 = ApprovalElection
                    ∧ ob_type o2 = ApprovalElection))
    as [[T1 T2]|Ha]; [by apply (Hfamily Approval)|].
  destruct (decide (ob_type o1 = OrdinalElection
                    ∧ ob_type o2 = OrdinalElection))
    as [[T1 T2]|Ho]; [by apply (Hfamily Ordinal)|].
  right. left. eexists. by apply (get_distance_else _ _ _ o1 o2).
Qed.

(** X3.  Called directly, a dispatcher does not look at the class of the two
    elections: once the identifier is parsed and its main distance is a key
    of the registry, the registered metric is called on the two elections as
    they are, with the inner distance as third positional argument when
    there is one and the keyword arguments otherwise; what the metric
    returns or raises is the outcome, the call is the one call recorded, and
    nothing is logged. *)
Theorem registered_metric_is_called family election_1 election_2 distance_id
    kw inner_distance main_distance function w :
  _extract_distance_id distance_id = Ok (inner_distance, main_distance) →
  registry_of family w !! main_distance = Some function →
  let outcome :=
    function election_1 election_2 (metric_argument inner_distance kw)
      (heap w) in
  get_family_distance family election_1 election_2 distance_id kw w
  = (outcome.1,
     set_heap outcome.2
       (add_call (call_of family main_distance election_1 election_2 w) w))
  ∧ warnings (get_family_distance family election_1 election_2 distance_id
                kw w).2 = warnings w.
Proof.
  intros Hid Hmain outcome.
  rewrite (get_family_distance_registered _ _ _ _ _ _ _ _ _ Hid Hmain).
  by rewrite call_metric_unfold.
Qed.

(** X4.  [get_distance] on two elections whose class is the class of one family:
    the metric registered in that family's registry is called with no
    keyword argument, whatever the other registry holds, and its outcome is
    the outcome of [get_distance]. *)
Theorem get_distance_calls_the_registered_metric family election_1 election_2
    o1 o2 distance_id inner_distance main_distance function w :
  heap w !! election_1 = Some o1 →
  heap w !! election_2 = Some o2 →
  ob_type o1 = family_class family →
  ob_type o2 = family_class family →
  _extract_distance_id distance_id = Ok (inner_distance, main_distance) →
  registry_of family w !! main_distance = Some function →
  let outcome :=
    function election_1 election_2
      (metric_argument inner_distance no_kwargs) (heap w) in
  get_distance election_1 election_2 distance_id w
  = (outcome.1,
     set_heap outcome.2
       (add_call (call_of family main_distance election_1 election_2 w) w)).
Proof.
  intros H1 H2 T1 T2 Hid Hmain outcome.
  rewrite (get_distance_family family _ _ o1 o2) by done.
  rewrite (get_family_distance_registered _ _ _ _ _ _ _ _ _ Hid Hmain).
  by rewrite call_metric_unfold.
Qed.

(** X5.  No metric is ever called under a name that has a separator, or that is
    not a key of the registry of its family: the calls that a dispatcher or
    [get_distance] adds to the record are calls of registered names without
    ['-']. *)
Theorem called_names_are_registered family election_1 election_2 distance_id
    kw w :
  let called (w' : World) :=
    ∃ new, calls w' = (calls w ++ new)%list
           ∧ ∀ ev, ev ∈ new →
               str_count "-" (ev_name ev) = 0%nat
               ∧ is_Some (registry_of (ev_family ev) w !! ev_name ev) in
  called (get_family_distance family election_1 election_2 distance_id kw w).2
  ∧ called (get_distance election_1 election_2 distance_id w).2.
Proof.
  intros called.
  assert (called w) as Hnone.
  { exists []. split; [by rewrite app_nil_r|]. by intros ev ?%elem_of_nil. }
  assert (∀ msg, called (add_warning msg w)) as Hwarned by done.
  assert (∀ family name function e1 e2 arg,
            registry_of family w !! name = Some function →
            str_count "-" name = 0 →
            called (call_metric family name function e1 e2 arg w).2)
    as Hcalled.
  { intros family' name function e1 e2 arg Hname Hsep.
    rewrite call_metric_unfold. eexists [_]. split; [done|].
    intros ev ->%list_elem_of_singleton. simpl. by rewrite Hname. }
  split.
  - rewrite get_family_distance_unfold.
    destruct (_extract_distance_id distance_id) as [[inner main]|e] eqn:Hid;
      [|done].
    destruct (registry_of family w !! main) as [function|] eqn:Hmain;
      [|done].
    apply Hcalled; [done|]. by apply extract_distance_id_main in Hid.
  - destruct (get_distance_cases election_1 election_2 distance_id w)
      as [[e ->]|[[msg ->]|(family' & name & function & arg & Hname & Hsep
                             & ->)]]; [done|done|].
    by apply Hcalled.
Qed.

(** X6.  An inner name that [map_str_to_func] does not know, and for which it
    returns [None], is dropped without a word: the dispatcher does for
    ['name-main'] what it does for ['main']. *)
Theorem unknown_inner_distance_is_dropped family name main_distance
    election_1 election_2 kw w :
  str_count "-" name = 0%nat →
  str_count "-" main_distance = 0%nat →
  map_str_to_func name = Ok None →
  get_family_distance family election_1 election_2
    (Some (name +:+ String "-" main_distance)) kw w
  = get_family_distance family election_1 election_2 (Some main_distance)
      kw w.
Proof.
  intros Hname Hmain Hmap. rewrite !get_family_distance_unfold.
  rewrite extract_distance_id_joined, Hmap by done.
  by rewrite extract_distance_id_plain.
Qed.

End DispatcherCases.

(** ** Registration and dispatch *)

Section Registration.
Context `{Collaborators}.

Lemma add_family_distance_run family name function w :
  add_family_distance family name function w
  = (Ok tt,
     match family with
     | Approval =>
         set_registered_approval_distances
           (<[name := function]> (registered_approval_distances w)) w
     | Ordinal =>
         set_registered_ordinal_distances
           (<[name := function]> (registered_ordinal_distances w)) w
     end).
Proof. by destruct family. Qed.

Lemma add_family_distance_registry family name function family' w :
  registry_of family' (add_family_distance family name function w).2
  = if decide (family' = family)
    then <[name := function]> (registry_of family' w)
    else registry_of family' w.
Proof. by destruct family, family'. Qed.

Lemma call_metric_registration family name function family' name' function'
    election_1 election_2 arg w :
  let register := add_family_distance family name function in
  let call :=
    call_metric family' name' function' election_1 election_2 arg in
  call (register w).2 = ((call w).1, (register (call w).2).2).
Proof. simpl. rewrite !call_metric_unfold. by destruct family. Qed.

(** X7.  A metric that was registered under a name without separator is the one
    that the dispatcher of its family calls for that name afterwards, also
    when the name was registered before with another metric: with the
    keyword arguments for the name alone, and with the inner distance for
    ['inner-name'] when [map_str_to_func] knows the inner name. *)
Theorem registered_distance_is_dispatched family name function
    election_1 election_2 kw w :
  str_count "-" name = 0%nat →
  let w' := (add_family_distance family name function w).2 in
  get_family_distance family election_1 election_2 (Some name) kw w'
  = call_metric family name function election_1 election_2 (Keywords kw) w'
  ∧ ∀ inner_name inner_distance,
      str_count "-" inner_name = 0%nat →
      map_str_to_func inner_name = Ok (Some inner_distance) →
      get_family_distance family election_1 election_2
        (Some (inner_name +:+ String "-" name)) kw w'
      = call_metric family name function election_1 election_2
          (Positional inner_distance) w'.
Proof.
  intros Hname w'.
  assert (registry_of family w' !! name = Some function) as Hregistered.
  { unfold w'. rewrite add_family_distance_registry.
    rewrite decide_True by done. apply lookup_insert_eq. }
  split.
  - apply (get_family_distance_registered _ _ _ _ _ None); [|done].
    by apply extract_distance_id_plain.
  - intros inner_name inner_distance Hinner Hmap.
    apply (get_family_distance_registered _ _ _ _ _ (Some inner_distance));
      [|done].
    rewrite extract_distance_id_joined by done. by rewrite Hmap.
Qed.

(** X8.  Registering a metric changes no other dispatch: for the other family,
    and for an identifier whose main distance is not the registered name,
    dispatching after the registration is dispatching before it, with the
    same outcome, the same warning or the same call. *)
Theorem registration_leaves_the_other_names family name function family'
    election_1 election_2 distance_id kw w :
  family' ≠ family
  ∨ (∀ inner_distance,
       _extract_distance_id distance_id ≠ Ok (inner_distance, name)) →
  let register := add_family_distance family name function in
  let dispatched :=
    get_family_distance family' election_1 election_2 distance_id kw in
  dispatched (register w).2
  = ((dispatched w).1, (register (dispatched w).2).2).
Proof.
  intros Hother register dispatched. unfold dispatched.
  rewrite !get_family_distance_unfold.
  destruct (_extract_distance_id distance_id) as [[inner main]|e] eqn:Hid;
    [|done].
  assert (registry_of family' (register w).2 !! main
          = registry_of family' w !! main) as ->.
  { unfold register. rewrite add_family_distance_registry.
    destruct (decide (family' = family)) as [->|]; [|done].
    apply lookup_insert_ne. intros <-.
    destruct Hother as [Hother|Hother]; [done|]. by apply (Hother inner). }
  destruct (registry_of family' w !! main) as [function'|].
  - apply call_metric_registration.
  - unfold register. rewrite !add_family_distance_run. by destruct family.
Qed.

End Registration.

(** ** What a run leaves alone *)

Section RunFrames.
Context `{Collaborators}.

Lemma beside_metrics_weaker {X} (proj : World → X) :
  beside_dispatch proj → beside_metrics proj.
Proof. intros (? & ? & ? & _). by repeat split. Qed.

Lemma beside_metrics_clock : beside_metrics (λ w, (clock w, ticks w)).
Proof. by repeat split. Qed.

Lemma beside_metrics_exported : beside_dispatch exported.
Proof. by repeat split. Qed.

Lemma unchanged_get_distance_clock {X} (proj : World → X)
    election_1 election_2 distance_id :
  beside_metrics proj →
  unchanged proj (get_distance election_1 election_2 distance_id).
Proof.
  intros (Hh & Hw & Hc) w.
  destruct (get_distance_cases election_1 election_2 distance_id w)
    as [[e ->]|[[msg ->]|(family & name & function & arg & _ & _ & ->)]];
    simpl; [done|apply Hw|].
  rewrite call_metric_unfold. simpl. by rewrite Hh, Hc.
Qed.

Lemma unchanged_deepcopy_clock {X} (proj : World → X) x :
  beside_metrics proj → unchanged proj (deepcopy x).
Proof.
  intros (Hh & _) w. unfold deepcopy.
  destruct (heap w !! x); simpl; [apply Hh|done].
Qed.

Lemma unchanged_dispatch_clock {X} (proj : World → X) s exp i j :
  beside_metrics proj → unchanged proj (dispatch s exp i j).
Proof.
  intros Hp w. rewrite dispatch_single. revert w.
  change (unchanged proj (single_process_dispatch exp (copies s) i j)).
  unfold single_process_dispatch. destruct (copies s).
  - apply unchanged_bind; [apply unchanged_lift|intros election_1].
    apply unchanged_bind; [by apply unchanged_deepcopy_clock|intros copy_1].
    apply unchanged_bind; [apply unchanged_lift|intros election_2].
    apply unchanged_bind; [by apply unchanged_deepcopy_clock|intros copy_2].
    apply unchanged_bind; [apply unchanged_ret|intros distance_id].
    by apply unchanged_get_distance_clock.
  - apply unchanged_bind; [apply unchanged_lift|intros election_1].
    apply unchanged_bind; [apply unchanged_lift|intros election_2].
    by apply unchanged_get_distance_clock.
Qed.

(** [store_result] on the cells that are not the two cells of the pair, and
    on the rows, whatever its outcome. *)
Lemma store_result_other_cells i j start_time distance w a b :
  ¬ hits (i, j) a b →
  let w' := (store_result i j start_time distance w).2 in
  cell (distances w') a b = cell (distances w) a b
  ∧ cell (times w') a b = cell (times w) a b
  ∧ cell (matchings w') a b = cell (matchings w) a b.
Proof.
  intros Hhits.
  assert (¬ (a = i ∧ b = j)) as Hij by (intros [-> ->]; apply Hhits; by left).
  assert (¬ (a = j ∧ b = i)) as Hji by (intros [-> ->]; apply Hhits; by right).
  simpl. rewrite store_result_unfold.
  set (first := match distance with RTuple _ _ => _ | _ => _ end).
  assert (distances first.2 = distances w ∧ times first.2 = times w
          ∧ cell (matchings first.2) a b = cell (matchings w) a b)
    as (Hd1 & Ht1 & Hm1).
  { subst first. destruct distance as [| |x matching]; simpl; try done.
    split; [|split].
    - by apply (unchanged_store_matching distances).
    - by apply (unchanged_store_matching times).
    - by apply store_matching_other. }
  clearbody first.
  destruct first as [[[]|e] w1]; simpl in Hd1, Ht1, Hm1 |- *;
    [|by rewrite Hd1, Ht1, Hm1].
  pose proof (store_mirrored_other distances set_distances (λ _ _, eq_refl)
                i j (distance_of distance) w1 a b Hij Hji) as Hd2.
  pose proof (unchanged_store_mirrored times distances set_distances
                i j (distance_of distance) (λ _ _, eq_refl) w1) as Ht2.
  pose proof (unchanged_store_mirrored matchings distances set_distances
                i j (distance_of distance) (λ _ _, eq_refl) w1) as Hm2.
  destruct (store_mirrored distances set_distances i j _ w1)
    as [[[]|e] w2]; simpl in Hd2, Ht2, Hm2; cbn [fst snd];
    [|by rewrite Hd2, Ht2, Hm2, Hd1, Ht1, Hm1].
  set (elapsed := fsub _ _).
  pose proof (store_mirrored_other times set_times (λ _ _, eq_refl)
                i j elapsed (tick w2) a b Hij Hji) as Ht3.
  rewrite (unchanged_store_mirrored distances times set_times
             i j elapsed (λ _ _, eq_refl) (tick w2)).
  rewrite (unchanged_store_mirrored matchings times set_times
             i j elapsed (λ _ _, eq_refl) (tick w2)).
  rewrite Ht3. simpl. by rewrite Hd2, Ht2, Hm2, Hd1, Ht1, Hm1.
Qed.

Lemma store_matching_rows i j matching w k :
  is_Some (matchings
             ((store2 matchings set_matchings i j matching;;
               store2 matchings set_matchings j i (argsort matching)) w).2
           !! k)
  ↔ is_Some (matchings w !! k).
Proof.
  rewrite bind_unfold.
  pose proof (store2_rows matchings set_matchings i j matching w k
                (λ _ _, eq_refl)) as H1.
  destruct (store2 matchings set_matchings i j matching w)
    as [[[]|e] w1]; simpl in H1; [|done].
  rewrite <- H1.
  apply (store2_rows matchings set_matchings j i (argsort matching) w1 k
           (λ _ _, eq_refl)).
Qed.

Lemma store_result_rows i j start_time distance w k :
  let w' := (store_result i j start_time distance w).2 in
  (is_Some (distances w' !! k) ↔ is_Some (distances w !! k))
  ∧ (is_Some (times w' !! k) ↔ is_Some (times w !! k))
  ∧ (is_Some (matchings w' !! k) ↔ is_Some (matchings w !! k)).
Proof.
  simpl. rewrite store_result_unfold.
  set (first := match distance with RTuple _ _ => _ | _ => _ end).
  assert (distances first.2 = distances w ∧ times first.2 = times w
          ∧ (is_Some (matchings first.2 !! k) ↔ is_Some (matchings w !! k)))
    as (Hd1 & Ht1 & Hm1).
  { subst first. destruct distance as [| |x matching]; simpl; try done.
    split; [|split].
    - by apply (unchanged_store_matching distances).
    - by apply (unchanged_store_matching times).
    - apply store_matching_rows. }
  clearbody first.
  destruct first as [[[]|e] w1]; simpl in Hd1, Ht1, Hm1 |- *;
    [|by rewrite Hd1, Ht1, Hm1].
  pose proof (store_mirrored_rows distances set_distances (λ _ _, eq_refl)
                i j (distance_of distance) w1 k) as Hd2.
  pose proof (unchanged_store_mirrored times distances set_distances
                i j (distance_of distance) (λ _ _, eq_refl) w1) as Ht2.
  pose proof (unchanged_store_mirrored matchings distances set_distances
                i j (distance_of distance) (λ _ _, eq_refl) w1) as Hm2.
  destruct (store_mirrored distances set_distances i j _ w1)
    as [[[]|e] w2]; simpl in Hd2, Ht2, Hm2; cbn [fst snd];
    [|by rewrite Hd2, Ht2, Hm2, Hd1, Ht1, Hm1].
  set (elapsed := fsub _ _).
  pose proof (store_mirrored_rows times set_times (λ _ _, eq_refl)
                i j elapsed (tick w2) k) as Ht3.
  rewrite (unchanged_store_mirrored distances times set_times
             i j elapsed (λ _ _, eq_refl) (tick w2)).
  rewrite (unchanged_store_mirrored matchings times set_times
             i j elapsed (λ _ _, eq_refl) (tick w2)).
  rewrite Ht3. simpl. by rewrite Hd2, Ht2, Hm2, Hd1, Ht1, Hm1.
Qed.

Lemma step_other_cells s exp pair a b :
  ¬ hits pair a b →
  ∀ d t m,
    keeps (λ w, cell (distances w) a b = d ∧ cell (times w) a b = t
                ∧ cell (matchings w) a b = m)
      (step s exp pair).
Proof.
  intros Hhits d t m w Hw. rewrite step_unfold.
  destruct (dispatch_matrices s exp pair.1 pair.2 (tick w))
    as (Hd & Hm & Ht).
  destruct (dispatch s exp pair.1 pair.2 (tick w)) as [[distance|e] w1];
    simpl in Hd, Hm, Ht |- *; [|by rewrite Hd, Hm, Ht].
  destruct (store_result_other_cells pair.1 pair.2 (clock w (ticks w))
              distance w1 a b) as (Hd' & Ht' & Hm'); [by destruct pair|].
  simpl in Hd', Ht', Hm'. by rewrite Hd', Ht', Hm', Hd, Hm, Ht.
Qed.

Lemma step_rows s exp pair k (d t m : Prop) :
  keeps (λ w, (is_Some (distances w !! k) ↔ d)
              ∧ (is_Some (times w !! k) ↔ t)
              ∧ (is_Some (matchings w !! k) ↔ m))
    (step s exp pair).
Proof.
  intros w Hw. rewrite step_unfold.
  destruct (dispatch_matrices s exp pair.1 pair.2 (tick w))
    as (Hd & Hm & Ht).
  destruct (dispatch s exp pair.1 pair.2 (tick w)) as [[distance|e] w1];
    simpl in Hd, Hm, Ht |- *; [|by rewrite Hd, Hm, Ht].
  destruct (store_result_rows pair.1 pair.2 (clock w (ticks w))
              distance w1 k) as (Hd' & Ht' & Hm').
  simpl in Hd', Ht', Hm'. by rewrite Hd', Ht', Hm', Hd, Hm, Ht.
Qed.

Lemma loop_other_cells s exp instances_ids a b :
  Forall (λ pair, ¬ hits pair a b) instances_ids →
  ∀ d t m,
    keeps (λ w, cell (distances w) a b = d ∧ cell (times w) a b = t
                ∧ cell (matchings w) a b = m)
      (loop s exp instances_ids).
Proof.
  intros Hids d t m. apply keeps_for_each_Forall.
  eapply Forall_impl; [done|]. intros pair Hpair.
  by apply step_other_cells.
Qed.

Lemma run_matrices s exp instances_ids w :
  distances (run s exp instances_ids w).2
  = distances (loop s exp instances_ids w).2
  ∧ times (run s exp instances_ids w).2
    = times (loop s exp instances_ids w).2
  ∧ matchings (run s exp instances_ids w).2
    = matchings (loop s exp instances_ids w).2.
Proof.
  destruct (run_loop s exp instances_ids w) as [_ Hrun].
  repeat split; by apply Hrun.
Qed.

(** X9.  A run writes to the cells of its pairs only: a cell that is neither
    [(i, j)] nor [(j, i)] for a pair [(i, j)] of the list holds after the
    run, in each of the three matrices, what it held before, however the
    run ends. *)
Theorem other_cells_are_left_alone s exp instances_ids w a b :
  Forall (λ pair, ¬ hits pair a b) instances_ids →
  let w' := (run s exp instances_ids w).2 in
  cell (distances w') a b = cell (distances w) a b
  ∧ cell (times w') a b = cell (times w) a b
  ∧ cell (matchings w') a b = cell (matchings w) a b.
Proof.
  intros Hids. simpl.
  destruct (run_matrices s exp instances_ids w) as (-> & -> & ->).
  by apply (loop_other_cells s exp instances_ids a b Hids).
Qed.

Lemma loop_rows s exp instances_ids w k :
  let w' := (loop s exp instances_ids w).2 in
  (is_Some (distances w' !! k) ↔ is_Some (distances w !! k))
  ∧ (is_Some (times w' !! k) ↔ is_Some (times w !! k))
  ∧ (is_Some (matchings w' !! k) ↔ is_Some (matchings w !! k)).
Proof.
  apply (keeps_for_each (λ w', (is_Some (distances w' !! k) ↔ _)
                               ∧ (is_Some (times w' !! k) ↔ _)
                               ∧ (is_Some (matchings w' !! k) ↔ _)));
    [|done].
  intros pair. apply step_rows.
Qed.

(** X10.  A run never adds a row to a matrix and never removes one, however it
    ends: the schedulers only assign to cells of rows that exist. *)
Theorem rows_are_never_created s exp instances_ids w k :
  let w' := (run s exp instances_ids w).2 in
  (is_Some (distances w' !! k) ↔ is_Some (distances w !! k))
  ∧ (is_Some (times w' !! k) ↔ is_Some (times w !! k))
  ∧ (is_Some (matchings w' !! k) ↔ is_Some (matchings w !! k)).
Proof.
  simpl. destruct (run_matrices s exp instances_ids w) as (-> & -> & ->).
  apply loop_rows.
Qed.

End RunFrames.

(** ** What a run records *)

Section RunRecords.
Context `{Collaborators}.

Lemma set_heap_same w : set_heap (heap w) w = w.
Proof. by destruct w. Qed.

(** The call of [get_distance] that a scheduler makes for a pair: an
    exception before the call (a missing instance), or the call on two
    elections, which are the stored instances themselves when the scheduler
    makes no copies. *)
Lemma dispatch_cases s exp i j w :
  (∃ e h, dispatch s exp i j w = (Raise e, set_heap h w))
  ∨ ∃ election_1 election_2 h,
      dispatch s exp i j w
      = get_distance election_1 election_2 (distance_id exp) (set_heap h w)
      ∧ (copies s = false →
         instances exp !! i = Some election_1
         ∧ instances exp !! j = Some election_2
         ∧ h = heap w).
Proof.
  rewrite dispatch_single.
  destruct (instances exp !! i) as [x1|] eqn:Hi; last first.
  { left. exists (KeyError i), (heap w). rewrite set_heap_same.
    unfold single_process_dispatch.
    destruct (copies s); rewrite bind_unfold; unfold lift, getitem;
      by rewrite Hi. }
  destruct (copies s) eqn:Hcopies; unfold single_process_dispatch.
  - destruct (heap w !! x1) as [o1|] eqn:Ho1; last first.
    { left. exists (SystemError "dangling reference"), (heap w).
      rewrite set_heap_same, bind_unfold. unfold lift, getitem.
      rewrite Hi, bind_unfold. unfold deepcopy. by rewrite Ho1. }
    set (w1 := set_heap (<[fresh (dom (heap w)) := o1]> (heap w)) w).
    destruct (instances exp !! j) as [x2|] eqn:Hj; last first.
    { left. exists (KeyError j), (heap w1).
      rewrite bind_unfold. unfold lift, getitem.
      rewrite Hi, bind_unfold, (deepcopy_run x1 o1) by done.
      rewrite bind_unfold. by rewrite Hj. }
    destruct (heap w1 !! x2) as [o2|] eqn:Ho2; last first.
    { left. exists (SystemError "dangling reference"), (heap w1).
      rewrite bind_unfold. unfold lift, getitem.
      rewrite Hi, bind_unfold, (deepcopy_run x1 o1) by done.
      rewrite bind_unfold, Hj, bind_unfold. unfold deepcopy. fold w1.
      by rewrite Ho2. }
    right.
    exists (fresh (dom (heap w))), (fresh (dom (heap w1))),
      (<[fresh (dom (heap w1)) := o2]> (heap w1)).
    split; [|done].
    rewrite bind_unfold. unfold lift, getitem.
    rewrite Hi, bind_unfold, (deepcopy_run x1 o1) by done.
    rewrite bind_unfold, Hj, bind_unfold. fold w1.
    by rewrite (deepcopy_run x2 o2).
  - destruct (instances exp !! j) as [x2|] eqn:Hj; last first.
    { left. exists (KeyError j), (heap w). rewrite set_heap_same.
      rewrite bind_unfold. unfold lift, getitem.
      rewrite Hi, bind_unfold. by rewrite Hj. }
    right. exists x1, x2, (heap w). rewrite set_heap_same.
    split; [|done].
    rewrite bind_unfold. unfold lift, getitem.
    rewrite Hi, bind_unfold. by rewrite Hj.
Qed.

(** What the call of [get_distance] for a pair adds to the warnings and to
    the record of calls: nothing when it raises before a metric is called,
    one warning when it gives up, one call otherwise. *)
Lemma dispatch_record s exp i j w :
  let r := dispatch s exp i j w in
  (∃ e, r.1 = Raise e ∧ calls r.2 = calls w ∧ warnings r.2 = warnings w)
  ∨ (∃ msg, r.1 = Ok RNone ∧ calls r.2 = calls w
            ∧ warnings r.2 = (warnings w ++ [msg])%list)
  ∨ (∃ ev, calls r.2 = (calls w ++ [ev])%list
           ∧ warnings r.2 = warnings w
           ∧ (copies s = false →
              instances exp !! i = Some (ev_args ev).1
              ∧ instances exp !! j = Some (ev_args ev).2)).
Proof.
  simpl.
  destruct (dispatch_cases s exp i j w)
    as [(e & h & ->)|(a1 & a2 & h & -> & Hstored)]; [left; by exists e|].
  destruct (get_distance_cases a1 a2 (distance_id exp) (set_heap h w))
    as [[e ->]|[[msg ->]|(family & name & function & arg & _ & _ & ->)]].
  - left. by exists e.
  - right. left. by exists msg.
  - right. right. rewrite call_metric_unfold. eexists. repeat split.
    + by apply Hstored.
    + by apply Hstored.
Qed.

Lemma step_record s exp pair w :
  let d := dispatch s exp pair.1 pair.2 (tick w) in
  let r := step s exp pair w in
  calls r.2 = calls d.2 ∧ warnings r.2 = warnings d.2
  ∧ (r.1 = Ok tt → ∃ distance, d.1 = Ok distance).
Proof.
  simpl. rewrite step_unfold.
  destruct (dispatch s exp pair.1 pair.2 (tick w)) as [[distance|e] w1];
    simpl; [|done].
  repeat split.
  - by apply (unchanged_store_result calls).
  - by apply (unchanged_store_result warnings).
  - by exists distance.
Qed.

(** The time that [store_result] stores, and the clock after it. *)
Lemma store_result_times i j start_time distance w w' :
  store_result i j start_time distance w = (Ok tt, w') →
  let elapsed := fsub (clock w (ticks w)) start_time in
  cell (times w') i j = Some elapsed ∧ cell (times w') j i = Some elapsed
  ∧ clock w' = clock w ∧ ticks w' = S (ticks w).
Proof.
  rewrite store_result_unfold.
  set (first := match distance with RTuple _ _ => _ | _ => _ end).
  assert ((clock first.2, ticks first.2) = (clock w, ticks w)) as Hc1.
  { subst first. destruct distance as [| |x matching]; simpl; try done.
    by apply (unchanged_store_matching (λ w, (clock w, ticks w))). }
  clearbody first. destruct first as [[[]|e] w1]; simpl in Hc1; [|done].
  pose proof (unchanged_store_mirrored (λ w, (clock w, ticks w))
                distances set_distances i j (distance_of distance)
                (λ _ _, eq_refl) w1) as Hc2.
  destruct (store_mirrored distances set_distances i j _ w1)
    as [[[]|e] w2]; simpl in Hc2; [|done].
  assert (clock w2 = clock w ∧ ticks w2 = ticks w) as [Hclock Hticks]
    by (split; congruence).
  rewrite Hclock, Hticks. intros Hstored elapsed.
  pose proof (unchanged_store_mirrored (λ w, (clock w, ticks w))
                times set_times i j elapsed (λ _ _, eq_refl) (tick w2))
    as Hc3.
  fold elapsed in Hstored. rewrite Hstored in Hc3. simpl in Hc3.
  apply (store_mirrored_ok times set_times (λ _ _, eq_refl)) in Hstored
    as [Hij Hji].
  repeat split; [done|done|congruence|congruence].
Qed.

(** A pair that has been processed holds what the dispatcher returned, and
    the time between the two readings of the clock. *)
Lemma step_recorded s exp pair w w1 w' distance :
  dispatch s exp pair.1 pair.2 (tick w) = (Ok distance, w1) →
  step s exp pair w = (Ok tt, w') →
  let elapsed := fsub (clock w (S (ticks w))) (clock w (ticks w)) in
  (cell (distances w') pair.1 pair.2 = Some (distance_of distance)
   ∧ cell (distances w') pair.2 pair.1 = Some (distance_of distance))
  ∧ (cell (times w') pair.1 pair.2 = Some elapsed
     ∧ cell (times w') pair.2 pair.1 = Some elapsed)
  ∧ clock w' = clock w ∧ ticks w' = S (S (ticks w)).
Proof.
  intros Hdispatch. rewrite step_unfold, Hdispatch. intros Hstored.
  pose proof (unchanged_dispatch_clock (λ w, (clock w, ticks w)) s exp
                pair.1 pair.2 beside_metrics_clock (tick w)) as Hclock.
  rewrite Hdispatch in Hclock. simpl in Hclock.
  injection Hclock as Hclock Hticks.
  destruct (store_result_ok _ _ _ _ _ _ Hstored) as [Hdistances _].
  apply store_result_times in Hstored as (Hij & Hji & Hclock' & Hticks').
  rewrite Hclock, Hticks in Hij, Hji.
  intros elapsed. destruct Hdistances as [? ?].
  repeat split; try done; congruence.
Qed.

Lemma not_hits_either pair i j :
  pair ≠ (i, j) → pair ≠ (j, i) → ¬ hits pair i j ∧ ¬ hits pair j i.
Proof.
  destruct pair as [a b]. intros Hij Hji.
  split; intros [[-> ->]|[-> ->]]; done.
Qed.

(** X11.  The distance and the time of a pair after the run: what the dispatcher
    returned for the pair, [None] included, and the time between the two
    readings of the clock that frame the call, in both cells, when no later
    pair of the list addresses the same cells; however the rest of the run
    ends. *)
Theorem pair_is_recorded s exp done rest w w1 w2 i j distance :
  loop s exp done w = (Ok tt, w1) →
  dispatch s exp i j (tick w1) = (Ok distance, w2) →
  (step s exp (i, j) w1).1 = Ok tt →
  Forall (λ pair, pair ≠ (i, j) ∧ pair ≠ (j, i)) rest →
  let w' := (run s exp (done ++ (i, j) :: rest) w).2 in
  let elapsed := fsub (clock w1 (S (ticks w1))) (clock w1 (ticks w1)) in
  cell (distances w') i j = Some (distance_of distance)
  ∧ cell (distances w') j i = Some (distance_of distance)
  ∧ cell (times w') i j = Some elapsed
  ∧ cell (times w') j i = Some elapsed.
Proof.
  intros Hdone Hdispatch Hstep Hrest. simpl.
  destruct (run_matrices s exp (done ++ (i, j) :: rest) w) as (-> & -> & _).
  unfold loop. rewrite for_each_app.
  change (for_each (step s exp) done w) with (loop s exp done w).
  rewrite Hdone.
  change (for_each (step s exp) ((i, j) :: rest) w1)
    with (loop s exp ((i, j) :: rest) w1).
  rewrite loop_cons.
  destruct (step s exp (i, j) w1) as [[[]|e] w3] eqn:Hw3; [|done].
  destruct (step_recorded s exp (i, j) w1 w2 w3 distance Hdispatch Hw3)
    as ((Hd1 & Hd2) & (Ht1 & Ht2) & _).
  simpl in Hd1, Hd2, Ht1, Ht2.
  assert (Forall (λ pair, ¬ hits pair i j) rest) as Hij.
  { eapply Forall_impl; [exact Hrest|]. intros pair [? ?]. simpl.
    by apply not_hits_either. }
  assert (Forall (λ pair, ¬ hits pair j i) rest) as Hji.
  { eapply Forall_impl; [exact Hrest|]. intros pair [? ?]. simpl.
    by apply not_hits_either. }
  destruct (loop_other_cells s exp rest i j Hij _ _ _ w3
              (conj Hd1 (conj Ht1 eq_refl))) as (? & ? & _).
  destruct (loop_other_cells s exp rest j i Hji _ _ _ w3
              (conj Hd2 (conj Ht2 eq_refl))) as (? & ? & _).
  done.
Qed.

Lemma loop_record s exp instances_ids w w' :
  loop s exp instances_ids w = (Ok tt, w') →
  (∃ new_calls new_warnings,
     calls w' = (calls w ++ new_calls)%list
     ∧ warnings w' = (warnings w ++ new_warnings)%list
     ∧ length new_calls + length new_warnings = length instances_ids)
  ∧ clock w' = clock w
  ∧ ticks w' = ticks w + 2 * length instances_ids.
Proof.
  revert w. induction instances_ids as [|pair ids IH]; intros w.
  - intros [= <-]. split; [|split; [done|simpl; lia]].
    exists [], []. by rewrite !app_nil_r.
  - rewrite loop_cons.
    destruct (step s exp pair w) as [[[]|e] w1] eqn:Hstep; [|done].
    intros Hloop.
    destruct (IH _ Hloop)
      as ((new_calls & new_warnings & Hcalls & Hwarnings & Hlength)
          & Hclock & Hticks).
    destruct (step_record s exp pair w) as (Hc & Hw & Hok). simpl in *.
    rewrite Hstep in Hc, Hw, Hok. simpl in Hc, Hw.
    destruct (Hok eq_refl) as [distance Hdistance].
    destruct (dispatch s exp pair.1 pair.2 (tick w)) as [r w0] eqn:Hdispatch.
    simpl in Hdistance. subst r.
    destruct (step_recorded s exp pair w w0 w1 distance Hdispatch Hstep)
      as (_ & _ & Hclock1 & Hticks1).
    split; [|split; [congruence|lia]].
    destruct (dispatch_record s exp pair.1 pair.2 (tick w))
      as [(e & He & _)|[(msg & _ & Hc' & Hw')|(ev & Hc' & Hw' & _)]];
      rewrite Hdispatch in *; simpl in *; [done| |].
    + exists new_calls, (msg :: new_warnings).
      rewrite Hcalls, Hwarnings, Hc, Hw, Hc', Hw', <- app_assoc.
      repeat split; simpl; lia.
    + exists (ev :: new_calls), new_warnings.
      rewrite Hcalls, Hwarnings, Hc, Hw, Hc', Hw', <- app_assoc.
      repeat split; simpl; lia.
Qed.

(** X12.  A run that completes has, for every pair of its list, either called
    one metric or logged one warning, and never both: the calls and the
    warnings it adds are as many as the pairs; and it has read the clock
    twice for every pair. *)
Theorem every_pair_is_a_call_or_a_warning s exp instances_ids w :
  (run s exp instances_ids w).1 = Ok tt →
  let w' := (run s exp instances_ids w).2 in
  (∃ new_calls new_warnings,
     calls w' = (calls w ++ new_calls)%list
     ∧ warnings w' = (warnings w ++ new_warnings)%list
     ∧ length new_calls + length new_warnings = length instances_ids)
  ∧ ticks w' = ticks w + 2 * length instances_ids.
Proof.
  destruct (run_loop s exp instances_ids w) as [Hrun Hproj].
  rewrite Hrun. intros Hloop. simpl.
  rewrite (Hproj _ calls), (Hproj _ warnings), (Hproj _ ticks) by done.
  destruct (loop s exp instances_ids w) as [[[]|e] w'] eqn:Hw'; [|done].
  by destruct (loop_record s exp instances_ids w w' Hw') as (? & _ & ?).
Qed.

(** X13.  The pair on which a run fails is its last: the exception leaves the
    scheduler with the world as the failing pair left it, the pairs after it
    are not processed, and [run_multiple_processes] exports nothing. *)
Theorem failing_pair_ends_the_run s exp done pair rest w w1 w2 e :
  loop s exp done w = (Ok tt, w1) →
  step s exp pair w1 = (Raise e, w2) →
  run s exp (done ++ pair :: rest) w = (Raise e, w2).
Proof.
  intros Hdone Hstep.
  assert (loop s exp (done ++ pair :: rest) w = (Raise e, w2)) as Hloop.
  { unfold loop. rewrite for_each_app.
    change (for_each (step s exp) done w) with (loop s exp done w).
    rewrite Hdone.
    change (for_each (step s exp) (pair :: rest) w1)
      with (loop s exp (pair :: rest) w1).
    by rewrite loop_cons, Hstep. }
  destruct s as [safe_mode|process_id]; [done|].
  unfold run, run_multiple_processes. rewrite bind_unfold.
  change (for_each (multiple_processes_step exp) (done ++ pair :: rest) w)
    with (loop (MultipleProcesses process_id) exp (done ++ pair :: rest) w).
  by rewrite Hloop.
Qed.

(** X14.  When the call of [get_distance] for a pair raises, be it the parser, a
    missing instance or the metric, the exception leaves the body of the
    loop at once: no cell of the pair has been written, and the clock has
    been read once. *)
Theorem failed_dispatch_writes_nothing s exp pair w e :
  (dispatch s exp pair.1 pair.2 (tick w)).1 = Raise e →
  let r := step s exp pair w in
  r.1 = Raise e
  ∧ distances r.2 = distances w
  ∧ times r.2 = times w
  ∧ matchings r.2 = matchings w
  ∧ ticks r.2 = S (ticks w).
Proof.
  intros Hraise. simpl. rewrite step_unfold.
  destruct (dispatch_matrices s exp pair.1 pair.2 (tick w))
    as (Hd & Hm & Ht).
  pose proof (unchanged_dispatch_clock ticks s exp pair.1 pair.2) as Hticks.
  specialize (Hticks ltac:(by repeat split) (tick w)).
  destruct (dispatch s exp pair.1 pair.2 (tick w)) as [[distance|e'] w1];
    simpl in *; [done|].
  by injection Hraise as ->.
Qed.

(** X15.  [run_single_process] never exports; [run_multiple_processes] hands its
    pair list and its number to the export once, after the loop, when the
    experiment is exported and the loop has completed, the empty list
    included, and not at all otherwise. *)
Theorem export_follows_a_completed_loop exp instances_ids safe_mode
    process_id w :
  exported (run_single_process exp instances_ids safe_mode w).2 = exported w
  ∧ exported (run_multiple_processes exp instances_ids process_id w).2
    = match (run_multiple_processes exp instances_ids process_id w).1 with
      | Ok _ =>
          if is_exported exp
          then (process_id, instances_ids) :: exported w
          else exported w
      | Raise _ => exported w
      end.
Proof.
  assert (∀ safe_mode,
            exported (run_single_process exp instances_ids safe_mode w).2
            = exported w) as Hsingle.
  { intros safe_mode'. apply unchanged_for_each. intros pair.
    by apply unchanged_single_process_step. }
  split; [apply Hsingle|].
  rewrite run_multiple_processes_unfold.
  specialize (Hsingle true).
  destruct (run_single_process exp instances_ids true w) as [[[]|e] w1];
    simpl in *; [|done].
  destruct (is_exported exp); simpl; by rewrite Hsingle.
Qed.

Lemma step_calls_stored exp pair w :
  let w' := (step (SingleProcess false) exp pair w).2 in
  calls w' = calls w
  ∨ ∃ ev, calls w' = (calls w ++ [ev])%list
          ∧ instances exp !! pair.1 = Some (ev_args ev).1
          ∧ instances exp !! pair.2 = Some (ev_args ev).2.
Proof.
  destruct (step_record (SingleProcess false) exp pair w) as (Hc & _ & _).
  simpl in *. rewrite Hc.
  destruct (dispatch_record (SingleProcess false) exp pair.1 pair.2 (tick w))
    as [(e & _ & Hc' & _)|[(msg & _ & Hc' & _)|(ev & Hc' & _ & Hstored)]];
    simpl in *; [by left|by left|].
  right. exists ev. split; [done|]. by apply Hstored.
Qed.

(** X16.  Without safe mode every metric call of [run_single_process] is made on
    the stored instances themselves: the two arguments of each call are
    the instances that a pair of the list names, so that what a metric
    writes into its arguments stays in the experiment. *)
Theorem without_safe_mode_metrics_get_the_instances exp instances_ids w :
  ∃ new,
    calls (run_single_process exp instances_ids false w).2
    = (calls w ++ new)%list
    ∧ Forall (on_stored_instances exp instances_ids) new.
Proof.
  revert w. induction instances_ids as [|pair ids IH]; intros w.
  - exists []. by rewrite app_nil_r.
  - rewrite run_single_process_cons.
    assert (∀ new, Forall (on_stored_instances exp ids) new →
              Forall (on_stored_instances exp (pair :: ids)) new) as Hmore.
    { intros new Hnew. eapply Forall_impl; [exact Hnew|].
      intros ev (i & j & Hin & Hi & Hj).
      exists i, j. split; [by apply list_elem_of_further|done]. }
    pose proof (step_calls_stored exp pair w) as Hstep. simpl in Hstep.
    destruct (single_process_step exp false pair w) as [[[]|e] w1];
      simpl in Hstep |- *.
    + destruct (IH w1) as (new & -> & Hnew).
      destruct Hstep as [->|(ev & -> & Hi & Hj)].
      * exists new. split; [done|]. by apply Hmore.
      * exists (ev :: new). rewrite <- app_assoc. split; [done|].
        constructor; [|by apply Hmore].
        exists pair.1, pair.2. split; [|done].
        destruct pair. apply list_elem_of_here.
    + destruct Hstep as [->|(ev & -> & Hi & Hj)].
      * exists []. by rewrite app_nil_r.
      * exists [ev]. split; [done|]. constructor; [|constructor].
        exists pair.1, pair.2. split; [|done].
        destruct pair. apply list_elem_of_here.
Qed.

(** X17.  A pair of an instance with itself has one cell: it ends with the
    distance, and with the [argsort] of the matching and not with the
    matching, since the second assignment overwrites the first. *)
Theorem pair_of_an_instance_with_itself s exp i w w' :
  step s exp (i, i) w = (Ok tt, w') →
  ∃ distance,
    (dispatch s exp i i (tick w)).1 = Ok distance
    ∧ cell (distances w') i i = Some (distance_of distance)
    ∧ cell (matchings w') i i
      = match distance with
        | RTuple _ matching => Some (argsort matching)
        | _ => cell (matchings w) i i
        end.
Proof.
  intros (distance & Hdispatch & _ & _ & _ & _ & Hd & Hm)%step_written.
  exists distance. split; [done|]. split.
  - rewrite Hd. rewrite decide_True; [done|]. by left.
  - rewrite Hm. unfold matching_cell. destruct distance; try done.
    by rewrite decide_True.
Qed.

(** X18.  A row that is missing for the second instance is found out too late:
    when the distances have a row for [i] and none for [j], and the
    dispatcher returns no matching, the step raises [KeyError] for [j] with
    [distances[i][j]] already written and nothing in its mirror cell; the
    times are not written. *)
Theorem missing_row_leaves_half_a_pair s exp i j w w1 distance row :
  dispatch s exp i j (tick w) = (Ok distance, w1) →
  (∀ x matching, distance ≠ RTuple x matching) →
  distances w !! i = Some row →
  distances w !! j = None →
  ∃ w',
    step s exp (i, j) w = (Raise (KeyError j), w')
    ∧ cell (distances w') i j = Some (distance_of distance)
    ∧ cell (distances w') j i = None
    ∧ times w' = times w
    ∧ matchings w' = matchings w.
Proof.
  intros Hdispatch Hscalar Hi Hj.
  assert (i ≠ j) as Hij by (intros ->; congruence).
  rewrite step_unfold. simpl.
  destruct (dispatch_matrices s exp i j (tick w)) as (Hd & Hm & Ht).
  rewrite Hdispatch in *. simpl in Hd, Hm, Ht.
  rewrite store_result_unfold.
  assert (match distance with
          | RTuple _ matching =>
              (store2 matchings set_matchings i j matching;;
               store2 matchings set_matchings j i (argsort matching)) w1
          | _ => (Ok tt, w1)
          end = (Ok tt, w1)) as ->.
  { destruct distance as [| |x matching]; try done.
    by destruct (Hscalar x matching). }
  rewrite (store_mirrored_unfold distances set_distances (λ _ _, eq_refl)).
  unfold setitem2 at 1, getitem. rewrite Hd, Hi. simpl.
  unfold setitem2, getitem. rewrite lookup_insert_ne, Hj by done. simpl.
  eexists. split; [done|]. simpl. unfold cell.
  rewrite lookup_insert_eq, lookup_insert_ne, Hj by done. simpl.
  by rewrite lookup_insert_eq.
Qed.

Lemma dispatch_missing_run s exp i j w :
  instances exp !! i = None
  ∨ (∃ election_1, instances exp !! i = Some election_1
                   ∧ is_Some (heap w !! election_1))
    ∧ instances exp !! j = None →
  ∃ key h,
    dispatch s exp i j w = (Raise (KeyError key), set_heap h w)
    ∧ (instances exp !! i = None → key = i)
    ∧ (is_Some (instances exp !! i) → key = j).
Proof.
  intros Hmissing. rewrite dispatch_single.
  unfold single_process_dispatch.
  destruct Hmissing as [Hi|[(x1 & Hi & [o1 Ho1]) Hj]].
  - exists i, (heap w). rewrite set_heap_same.
    split; [|split; [done|rewrite Hi; by intros [? ?]]].
    destruct (copies s); rewrite bind_unfold; unfold lift, getitem;
      by rewrite Hi.
  - destruct (copies s).
    + exists j. eexists. split; [|split; [congruence|done]].
      rewrite bind_unfold. unfold lift, getitem.
      rewrite Hi, bind_unfold, (deepcopy_run x1 o1) by done.
      rewrite bind_unfold. by rewrite Hj.
    + exists j, (heap w). rewrite set_heap_same.
      split; [|split; [congruence|done]].
      rewrite bind_unfold. unfold lift, getitem.
      rewrite Hi, bind_unfold. by rewrite Hj.
Qed.

(** X19.  A pair that names an instance the experiment does not have raises
    [KeyError] with that name before any election is handed to a metric:
    the first name is looked up first; nothing is logged, called or
    written, and the clock has been read once. *)
Theorem unknown_instance_raises_key_error s exp i j w :
  instances exp !! i = None
  ∨ (∃ election_1, instances exp !! i = Some election_1
                   ∧ is_Some (heap w !! election_1))
    ∧ instances exp !! j = None →
  ∃ key h,
    step s exp (i, j) w = (Raise (KeyError key), set_heap h (tick w))
    ∧ (instances exp !! i = None → key = i)
    ∧ (is_Some (instances exp !! i) → key = j).
Proof.
  intros Hmissing.
  destruct (dispatch_missing_run s exp i j (tick w) Hmissing)
    as (key & h & Hdispatch & Hkey).
  exists key, h. split; [|done].
  rewrite step_unfold. simpl. by rewrite Hdispatch.
Qed.

End RunRecords.

(** ** One worker and many *)

Section Copying.
Context {V : Type}.
Implicit Types source target before after d : gmap string (gmap string V).

Lemma copy_cell_rows source i j target k :
  is_Some (copy_cell source i j target !! k) ↔ is_Some (target !! k).
Proof.
  unfold copy_cell.
  destruct (cell source i j) as [v|]; [|done].
  destruct (target !! i) as [row|] eqn:Hrow; [|done].
  destruct (decide (k = i)) as [->|Hk].
  - rewrite lookup_insert_eq, Hrow. split; eauto.
  - by rewrite lookup_insert_ne.
Qed.

Lemma copy_cell_other source i j target a b :
  ¬ (a = i ∧ b = j) →
  cell (copy_cell source i j target) a b = cell target a b.
Proof.
  intros Hab. unfold copy_cell.
  destruct (cell source i j) as [v|]; [|done].
  destruct (target !! i) as [row|] eqn:Hrow; [|done].
  rewrite (cell_setitem2 target i j v _ a b).
  - by rewrite decide_False.
  - apply setitem2_ok. by exists row.
Qed.

Lemma copy_cell_there source i j target v row :
  cell source i j = Some v → target !! i = Some row →
  cell (copy_cell source i j target) i j = Some v.
Proof.
  intros Hv Hrow. unfold copy_cell. rewrite Hv, Hrow.
  rewrite (cell_setitem2 target i j v _ i j).
  - by rewrite decide_True.
  - apply setitem2_ok. by exists row.
Qed.

Lemma copy_cell_absent source i j target :
  cell source i j = None → copy_cell source i j target = target.
Proof. intros Hv. unfold copy_cell. by rewrite Hv. Qed.

(** Copying a cell that the worker has right keeps the matrix between the
    two, puts the cell right, and leaves right what was right. *)
Lemma copy_cell_between before after source i j d :
  (∀ a b, cell after a b = None → cell before a b = None) →
  cell source i j = cell after i j →
  between before after d →
  between before after (copy_cell source i j d)
  ∧ ∀ a b,
      (a = i ∧ b = j) ∨ cell d a b = cell after a b →
      cell (copy_cell source i j d) a b = cell after a b.
Proof.
  intros Hstay Hsource [Hrows Hcells].
  assert (cell (copy_cell source i j d) i j = cell after i j) as Hij.
  { destruct (cell source i j) as [v|] eqn:Hv.
    - assert (is_Some (d !! i)) as [row Hrow].
      { apply Hrows. apply (cell_is_Some_row after i j).
        rewrite <- Hsource. eauto. }
      by rewrite (copy_cell_there source i j d v row).
    - rewrite copy_cell_absent by done.
      destruct (Hcells i j) as [-> | ->]; [done|].
      symmetry in Hsource. by rewrite Hsource, (Hstay i j). }
  assert (∀ a b, cell d a b = cell after a b →
            cell (copy_cell source i j d) a b = cell after a b) as Hright.
  { intros a b Hab.
    destruct (decide (a = i ∧ b = j)) as [[-> ->]|Hne]; [done|].
    by rewrite copy_cell_other. }
  split; [split|].
  - intros k. by rewrite copy_cell_rows.
  - intros a b.
    destruct (decide (a = i ∧ b = j)) as [[-> ->]|Hne]; [by left|].
    rewrite copy_cell_other by done. apply Hcells.
  - intros a b [[-> ->]|Hab]; [done|by apply Hright].
Qed.

Lemma copy_pairs_between before after source instances_ids d :
  (∀ a b, cell after a b = None → cell before a b = None) →
  Forall (copied_right source after) instances_ids →
  between before after d →
  between before after (copy_pairs source instances_ids d)
  ∧ ∀ a b,
      Exists (λ pair, hits pair a b) instances_ids
      ∨ cell d a b = cell after a b →
      cell (copy_pairs source instances_ids d) a b = cell after a b.
Proof.
  intros Hstay Hsource. revert d.
  induction Hsource as [|pair ids [H12 H21] _ IH]; intros d Hd.
  { split; [done|]. by intros a b [?%Exists_nil|?]. }
  destruct (copy_cell_between before after source pair.1 pair.2 d
              Hstay H12 Hd) as [Hd1 Hright1].
  destruct (copy_cell_between before after source pair.2 pair.1 _
              Hstay H21 Hd1) as [Hd2 Hright2].
  destruct (IH _ Hd2) as [Hd' Hright'].
  split; [done|]. intros a b Hab. apply Hright'.
  destruct Hab as [[Hhit|Hlater]%Exists_cons|Hab]; [|by left|].
  - right. destruct Hhit as [[-> ->]|[-> ->]].
    + apply Hright2. right. apply Hright1. by left.
    + apply Hright2. by left.
  - right. apply Hright2. right. apply Hright1. by right.
Qed.

Lemma copy_jobs_between {X} (matrix : X → gmap string (gmap string V))
    before after (jobs : list (list (string * string) * X)) d :
  (∀ a b, cell after a b = None → cell before a b = None) →
  Forall (λ job, Forall (copied_right (matrix job.2) after) job.1) jobs →
  between before after d →
  ∀ a b,
    Exists (λ job, Exists (λ pair, hits pair a b) job.1) jobs
    ∨ cell d a b = cell after a b →
    cell (foldl (λ target job, copy_pairs (matrix job.2) job.1 target) d
            jobs) a b
    = cell after a b.
Proof.
  intros Hstay Hjobs. revert d.
  induction Hjobs as [|job jobs Hjob _ IH]; intros d Hd a b Hab.
  { by destruct Hab as [?%Exists_nil|?]. }
  destruct (copy_pairs_between before after (matrix job.2) job.1 d Hstay
              Hjob Hd) as [Hd' Hright].
  simpl. apply (IH _ Hd').
  destruct Hab as [[Hhit|Hlater]%Exists_cons|Hab]; [|by left|].
  - right. apply Hright. by left.
  - right. apply Hright. by right.
Qed.

Lemma copy_pairs_cons source pair instances_ids d :
  copy_pairs source (pair :: instances_ids) d
  = copy_pairs source instances_ids
      (copy_cell source pair.2 pair.1 (copy_cell source pair.1 pair.2 d)).
Proof. reflexivity. Qed.

Lemma copy_pairs_rows source instances_ids d k :
  is_Some (copy_pairs source instances_ids d !! k) ↔ is_Some (d !! k).
Proof.
  revert d. induction instances_ids as [|pair ids IH]; intros d; [done|].
  by rewrite copy_pairs_cons, IH, !copy_cell_rows.
Qed.

Lemma copy_jobs_rows {X} (matrix : X → gmap string (gmap string V))
    (jobs : list (list (string * string) * X)) d k :
  is_Some (foldl (λ target job, copy_pairs (matrix job.2) job.1 target) d
             jobs !! k)
  ↔ is_Some (d !! k).
Proof.
  revert d. induction jobs as [|job jobs IH]; intros d; [done|].
  simpl. by rewrite IH, copy_pairs_rows.
Qed.

(** The merge of workers that have their pairs right is right: when every
    worker has, in the cells of its pairs, what [after] has, and [after] has
    in the other cells what [before] has, the copy of the workers' cells
    into [before] is [after]. *)
Lemma copy_jobs_eq {X} (matrix : X → gmap string (gmap string V))
    before after (jobs : list (list (string * string) * X)) :
  (∀ k, is_Some (after !! k) ↔ is_Some (before !! k)) →
  (∀ a b, cell after a b = None → cell before a b = None) →
  (∀ a b, Forall (λ job, Forall (λ pair, ¬ hits pair a b) job.1) jobs →
          cell after a b = cell before a b) →
  Forall (λ job, Forall (copied_right (matrix job.2) after) job.1) jobs →
  foldl (λ target job, copy_pairs (matrix job.2) job.1 target) before jobs
  = after.
Proof.
  intros Hrows Hstay Hother Hjobs. apply matrix_ext.
  - intros k. by rewrite copy_jobs_rows.
  - intros a b. apply (copy_jobs_between matrix before after); try done.
    + split; [done|]. intros a' b'. by right.
    + destruct (decide (Exists (λ job, Exists (λ pair, hits pair a b) job.1)
                          jobs)) as [Hhit|Hnone]; [by left|].
      right. symmetry. apply Hother.
      apply Forall_forall. intros job Hjob.
      apply Forall_forall. intros pair Hpair Hhits.
      apply Hnone, Exists_exists. exists job. split; [done|].
      apply Exists_exists. by exists pair.
Qed.

End Copying.

Lemma concat_Permutation {A} (l l' : list (list A)) :
  l ≡ₚ l' → concat l ≡ₚ concat l'.
Proof.
  induction 1 as [|x l l' _ IH|x y l|l l' l'' _ IH1 _ IH2]; simpl.
  - done.
  - by rewrite IH.
  - rewrite !(assoc_L (++)). f_equiv. apply Permutation_app_comm.
  - by rewrite IH1.
Qed.

Lemma zip_imap_Forall {A B} (f : nat → A → B) (Q : A * B → Prop) l :
  (∀ k x, l !! k = Some x → Q (x, f k x)) → Forall Q (zip l (imap f l)).
Proof.
  intros HQ. apply Forall_lookup. intros k [x y] Hk.
  apply lookup_zip_Some in Hk as [Hx Hy]. simpl in Hx, Hy.
  rewrite list_lookup_imap, Hx in Hy. injection Hy as <-. by apply HQ.
Qed.

Lemma zip_imap_fst {A B} (f : nat → A → B) (Q : A → Prop) l :
  Forall (λ job, Q job.1) (zip l (imap f l)) → Forall Q l.
Proof.
  intros HQ. apply Forall_lookup. intros k x Hk.
  apply (proj1 (Forall_lookup _ _) HQ k (x, f k x)).
  apply lookup_zip_Some. split; [exact Hk|]. simpl.
  by rewrite list_lookup_imap, Hk.
Qed.

Section WorkersMerge.
Context `{Collaborators}.

Lemma distinct_cells_app l1 l2 pair :
  distinct_cells (l1 ++ l2) → pair ∈ l1 →
  Forall (λ other, ¬ same_cells pair other) l2.
Proof.
  induction l1 as [|p l1 IH]; simpl.
  - by intros _ ?%elem_of_nil.
  - intros [Hhead Htail] [->|Hin]%elem_of_cons.
    + by apply Forall_app in Hhead as [_ ?].
    + by apply IH.
Qed.

(** A run that completes removes no cell. *)
Lemma loop_cells_stay s exp instances_ids w w' a b :
  loop s exp instances_ids w = (Ok tt, w') →
  (cell (distances w') a b = None → cell (distances w) a b = None)
  ∧ (cell (matchings w') a b = None → cell (matchings w) a b = None).
Proof.
  revert w. induction instances_ids as [|pair ids IH]; intros w.
  { by intros [= <-]. }
  rewrite loop_cons.
  destruct (step s exp pair w) as [[[]|e] w1] eqn:Hstep; [|done].
  intros [Hd Hm]%IH.
  apply step_written in Hstep
    as (distance & _ & _ & _ & _ & _ & Hd1 & Hm1).
  split.
  - intros Hnone%Hd. rewrite Hd1 in Hnone.
    by destruct (decide (hits pair a b)).
  - intros Hnone%Hm. rewrite Hm1 in Hnone. unfold matching_cell in Hnone.
    destruct distance as [| |x matching]; try done.
    by repeat destruct (decide _).
Qed.

(** A worker has its pairs right: when the run over the whole list
    completes, the worker of a partition, started from the same world,
    leaves in the cells of its pairs what the run over the list leaves
    there. *)
Lemma worker_has_its_pairs_right exp instances_ids partitions safe_mode
    w w' process_id part :
  concat partitions ≡ₚ instances_ids →
  distinct_cells instances_ids →
  instances_stored exp w →
  (∀ function, registered w function →
     content_determined function ∧ mutates_arguments_only function) →
  isolated (SingleProcess safe_mode) w →
  loop (SingleProcess safe_mode) exp instances_ids w = (Ok tt, w') →
  partitions !! process_id = Some part →
  let worker := run_multiple_processes exp part process_id w in
  Forall (copied_right (distances worker.2) (distances w')) part
  ∧ Forall (copied_right (matchings worker.2) (matchings w')) part.
Proof.
  intros Hperm Hdistinct Hstored Hmetrics Hiso Hloop Hpart. simpl.
  set (others := concat (delete process_id partitions)).
  assert (instances_ids ≡ₚ part ++ others) as Hsplit.
  { rewrite <- Hperm.
    apply (concat_Permutation partitions
             (part :: delete process_id partitions)).
    by apply delete_Permutation. }
  assert (∀ function, registered w function → content_determined function)
    as Hc by (intros function Hf; by apply Hmetrics).
  assert (isolated (MultipleProcesses process_id) w) as Hiso'
    by (intros function Hf; by apply Hmetrics).
  destruct (loop_Permutation exp w instances_ids (part ++ others)
              Hsplit Hstored Hc Hdistinct (SingleProcess safe_mode)
              (MultipleProcesses process_id) w w w' Hiso Hiso'
              (extends_refl w) (extends_refl w) (same_results_refl w) Hloop)
    as (w2 & Hloop2 & Hd & Hm & _).
  unfold loop in Hloop2. rewrite for_each_app in Hloop2.
  change (for_each (step (MultipleProcesses process_id) exp) part w)
    with (loop (MultipleProcesses process_id) exp part w) in Hloop2.
  destruct (run_matrices (MultipleProcesses process_id) exp part w)
    as (Hrd & _ & Hrm).
  simpl in Hrd, Hrm. rewrite Hrd, Hrm, Hd, Hm.
  destruct (loop (MultipleProcesses process_id) exp part w)
    as [[[]|e] w1]; [|done].
  simpl.
  assert (distinct_cells (part ++ others)) as Hdistinct'
    by (by eapply distinct_cells_Permutation).
  assert (∀ pair a b, pair ∈ part → hits pair a b →
            cell (distances w2) a b = cell (distances w1) a b
            ∧ cell (matchings w2) a b = cell (matchings w1) a b) as Hkept.
  { intros pair a b Hin Hhits.
    assert (Forall (λ other, ¬ hits other a b) others) as Hothers.
    { eapply Forall_impl;
        [exact (distinct_cells_app part others pair Hdistinct' Hin)|].
      simpl. intros other Hother Hhits'.
      by apply (same_cells_hits pair other a b). }
    pose proof (loop_other_cells (MultipleProcesses process_id) exp others
                  a b Hothers _ _ _ w1 (conj eq_refl (conj eq_refl eq_refl)))
      as (Hd' & _ & Hm').
    unfold loop in Hd', Hm'. rewrite Hloop2 in Hd', Hm'. done. }
  split; apply Forall_forall; intros pair Hin; split.
  - symmetry. apply (Hkept pair); [done|by left].
  - symmetry. apply (Hkept pair); [done|by right].
  - symmetry. apply (Hkept pair); [done|by left].
  - symmetry. apply (Hkept pair); [done|by right].
Qed.

(** C6, as the code has it.  Let the partitions hold the pairs of the list,
    in any order, and let no two pairs of the list address the same two
    cells (the partitions are disjoint over pair keys).  Let the run of
    [run_single_process] over the whole list complete, let the registered
    metrics decide their outcome by the content of their two arguments and
    write to the store through their arguments only, and let safe mode be
    enabled or the metrics write nothing at all.  Then the matrices of the
    workers, each of which ran [run_multiple_processes] on its partition on
    its own, merged into the matrices as they were before, are the
    distances and the matchings that the single run leaves. *)
Theorem single_run_equals_workers
    experiment instances_ids partitions safe_mode w :
  concat partitions ≡ₚ instances_ids →
  distinct_cells instances_ids →
  instances_stored experiment w →
  (∀ function, registered w function →
     content_determined function ∧ mutates_arguments_only function) →
  (safe_mode = true ∨ ∀ function, registered w function → reads_only function) →
  (run_single_process experiment instances_ids safe_mode w).1 = Ok tt →
  let single := run_single_process experiment instances_ids safe_mode w in
  let workers := run_workers experiment partitions w in
  merge_workers distances partitions workers (distances w)
  = distances single.2
  ∧ merge_workers matchings partitions workers (matchings w)
    = matchings single.2.
Proof.
  intros Hperm Hdistinct Hstored Hmetrics Hsafe Hrun. simpl.
  assert (isolated (SingleProcess safe_mode) w) as Hiso.
  { intros function Hf. simpl. destruct safe_mode.
    - by apply Hmetrics.
    - destruct Hsafe as [?|Hreads]; [done|]. by apply Hreads. }
  change (run_single_process experiment instances_ids safe_mode w)
    with (loop (SingleProcess safe_mode) experiment instances_ids w) in *.
  destruct (loop (SingleProcess safe_mode) experiment instances_ids w)
    as [[[]|e] w'] eqn:Hloop; [|done].
  simpl.
  pose proof (loop_rows (SingleProcess safe_mode) experiment instances_ids w)
    as Hrows_all.
  assert (∀ a b,
            Forall (λ job : list (string * string) * (res unit * World),
                      Forall (λ pair, ¬ hits pair a b) job.1)
              (zip partitions (run_workers experiment partitions w)) →
            cell (distances w') a b = cell (distances w) a b
            ∧ cell (matchings w') a b = cell (matchings w) a b) as Hother.
  { intros a b Hjobs.
    apply (zip_imap_fst _ (Forall (λ pair, ¬ hits pair a b))) in Hjobs.
    assert (Forall (λ pair, ¬ hits pair a b) instances_ids) as Hids.
    { rewrite <- Hperm. apply Forall_concat. exact Hjobs. }
    pose proof (loop_other_cells (SingleProcess safe_mode) experiment
                  instances_ids a b Hids _ _ _ w
                  (conj eq_refl (conj eq_refl eq_refl))) as (Hd & _ & Hm).
    rewrite Hloop in Hd, Hm. done. }
  assert (∀ process_id part,
            partitions !! process_id = Some part →
            let worker :=
              run_multiple_processes experiment part process_id w in
            Forall (copied_right (distances worker.2) (distances w')) part
            ∧ Forall (copied_right (matchings worker.2) (matchings w')) part)
    as Hworkers.
  { intros process_id part Hpart.
    by apply (worker_has_its_pairs_right experiment instances_ids partitions
                safe_mode). }
  unfold merge_workers. split.
  - apply (copy_jobs_eq (λ worker : res unit * World, distances worker.2)).
    + intros k. specialize (Hrows_all k). simpl in Hrows_all.
      rewrite Hloop in Hrows_all. apply Hrows_all.
    + intros a b.
      by apply (loop_cells_stay _ _ _ _ _ a b Hloop).
    + intros a b Hjobs. by apply Hother.
    + apply zip_imap_Forall. intros k part Hpart. simpl.
      by apply Hworkers.
  - apply (copy_jobs_eq (λ worker : res unit * World, matchings worker.2)).
    + intros k. specialize (Hrows_all k). simpl in Hrows_all.
      rewrite Hloop in Hrows_all. apply Hrows_all.
    + intros a b.
      by apply (loop_cells_stay _ _ _ _ _ a b Hloop).
    + intros a b Hjobs. by apply Hother.
    + apply zip_imap_Forall. intros k part Hpart. simpl.
      by apply Hworkers.
Qed.

End WorkersMerge.

(** ** A pair that the dispatcher gives up on, as it is recorded *)

Section GivenUpRecorded.
Context `{Collaborators}.

(** C3, as the code has it.  For a pair whose two instances are not both of
    the class of one family, or whose main distance is not registered for
    their family, the dispatcher logs a warning and returns [None]; the
    scheduler, either of them, then stores [None] as the distance of the
    pair in both cells, stores the elapsed time, which is the reading of the
    clock after the dispatch less the reading before it, in both cells,
    leaves the matchings as they are, invokes no metric, and goes on with
    the remaining pairs.  (The rows of the two instances are there, as the
    caller sizes the matrices.) *)
Theorem rejected_pair_is_recorded_as_none
    s exp rest w i j election_1 election_2 o1 o2 :
  instances exp !! i = Some election_1 →
  instances exp !! j = Some election_2 →
  heap w !! election_1 = Some o1 →
  heap w !! election_2 = Some o2 →
  family_mismatch (ob_type o1) (ob_type o2)
  ∨ unknown_distance w (distance_id exp) (ob_type o1) (ob_type o2) →
  is_Some (distances w !! i) → is_Some (distances w !! j) →
  is_Some (times w !! i) → is_Some (times w !! j) →
  ∃ w' msg,
    step s exp (i, j) w = (Ok tt, w')
    ∧ warnings w' = (warnings w ++ [msg])%list
    ∧ calls w' = calls w
    ∧ cell (distances w') i j = Some PyNone
    ∧ cell (distances w') j i = Some PyNone
    ∧ cell (times w') i j
      = Some (fsub (clock w (S (ticks w))) (clock w (ticks w)))
    ∧ cell (times w') j i
      = Some (fsub (clock w (S (ticks w))) (clock w (ticks w)))
    ∧ matchings w' = matchings w
    ∧ loop s exp ((i, j) :: rest) w = loop s exp rest w'.
Proof.
  intros Hi Hj H1 H2 Hgive Hdi Hdj Hti Htj.
  destruct (dispatch_gives_up s exp i j election_1 election_2 o1 o2 (tick w)
              Hi Hj H1 H2 Hgive) as (msg & h & Hdispatch).
  set (w1 := add_warning msg (set_heap h (tick w))) in *.
  destruct (store_result_none_run i j (clock w (ticks w)) w1 Hdi Hdj Hti Htj)
    as [w' Hstore].
  assert (step s exp (i, j) w = (Ok tt, w')) as Hstep.
  { rewrite step_unfold. simpl. by rewrite Hdispatch. }
  exists w', msg. split; [done|].
  pose proof (unchanged_store_result (λ w, (warnings w, calls w)) i j
                (clock w (ticks w)) RNone (λ _ _, eq_refl) (λ _ _, eq_refl)
                (λ _ _, eq_refl) (λ _, eq_refl) w1) as Hlog.
  rewrite Hstore in Hlog. injection Hlog as Hwarn Hcalls.
  pose proof (store_result_matchings i j (clock w (ticks w)) RNone w1) as Hm.
  rewrite Hstore in Hm.
  destruct (step_recorded s exp (i, j) w w1 w' RNone Hdispatch Hstep)
    as ((Hij & Hji) & (Htij & Htji) & _).
  repeat split; try done.
  by rewrite loop_cons, Hstep.
Qed.

End GivenUpRecorded.

(** ** The two matchings of a pair *)

Lemma argsort_length a : length (argsort a) = length a.
Proof.
  unfold argsort.
  rewrite length_fmap, (Permutation_length (merge_sort_Permutation _ _)).
  rewrite length_zip, length_seq. lia.
Qed.

(** [np.argsort] returns a permutation of the indices, whatever it
    sorts. *)
Lemma argsort_is_permutation a : is_permutation (argsort a).
Proof.
  unfold is_permutation. rewrite argsort_length. unfold argsort.
  set (sorted := merge_sort by_value (zip a (seq 0 (length a)))).
  transitivity (Z.of_nat <$> sorted.*2);
    [by rewrite <- list_fmap_compose|].
  unfold sorted. rewrite merge_sort_Permutation, snd_zip; [done|].
  by rewrite length_seq.
Qed.

Lemma argsort_involutive p : is_permutation p → argsort (argsort p) = p.
Proof.
  intros Hp. apply list_eq. intros m.
  destruct (p !! m) as [v|] eqn:Hm.
  - assert (∃ k, v = Z.of_nat k) as [k ->].
    { apply list_elem_of_lookup_2 in Hm. rewrite (Hp : _ ≡ₚ _) in Hm.
      apply list_elem_of_fmap in Hm as (k & -> & _). eauto. }
    apply (argsort_lookup (argsort p) m (Z.of_nat m) k);
      [apply argsort_is_permutation| |done].
    by apply (argsort_lookup p k (Z.of_nat k) m).
  - apply lookup_ge_None in Hm. apply lookup_ge_None.
    by rewrite !argsort_length.
Qed.

Section TwoMatchings.
Context `{Collaborators}.

(** X20.  The two matchings that a processed pair leaves in the matrix sort each
    other: when the metric returns a permutation for a pair of two
    different instances, [matchings[j][i]] is the [argsort] of
    [matchings[i][j]] and [matchings[i][j]] is the [argsort] of
    [matchings[j][i]], so that either cell can be recomputed from the
    other; [matchings[j][i]] is a permutation whatever the metric
    returned. *)
Theorem stored_matchings_sort_each_other s exp i j w w1 w' x p :
  i ≠ j →
  dispatch s exp i j (tick w) = (Ok (RTuple x p), w1) →
  step s exp (i, j) w = (Ok tt, w') →
  ∃ forth back,
    cell (matchings w') i j = Some forth
    ∧ cell (matchings w') j i = Some back
    ∧ back = argsort forth
    ∧ is_permutation back
    ∧ (is_permutation p → forth = argsort back).
Proof.
  intros Hij Hdispatch. rewrite step_unfold. simpl. rewrite Hdispatch.
  intros [Hforth Hback]%store_result_tuple_ok; [|done].
  exists p, (argsort p). repeat split; try done.
  - apply argsort_is_permutation.
  - intros Hp. by rewrite argsort_involutive.
Qed.

End TwoMatchings.

(** ** The small experiment *)

Section DemoFacts.
#[local] Existing Instance demo.

Lemma reading_metric_frame : mutates_arguments_only reading_metric.
Proof.
  intros election_1 election_2 arg h x o Hx _ _. unfold reading_metric.
  by destruct (h !! election_1), (h !! election_2).
Qed.

Lemma counting_metric_frame : mutates_arguments_only counting_metric.
Proof.
  intros election_1 election_2 arg h x o Hx H1 _. unfold counting_metric.
  destruct (h !! election_1); simpl; [|done]. by rewrite lookup_insert_ne.
Qed.

Lemma demo_registered function :
  registered demo_world function → mutates_arguments_only function.
Proof.
  intros [name [Hname|Hname]]; simpl in Hname.
  - apply lookup_insert_Some in Hname as [[_ <-]|[_ Hname]];
      [apply reading_metric_frame|done].
  - apply lookup_insert_Some in Hname as [[_ <-]|[_ Hname]];
      [apply reading_metric_frame|].
    apply lookup_insert_Some in Hname as [[_ <-]|[_ Hname]];
      [apply counting_metric_frame|done].
Qed.

Lemma reading_metric_reads_only : reads_only reading_metric.
Proof.
  intros election_1 election_2 arg h. unfold reading_metric.
  by destruct (h !! election_1), (h !! election_2).
Qed.

Lemma reading_metric_content_determined : content_determined reading_metric.
Proof.
  intros election_1 election_2 election_1' election_2' arg h h' H1 H2.
  unfold reading_metric. rewrite <- H1, <- H2.
  by destruct (h !! election_1), (h !! election_2).
Qed.

Lemma reading_world_registered function :
  registered reading_world function →
  reads_only function ∧ content_determined function.
Proof.
  pose proof reading_metric_reads_only.
  pose proof reading_metric_content_determined.
  intros [name [Hname|Hname]]; simpl in Hname;
    by apply lookup_insert_Some in Hname as [[_ <-]|[_ Hname]].
Qed.

Lemma demo_instances_stored w :
  heap w = heap demo_world → instances_stored exp_swap w.
Proof.
  intros Hheap id x Hid. rewrite Hheap. simpl in Hid.
  unfold demo_instances in Hid.
  repeat (apply lookup_insert_Some in Hid as [[_ <-]|[_ Hid]];
          [vm_compute; eauto|]).
  done.
Qed.

Lemma matrices_are_symmetric_witness :
  let done := [("b", "c")] in
  let rest := [("c", "e"); ("a", "b")] in
  ((run_single_process exp_swap done false demo_world).1 = Ok tt
   ∧ (run_multiple_processes exp_swap done 0 demo_world).1 = Ok tt)
  ∧ (let w' := (run_single_process exp_swap (done ++ rest) false
                  demo_world).2 in
     mirrored_at (distances w') "b" "c" ∧ mirrored_at (times w') "b" "c")
  ∧ (let w' := (run_multiple_processes exp_swap (done ++ rest) 0
                  demo_world).2 in
     mirrored_at (distances w') "b" "c" ∧ mirrored_at (times w') "b" "c").
Proof.
  intros done rest.
  assert ((run_single_process exp_swap done false demo_world).1 = Ok tt)
    as Hsingle by (vm_compute; reflexivity).
  assert ((run_multiple_processes exp_swap done 0 demo_world).1 = Ok tt)
    as Hmultiple by (vm_compute; reflexivity).
  split; [by split|].
  destruct (matrices_are_symmetric exp_swap done rest false 0 demo_world
              "b" "c") as [Hs Hm]; [apply list_elem_of_here|].
  split; [exact (Hs Hsingle)|exact (Hm Hmultiple)].
Defined.

Lemma matching_is_stored_with_its_inverse_witness :
  let p := [2; 0; 1]%Z in
  let w' := (run (SingleProcess true) exp_swap
               ([] ++ ("b", "c") :: [("c", "e")]) demo_world).2 in
  is_permutation p
  ∧ cell (matchings w') "b" "c" = Some p
  ∧ ∃ q, cell (matchings w') "c" "b" = Some q
         ∧ q = argsort p ∧ inverse_of p q.
Proof.
  intros p w'.
  assert (is_permutation p) as Hp.
  { unfold is_permutation, p. simpl. solve_Permutation. }
  split; [exact Hp|].
  apply (matching_is_stored_with_its_inverse (SingleProcess true) exp_swap
           [] [("c", "e")] demo_world demo_world
           (dispatch (SingleProcess true) exp_swap "b" "c"
              (tick demo_world)).2
           "b" "c" (-10)%Z p).
  - done.
  - exact Hp.
  - reflexivity.
  - vm_compute. reflexivity.
  - vm_compute. reflexivity.
  - constructor; [by split|constructor].
Defined.

(** A pair of one instance with itself is outside the data model (a pair
    key has two different instances): its one cell ends with the [argsort]
    of the matching. *)
Example matching_of_an_instance_with_itself :
  let w' := (run (SingleProcess false) exp_swap [("b", "b")] demo_world).2 in
  cell (matchings w') "b" "b" = Some (argsort [2; 0; 1]%Z)
  ∧ argsort [2; 0; 1]%Z = [1; 2; 0]%Z.
Proof. split; vm_compute; reflexivity. Qed.

Lemma get_distance_same_family_only_witness :
  get_distance 1%positive 2%positive (Some "swap") demo_world
  = (Ok RNone, add_warning "No such instance!" demo_world)
  ∧ ∃ new,
      calls (get_distance 2%positive 3%positive (Some "swap") demo_world).2
      = (calls demo_world ++ new)%list
      ∧ ∀ ev, ev ∈ new →
          ev_args ev = (2%positive, 3%positive)
          ∧ OrdinalElection = family_class (ev_family ev)
          ∧ OrdinalElection = family_class (ev_family ev)
          ∧ ev_types ev = (Some OrdinalElection, Some OrdinalElection).
Proof.
  split.
  - apply (get_distance_same_family_only demo_world 1%positive 2%positive
             (election ApprovalElection 10) (election OrdinalElection 20)
             (Some "swap")); [reflexivity|reflexivity|discriminate].
  - apply (get_distance_same_family_only demo_world 2%positive 3%positive
             (election OrdinalElection 20) (election OrdinalElection 30)
             (Some "swap")); reflexivity.
Defined.

Lemma unknown_distance_is_reported_witness :
  get_approval_distance 1%positive 1%positive (Some "nonexistent") []
    demo_world
  = (Ok RNone, add_warning "No such distance as: nonexistent!" demo_world)
  ∧ get_ordinal_distance 2%positive 3%positive (Some "l1-nonexistent") []
      demo_world
    = (Ok RNone, add_warning "No such distance as: nonexistent!" demo_world).
Proof.
  split.
  - apply (unknown_distance_is_reported demo_world 1%positive 1%positive
             (Some "nonexistent") [] None "nonexistent"); reflexivity.
  - apply (unknown_distance_is_reported demo_world 2%positive 3%positive
             (Some "l1-nonexistent") [] (Some "l1") "nonexistent");
      reflexivity.
Defined.

Lemma default_distance_id_raises_witness :
  let error := TypeError "argument of type 'NoneType' is not iterable" in
  _extract_distance_id None = Raise error
  ∧ get_distance 2%positive 3%positive None demo_world
    = (Raise error, demo_world)
  ∧ get_approval_distance 2%positive 3%positive None [] demo_world
    = (Raise error, demo_world)
  ∧ get_ordinal_distance 2%positive 3%positive None [] demo_world
    = (Raise error, demo_world).
Proof.
  apply (default_distance_id_raises demo_world 2%positive 3%positive
           (election OrdinalElection 20) (election OrdinalElection 30)
           Ordinal []); reflexivity.
Defined.

Lemma subclass_instances_are_rejected_witness :
  family_of (Subclass "CulturalElection" OrdinalElection)
  = family_of OrdinalElection
  ∧ get_distance 4%positive 2%positive (Some "swap") demo_world
    = (Ok RNone, add_warning "No such instance!" demo_world).
Proof.
  split; [reflexivity|].
  apply (subclass_instances_are_rejected demo_world 4%positive 2%positive
           (election (Subclass "CulturalElection" OrdinalElection) 40)
           (election OrdinalElection 20) (Some "swap"));
    [reflexivity|reflexivity|].
  left. simpl. eauto.
Defined.

Lemma copies_isolate_the_instances_witness :
  let ids := [("b", "c"); ("b", "e")] in
  let stays (w' : World) :=
    (∀ x o, heap demo_world !! x = Some o → heap w' !! x = Some o)
    ∧ ∃ new, calls w' = (calls demo_world ++ new)%list
             ∧ Forall (λ ev, heap demo_world !! (ev_args ev).1 = None
                             ∧ heap demo_world !! (ev_args ev).2 = None) new in
  stays (run (SingleProcess true) exp_counting ids demo_world).2
  ∧ stays (run (MultipleProcesses 0) exp_counting ids demo_world).2.
Proof.
  intros ids stays. split.
  - apply (copies_isolate_the_instances (SingleProcess true) exp_counting
             ids demo_world); [reflexivity|exact demo_registered].
  - apply (copies_isolate_the_instances (MultipleProcesses 0) exp_counting
             ids demo_world); [reflexivity|exact demo_registered].
Defined.

(** Without copies the counting metric is seen in the stored instance. *)
Lemma without_copies_the_instance_changes :
  heap (run (SingleProcess false) exp_counting [("b", "c"); ("b", "e")]
          demo_world).2 !! 2%positive
  = Some (election OrdinalElection 22).
Proof. vm_compute. reflexivity. Qed.

(** C3, as the spec has it, fails: the pair of an approval and an ordinal
    election has no distance before the run and the distance [None] after
    it, and a time. *)
Lemma rejected_pair_is_written :
  let w' := (run_single_process exp_swap [("a", "b")] false demo_world).2 in
  family_mismatch ApprovalElection OrdinalElection
  ∧ cell (distances demo_world) "a" "b" = None
  ∧ cell (distances w') "a" "b" = Some PyNone
  ∧ cell (distances w') "b" "a" = Some PyNone
  ∧ cell (times demo_world) "a" "b" = None
  ∧ cell (times w') "a" "b" = Some 1%Z
  ∧ distances w' ≠ distances demo_world
  ∧ times w' ≠ times demo_world.
Proof.
  intros w'.
  split; [split; intros [? ?]; discriminate|].
  repeat (split; [vm_compute; reflexivity|]).
  split; intros E.
  - apply (f_equal (λ d, cell d "a" "b")) in E. vm_compute in E. discriminate.
  - apply (f_equal (λ d, cell d "a" "b")) in E. vm_compute in E. discriminate.
Qed.

End DemoFacts.

(** ** The small experiment, further *)

#[local] Existing Instance demo.

(** An outcome is known once its result is. *)
Lemma outcome_eq `{Collaborators} {A} (r : res A * World) (a : res A) :
  r.1 = a → r = (a, r.2).
Proof. intros <-. by destruct r. Qed.

Lemma rejected_pair_is_recorded_as_none_witness :
  family_mismatch ApprovalElection OrdinalElection
  ∧ ∃ w' msg,
      step (MultipleProcesses 0) exp_swap ("a", "b") demo_world = (Ok tt, w')
      ∧ warnings w' = (warnings demo_world ++ [msg])%list
      ∧ calls w' = calls demo_world
      ∧ cell (distances w') "a" "b" = Some PyNone
      ∧ cell (distances w') "b" "a" = Some PyNone
      ∧ cell (times w') "a" "b" = Some 1%Z
      ∧ cell (times w') "b" "a" = Some 1%Z
      ∧ matchings w' = matchings demo_world
      ∧ loop (MultipleProcesses 0) exp_swap [("a", "b"); ("b", "c")]
          demo_world
        = loop (MultipleProcesses 0) exp_swap [("b", "c")] w'.
Proof.
  assert (family_mismatch ApprovalElection OrdinalElection) as Hmismatch
    by (split; intros [? ?]; discriminate).
  split; [exact Hmismatch|].
  apply (rejected_pair_is_recorded_as_none (MultipleProcesses 0) exp_swap
           [("b", "c")] demo_world "a" "b" 1%positive 2%positive
           (election ApprovalElection 10) (election OrdinalElection 20)).
  - reflexivity.
  - reflexivity.
  - reflexivity.
  - reflexivity.
  - left. exact Hmismatch.
  - vm_compute. eauto.
  - vm_compute. eauto.
  - vm_compute. eauto.
  - vm_compute. eauto.
Defined.

Lemma single_run_equals_workers_witness :
  let ids := [("b", "c"); ("a", "b"); ("c", "e")] in
  let partitions := [[("c", "e")]; [("b", "c"); ("a", "b")]] in
  let single := run_single_process exp_reading ids false reading_world in
  let workers := run_workers exp_reading partitions reading_world in
  merge_workers distances partitions workers (distances reading_world)
  = distances single.2
  ∧ merge_workers matchings partitions workers (matchings reading_world)
    = matchings single.2.
Proof.
  intros ids partitions.
  apply (single_run_equals_workers (H := demo) exp_reading ids partitions
           false reading_world).
  - simpl. solve_Permutation.
  - repeat split; repeat constructor; intros [?|?]; discriminate.
  - exact (demo_instances_stored reading_world eq_refl).
  - intros function Hf. apply reading_world_registered in Hf as [Hr Hc].
    split; [done|]. by apply reads_only_mutates_arguments_only.
  - right. intros function Hf.
    by apply reading_world_registered in Hf as [Hr Hc].
  - vm_compute. reflexivity.
Defined.

(** C6, as the spec has it, fails, in three ways.  Without safe mode the
    counting metric sees its own earlier count in the single run, and not
    in the copies of the workers.  In safe mode the tallying metric, whose
    state is outside its arguments, goes on counting through the single run
    and starts anew in every worker.  And a pair that raises ends the single
    run before the pairs after it are written, and ends its own worker
    only. *)
Lemma single_run_differs_from_workers :
  (let ids := [("b", "c"); ("b", "e")] in
   let partitions := [[("b", "c")]; [("b", "e")]] in
   let single := run_single_process exp_counting ids false demo_world in
   let workers := run_workers exp_counting partitions demo_world in
   let merged :=
     merge_workers distances partitions workers (distances demo_world) in
   concat partitions = ids
   ∧ single.1 = Ok tt
   ∧ cell (distances single.2) "b" "e" = Some (PyFloat 21%Z)
   ∧ cell merged "b" "e" = Some (PyFloat 20%Z)
   ∧ merged ≠ distances single.2)
  ∧ (let ids := [("b", "c"); ("c", "e")] in
     let partitions := [[("b", "c")]; [("c", "e")]] in
     let single := run_single_process exp_tally ids true tallying_world in
     let workers := run_workers exp_tally partitions tallying_world in
     let merged :=
       merge_workers distances partitions workers
         (distances tallying_world) in
     concat partitions = ids
     ∧ single.1 = Ok tt
     ∧ cell (distances single.2) "c" "e" = Some (PyFloat 51%Z)
     ∧ cell merged "c" "e" = Some (PyFloat 50%Z)
     ∧ merged ≠ distances single.2)
  ∧ (let ids := [("z", "b"); ("b", "c")] in
     let partitions := [[("z", "b")]; [("b", "c")]] in
     let single := run_single_process exp_reading ids true reading_world in
     let workers := run_workers exp_reading partitions reading_world in
     let merged :=
       merge_workers distances partitions workers
         (distances reading_world) in
     concat partitions = ids
     ∧ single.1 = Raise (KeyError "z")
     ∧ cell (distances single.2) "b" "c" = None
     ∧ cell merged "b" "c" = Some (PyFloat (-10)%Z)
     ∧ merged ≠ distances single.2).
Proof.
  split; [|split].
  - intros ids partitions single workers merged.
    repeat (split; [vm_compute; reflexivity|]).
    intros E. apply (f_equal (λ d, cell d "b" "e")) in E.
    vm_compute in E. discriminate.
  - intros ids partitions single workers merged.
    repeat (split; [vm_compute; reflexivity|]).
    intros E. apply (f_equal (λ d, cell d "c" "e")) in E.
    vm_compute in E. discriminate.
  - intros ids partitions single workers merged.
    repeat (split; [vm_compute; reflexivity|]).
    intros E. apply (f_equal (λ d, cell d "b" "c")) in E.
    vm_compute in E. discriminate.
Qed.

Lemma registered_metric_is_called_witness :
  get_family_distance Ordinal 2%positive 3%positive (Some "l1-swap") []
    demo_world
  = (Ok (RTuple (-10)%Z [2; 0; 1]%Z),
     set_heap (heap demo_world)
       (add_call (call_of Ordinal "swap" 2%positive 3%positive demo_world)
          demo_world))
  ∧ warnings (get_family_distance Ordinal 2%positive 3%positive
                (Some "l1-swap") [] demo_world).2 = warnings demo_world.
Proof.
  apply (registered_metric_is_called (H := demo) Ordinal 2%positive 3%positive
           (Some "l1-swap") [] (Some "l1") "swap" reading_metric demo_world);
    reflexivity.
Defined.

Lemma get_distance_calls_the_registered_metric_witness :
  get_distance 2%positive 3%positive (Some "swap") demo_world
  = (Ok (RTuple (-10)%Z [2; 0; 1]%Z),
     set_heap (heap demo_world)
       (add_call (call_of Ordinal "swap" 2%positive 3%positive demo_world)
          demo_world)).
Proof.
  apply (get_distance_calls_the_registered_metric (H := demo) Ordinal
           2%positive 3%positive
           (election OrdinalElection 20) (election OrdinalElection 30)
           (Some "swap") None "swap" reading_metric demo_world);
    reflexivity.
Defined.

Lemma unknown_inner_distance_is_dropped_witness :
  map_str_to_func "foo" = Ok None
  ∧ get_family_distance Ordinal 2%positive 3%positive (Some "foo-swap") []
      demo_world
    = get_family_distance Ordinal 2%positive 3%positive (Some "swap") []
        demo_world.
Proof.
  split; [reflexivity|].
  apply (unknown_inner_distance_is_dropped (H := demo) Ordinal "foo" "swap"
           2%positive 3%positive [] demo_world); reflexivity.
Defined.

Lemma registered_distance_is_dispatched_witness :
  let w' :=
    (add_family_distance Approval "hamming" counting_metric demo_world).2 in
  registered_approval_distances demo_world !! "hamming" = Some reading_metric
  ∧ get_family_distance Approval 1%positive 1%positive (Some "hamming") [] w'
    = call_metric Approval "hamming" counting_metric 1%positive 1%positive
        (Keywords []) w'
  ∧ get_family_distance Approval 1%positive 1%positive (Some "l1-hamming")
      [] w'
    = call_metric Approval "hamming" counting_metric 1%positive 1%positive
        (Positional "l1") w'.
Proof.
  intros w'. split; [reflexivity|].
  destruct (registered_distance_is_dispatched (H := demo) Approval "hamming"
              counting_metric 1%positive 1%positive [] demo_world eq_refl)
    as [Hplain Hinner].
  split; [exact Hplain|].
  apply (Hinner "l1" "l1"); reflexivity.
Defined.

Lemma registration_leaves_the_other_names_witness :
  let register := add_family_distance Ordinal "swap" counting_metric in
  let dispatched :=
    get_family_distance Ordinal 2%positive 3%positive (Some "counting") [] in
  dispatched (register demo_world).2
  = ((dispatched demo_world).1, (register (dispatched demo_world).2).2).
Proof.
  apply (registration_leaves_the_other_names (H := demo)
           Ordinal "swap" counting_metric
           Ordinal 2%positive 3%positive (Some "counting") [] demo_world).
  right. intros inner_distance. discriminate.
Defined.

Lemma other_cells_are_left_alone_witness :
  let w' := (run (SingleProcess false) exp_swap [("b", "c"); ("c", "e")]
               demo_world).2 in
  cell (distances w') "b" "e" = cell (distances demo_world) "b" "e"
  ∧ cell (times w') "b" "e" = cell (times demo_world) "b" "e"
  ∧ cell (matchings w') "b" "e" = cell (matchings demo_world) "b" "e".
Proof.
  apply (other_cells_are_left_alone (H := demo) (SingleProcess false) exp_swap
           [("b", "c"); ("c", "e")] demo_world "b" "e").
  repeat constructor; intros [[? ?]|[? ?]]; discriminate.
Defined.

Lemma pair_is_recorded_witness :
  let w' := (run (MultipleProcesses 0) exp_swap
               ([] ++ ("b", "c") :: [("c", "e")]) demo_world).2 in
  cell (distances w') "b" "c" = Some (PyFloat (-10)%Z)
  ∧ cell (distances w') "c" "b" = Some (PyFloat (-10)%Z)
  ∧ cell (times w') "b" "c" = Some 1%Z
  ∧ cell (times w') "c" "b" = Some 1%Z.
Proof.
  apply (pair_is_recorded (H := demo)
           (MultipleProcesses 0) exp_swap [] [("c", "e")]
           demo_world demo_world
           (dispatch (MultipleProcesses 0) exp_swap "b" "c"
              (tick demo_world)).2
           "b" "c" (@RTuple demo (-10)%Z [2; 0; 1]%Z)).
  - reflexivity.
  - apply outcome_eq. vm_compute. reflexivity.
  - vm_compute. reflexivity.
  - constructor; [by split|constructor].
Defined.

Lemma every_pair_is_a_call_or_a_warning_witness :
  let ids := [("a", "b"); ("b", "c")] in
  let w' := (run (SingleProcess false) exp_swap ids demo_world).2 in
  (∃ new_calls new_warnings,
     calls w' = (calls demo_world ++ new_calls)%list
     ∧ warnings w' = (warnings demo_world ++ new_warnings)%list
     ∧ length new_calls + length new_warnings = length ids)
  ∧ ticks w' = ticks demo_world + 2 * length ids.
Proof.
  apply (every_pair_is_a_call_or_a_warning (H := demo)
           (SingleProcess false) exp_swap
           [("a", "b"); ("b", "c")] demo_world).
  vm_compute. reflexivity.
Defined.

Lemma failing_pair_ends_the_run_witness :
  let w1 := (loop (MultipleProcesses 0) exp_swap [("b", "c")] demo_world).2 in
  let w2 := (step (MultipleProcesses 0) exp_swap ("z", "b") w1).2 in
  run (MultipleProcesses 0) exp_swap
    ([("b", "c")] ++ ("z", "b") :: [("c", "e")]) demo_world
  = (Raise (KeyError "z"), w2)
  ∧ exported w2 = exported demo_world.
Proof.
  intros w1 w2. split; [|vm_compute; reflexivity].
  apply (failing_pair_ends_the_run (H := demo) (MultipleProcesses 0) exp_swap
           [("b", "c")] ("z", "b") [("c", "e")] demo_world w1 w2
           (KeyError "z")).
  - unfold w1. apply outcome_eq. vm_compute. reflexivity.
  - unfold w2. apply outcome_eq. vm_compute. reflexivity.
Defined.

Lemma failed_dispatch_writes_nothing_witness :
  let exp := {| instances := demo_instances; distance_id := Some "a-b-c";
                is_exported := false |} in
  let r := step (SingleProcess true) exp ("b", "c") demo_world in
  r.1 = Raise (ValueError "too many values to unpack (expected 2)")
  ∧ distances r.2 = distances demo_world
  ∧ times r.2 = times demo_world
  ∧ matchings r.2 = matchings demo_world
  ∧ ticks r.2 = S (ticks demo_world).
Proof.
  intros exp.
  apply (failed_dispatch_writes_nothing (H := demo)
           (SingleProcess true) exp ("b", "c")
           demo_world).
  vm_compute. reflexivity.
Defined.

Lemma pair_of_an_instance_with_itself_witness :
  let w' := (step (SingleProcess false) exp_swap ("b", "b") demo_world).2 in
  ∃ distance,
    (dispatch (SingleProcess false) exp_swap "b" "b" (tick demo_world)).1
    = Ok distance
    ∧ cell (distances w') "b" "b" = Some (distance_of distance)
    ∧ cell (matchings w') "b" "b"
      = match distance with
        | RTuple _ matching => Some (argsort matching)
        | _ => cell (matchings demo_world) "b" "b"
        end.
Proof.
  intros w'.
  apply (pair_of_an_instance_with_itself (H := demo) (SingleProcess false)
           exp_swap "b" demo_world w').
  unfold w'. apply outcome_eq. vm_compute. reflexivity.
Defined.

Lemma missing_row_leaves_half_a_pair_witness :
  let w := set_distances (<["b" := ∅]> ∅) demo_world in
  ∃ w',
    step (SingleProcess false) exp_counting ("b", "c") w
    = (Raise (KeyError "c"), w')
    ∧ cell (distances w') "b" "c" = Some (distance_of (RScalar 20%Z))
    ∧ cell (distances w') "c" "b" = None
    ∧ times w' = times w
    ∧ matchings w' = matchings w.
Proof.
  intros w.
  apply (missing_row_leaves_half_a_pair (H := demo)
           (SingleProcess false) exp_counting
           "b" "c" w
           (dispatch (SingleProcess false) exp_counting "b" "c" (tick w)).2
           (@RScalar demo 20%Z) ∅).
  - apply outcome_eq. vm_compute. reflexivity.
  - discriminate.
  - reflexivity.
  - reflexivity.
Defined.

Lemma unknown_instance_raises_key_error_witness :
  ∃ key h,
    step (SingleProcess true) exp_swap ("b", "z") demo_world
    = (Raise (KeyError key), set_heap h (tick demo_world))
    ∧ (instances exp_swap !! "b" = None → key = "b")
    ∧ (is_Some (instances exp_swap !! "b") → key = "z").
Proof.
  apply (unknown_instance_raises_key_error (H := demo)
           (SingleProcess true) exp_swap
           "b" "z" demo_world).
  right. split; [|reflexivity].
  exists 2%positive. split; [reflexivity|]. vm_compute. eauto.
Defined.

Lemma stored_matchings_sort_each_other_witness :
  let w' := (step (SingleProcess false) exp_swap ("b", "c") demo_world).2 in
  ∃ forth back,
    cell (matchings w') "b" "c" = Some forth
    ∧ cell (matchings w') "c" "b" = Some back
    ∧ back = argsort forth
    ∧ is_permutation back
    ∧ (is_permutation [2; 0; 1]%Z → forth = argsort back).
Proof.
  intros w'.
  apply (stored_matchings_sort_each_other (H := demo)
           (SingleProcess false) exp_swap
           "b" "c" demo_world
           (dispatch (SingleProcess false) exp_swap "b" "c"
              (tick demo_world)).2
           w' (-10)%Z [2; 0; 1]%Z).
  - done.
  - apply outcome_eq. vm_compute. reflexivity.
  - unfold w'. apply outcome_eq. vm_compute. reflexivity.
Defined.

(** The partitions have to be disjoint over pair keys: when two workers are
    handed the same pair, one of them the other way round, which of the two
    results the merge keeps depends on the order of the workers, and not on
    the order of the list. *)
Example shared_pair_key_is_merged_either_way :
  let ids := [("b", "c"); ("c", "b")] in
  let partitions := [[("c", "b")]; [("b", "c")]] in
  let single := run_single_process exp_reading ids true reading_world in
  let workers := run_workers exp_reading partitions reading_world in
  let merged :=
    merge_workers distances partitions workers (distances reading_world) in
  concat partitions ≡ₚ ids
  ∧ single.1 = Ok tt
  ∧ cell (distances single.2) "b" "c" = Some (PyFloat 10%Z)
  ∧ cell merged "b" "c" = Some (PyFloat (-10)%Z).
Proof.
  intros ids partitions single workers merged.
  split; [simpl; solve_Permutation|].
  repeat split; vm_compute; reflexivity.
Qed.
